(** * pony_gp: tree-based genetic programming, a shallow embedding

    The development follows [pony_gp/pony_gp.py].  A GP tree is the nested
    Python list [[symbol, child_1, ..., child_n]]; it is embedded as a rose
    tree.  Python exceptions become the [Err] branch of a result type, the
    shared pseudo-random stream becomes an explicit oracle threaded through
    a small state-and-error monad, and in-place updates of list objects
    become functions returning the updated tree. *)

From Stdlib Require Import ZArith List String Ascii Bool Lia.
From Stdlib Require Import Permutation Sorted.
From Stdlib Require Import Floats Uint63.
Import ListNotations.

#[local] Set Warnings "-register-all".

Local Open Scope string_scope.
Local Open Scope list_scope.
Local Open Scope Z_scope.

(* ================================================================== *)
(** ** Exceptions and results *)

(** The Python exceptions the modelled code can raise.  [RecursionError]
    is what an exhausted recursion budget stands for. *)
Inductive exn : Type :=
| IndexError
| KeyError
| ValueError
| ZeroDivisionError
| RecursionError.

Inductive result (A : Type) : Type :=
| Ok (a : A)
| Err (e : exn).

Arguments Ok {A} a.
Arguments Err {A} e.

Definition rbind {A B : Type} (c : result A) (k : A -> result B) : result B :=
  match c with
  | Ok a => k a
  | Err e => Err e
  end.

(* ================================================================== *)
(** ** The random stream

    Every call into Python's [random] module consumes the next raw draw of
    an oracle.  Theorems quantify over all oracles, hence over every
    sequence of outcomes the generator can produce. *)

Definition rng : Type := nat -> Z.

Definition M (A : Type) : Type := rng -> result (A * rng).

Definition ret {A : Type} (a : A) : M A := fun g => Ok (a, g).

Definition raise {A : Type} (e : exn) : M A := fun _ => Err e.

Definition bind {A B : Type} (c : M A) (k : A -> M B) : M B :=
  fun g =>
    match c g with
    | Ok (a, g') => k a g'
    | Err e => Err e
    end.

Definition lift {A : Type} (r : result A) : M A :=
  fun g =>
    match r with
    | Ok a => Ok (a, g)
    | Err e => Err e
    end.

Declare Scope gp_scope.
Delimit Scope gp_scope with gp.

Notation "x <- c ;; k" := (bind c (fun x => k))
  (at level 61, c at next level, right associativity) : gp_scope.
Notation "x <~ c ;; k" := (rbind c (fun x => k))
  (at level 61, c at next level, right associativity) : gp_scope.

Local Open Scope gp_scope.

Definition next_raw : M Z :=
  fun g => Ok (g 0%nat, fun n => g (S n)).

(** [random.random()]: a float, a multiple of 2^-53 in [0, 1). *)
Definition random_random : M float :=
  k <- next_raw ;;
  ret (PrimFloat.div (PrimFloat.of_uint63 (Uint63.of_Z (k mod 9007199254740992)))
                     9007199254740992%float).

(** [bool(random.getrandbits(1))] *)
Definition getrandbits1 : M bool :=
  k <- next_raw ;;
  ret (k mod 2 =? 1).

(** [random.randint(a, b)]: [ValueError] on an empty range. *)
Definition randint (a b : Z) : M Z :=
  if b <? a then raise ValueError
  else k <- next_raw ;; ret (a + k mod (b - a + 1)).

(** [random.choice(seq)]: [IndexError] on an empty sequence. *)
Definition choice {A : Type} (seq : list A) : M A :=
  match seq with
  | [] => raise IndexError
  | x :: _ =>
      k <- next_raw ;;
      ret (nth (Z.to_nat (k mod Z.of_nat (List.length seq))) seq x)
  end.

(* ================================================================== *)
(** ** Symbols and trees *)

(** [d[key]] on a dict given by its items. *)
Fixpoint dict_get {V : Type} (d : list (string * V)) (key : string) : option V :=
  match d with
  | [] => None
  | (k, v) :: d' => if String.eqb k key then Some v else dict_get d' key
  end.

(** The dict [{"arities": ..., "terminals": ..., "functions": ...}]. *)
Record symbol_table : Type := {
  arities : list (string * nat);
  terminals : list string;
  functions : list string
}.

(** The loop of [get_arities] over [arities.items()]. *)
Definition symbols_of_arities (ar : list (string * nat)) : symbol_table := {|
  arities := ar;
  terminals := map fst (filter (fun kv => Nat.eqb (snd kv) 0) ar);
  functions := map fst (filter (fun kv => negb (Nat.eqb (snd kv) 0)) ar)
|}.

(** The symbols of the run.  The two lists come in the order of the dict's
    items, which Python leaves to the implementation; nothing below depends
    on it. *)
Definition get_arities : symbol_table :=
  symbols_of_arities
    [("1", 0%nat); ("x0", 0%nat); ("x1", 0%nat);
     ("+", 2%nat); ("-", 2%nat); ("*", 2%nat); ("/", 2%nat)].

(** A node [[symbol, child_1, ..., child_n]]. *)
Inductive tree : Type :=
| Node (symbol : string) (children : list tree).

Definition symbol_of (t : tree) : string :=
  match t with Node s _ => s end.

Definition children_of (t : tree) : list tree :=
  match t with Node _ cs => cs end.

(** [len(node)] *)
Definition len (t : tree) : Z := 1 + Z.of_nat (List.length (children_of t)).

(** The arity invariant: every node has as many children as its symbol's
    declared arity. *)
Fixpoint arity_invariant (sy : symbol_table) (t : tree) : bool :=
  match t with
  | Node s cs =>
      match dict_get (arities sy) s with
      | Some a => Nat.eqb (List.length cs) a && forallb (arity_invariant sy) cs
      | None => false
      end
  end.

(* ================================================================== *)
(** ** Growth *)

Definition append_node (node : tree) (symbol : string) : tree :=
  Node (symbol_of node) (children_of node ++ [Node symbol []]).

Definition get_rnd_symbol (depth max_depth : Z) (sy : symbol_table) (full : bool)
  : M string :=
  if max_depth <=? depth then choice (terminals sy)
  else if negb full then
    b <- getrandbits1 ;;
    if b then choice (terminals sy) else choice (functions sy)
  else choice (functions sy).

(** [node[-1] = child]: the last child, appended just before, replaced by
    the grown one (the source grows it in place). *)
Definition set_last (node : tree) (child : tree) : tree :=
  Node (symbol_of node) (removelast (children_of node) ++ [child]).

(** The [for _ in range(arity)] loop of [grow]; [rec] is the recursive call
    on the child one level deeper. *)
Fixpoint grow_loop (rec : tree -> M tree) (pick : M string) (n : nat)
  (node : tree) : M tree :=
  match n with
  | O => ret node
  | S n' =>
      symbol <- pick ;;
      let node1 := append_node node symbol in
      child <- rec (Node symbol []) ;;
      grow_loop rec pick n' (set_last node1 child)
  end.

(** [fuel] bounds the depth of the recursion; running out of it stands for
    Python's recursion limit. *)
Fixpoint grow (fuel : nat) (node : tree) (depth max_depth : Z) (full : bool)
  (sy : symbol_table) : M tree :=
  match fuel with
  | O => raise RecursionError
  | S fuel' =>
      match dict_get (arities sy) (symbol_of node) with
      | None => raise KeyError
      | Some a =>
          grow_loop (fun c => grow fuel' c (depth + 1) max_depth full sy)
                    (get_rnd_symbol depth max_depth sy full) a node
      end
  end.

(* ================================================================== *)
(** ** Tree indexing *)

Fixpoint get_number_of_nodes (node : tree) (cnt : Z) : Z :=
  match node with
  | Node _ cs =>
      fold_left (fun cnt child => get_number_of_nodes child cnt) cs (cnt + 1)
  end.

(** A node object inside a tree is known by where it sits: the child
    positions leading to it from the root.  A reference pairs that place
    with the node's contents. *)
Definition path : Type := list nat.
Definition ref : Type := (path * tree)%type.

Fixpoint subtree_at (t : tree) (p : path) : option tree :=
  match p with
  | [] => Some t
  | i :: p' =>
      match nth_error (children_of t) i with
      | Some c => subtree_at c p'
      | None => None
      end
  end.

Fixpoint update_nth {A : Type} (i : nat) (f : A -> A) (l : list A) : list A :=
  match l, i with
  | [], _ => []
  | x :: l', O => f x :: l'
  | x :: l', S i' => x :: update_nth i' f l'
  end.

(** Overwriting, in place, the contents of the node object at [p]. *)
Fixpoint replace_at (t : tree) (p : path) (new : tree) : tree :=
  match p with
  | [] => new
  | i :: p' =>
      Node (symbol_of t)
           (update_nth i (fun c => replace_at c p' new) (children_of t))
  end.

(** [node[1:]] as references. *)
Definition child_refs (r : ref) : list ref :=
  map (fun ic => (fst r ++ [fst ic], snd ic))
      (combine (seq 0 (List.length (children_of (snd r)))) (children_of (snd r))).

(** The [while cnt < idx] loop of [get_node_at_index], which runs
    [max(idx, 0)] times.  The stack is kept with its top, the end of the
    Python list, first: [pop()] takes the head, and extending by the
    reversed children puts the first child on top. *)
Fixpoint get_node_at_index_loop (n : nat) (unvisited_nodes : list ref)
  (node : ref) : result ref :=
  match n with
  | O => Ok node
  | S n' =>
      match unvisited_nodes with
      | [] => Err IndexError
      | node' :: rest =>
          get_node_at_index_loop n' (child_refs node' ++ rest) node'
      end
  end.

(** The test [len(node) > 0] of the source holds of every node, which
    carries at least its symbol. *)
Definition get_node_at_index (root : tree) (idx : Z) : result ref :=
  get_node_at_index_loop (Z.to_nat idx) [([], root)] ([], root).

Fixpoint get_max_depth (node : tree) (depth max_depth : Z) : Z :=
  let max_depth := if max_depth <? depth then depth else max_depth in
  match node with
  | Node _ cs =>
      fold_left (fun max_depth child => get_max_depth child (depth + 1) max_depth)
                cs max_depth
  end.

(** Returns [(idx_depth, idx)].  As in the source, [idx] is handed down and
    back up but nowhere incremented. *)
Fixpoint get_depth_from_index (node : tree) (idx node_idx depth idx_depth : Z)
  : Z * Z :=
  let idx_depth := if node_idx =? idx then depth else idx_depth in
  match node with
  | Node _ cs =>
      fold_left
        (fun acc child =>
           get_depth_from_index child (snd acc) node_idx (depth + 1) (fst acc))
        cs (idx_depth, idx)
  end.

(** Returns the current index and the updated [root].  On a match the
    source pops the symbol off [root] and inserts the elements of [subtree]
    in front of what is left of it: the old children stay behind the new
    ones. *)
Fixpoint find_and_replace_subtree (root subtree : tree) (node_idx idx : Z)
  : Z * tree :=
  let idx := idx + 1 in
  if node_idx =? idx then
    (idx, Node (symbol_of subtree) (children_of subtree ++ children_of root))
  else
    match root with
    | Node s cs =>
        let r :=
          fold_left
            (fun acc child =>
               let r := find_and_replace_subtree child subtree node_idx (fst acc) in
               (fst r, snd acc ++ [snd r]))
            cs (idx, []) in
        (fst r, Node s (snd r))
    end.

(* ================================================================== *)
(** ** Individuals and run parameters *)

(** The dict [{"genome": ..., "fitness": ...}]. *)
Record Individual : Type := {
  genome : tree;
  fitness : float
}.

Definition DEFAULT_FITNESS : float := (-1000)%float.

(** The [param] dict. *)
Record Params : Type := {
  population_size : Z;
  max_depth : Z;
  elite_size : Z;
  generations : Z;
  tournament_size : Z;
  crossover_probability : float;
  mutation_probability : float;
  symbols : symbol_table;
  fitness_cases : list (list float);
  targets : list float
}.

(** [x in seq] for a list of strings. *)
Definition in_list (x : string) (seq : list string) : bool :=
  existsb (String.eqb x) seq.

(* ================================================================== *)
(** ** Subtree mutation *)

(** [fuel] bounds the recursion depth of [grow]. *)
Definition subtree_mutation (fuel : nat) (individual : Individual) (param : Params)
  : M Individual :=
  let new_genome := genome individual in
  r <- random_random ;;
  if PrimFloat.ltb r (mutation_probability param) then
    let end_node_idx := get_number_of_nodes new_genome 0 - 1 in
    node_idx <- randint 0 end_node_idx ;;
    let node_depth := fst (get_depth_from_index new_genome 0 node_idx 0 0) in
    let max_subtree_depth := max_depth param - node_depth in
    symbol <- get_rnd_symbol max_subtree_depth (max_depth param) (symbols param) false ;;
    new_subtree <-
      (if in_list symbol (functions (symbols param)) then
         full <- getrandbits1 ;;
         grow fuel (Node symbol []) node_depth (max_depth param) full (symbols param)
       else ret (Node symbol [])) ;;
    let new_genome' :=
      snd (find_and_replace_subtree new_genome new_subtree node_idx (-1)) in
    ret {| genome := new_genome'; fitness := DEFAULT_FITNESS |}
  else ret {| genome := new_genome; fitness := DEFAULT_FITNESS |}.

(* ================================================================== *)
(** ** Subtree crossover *)

(** Returns [(idx, nodes)]; [p] is the place of [root] in the tree that is
    searched, so that the collected nodes are references into it. *)
Fixpoint get_nodes_with_equal_arity (p : path) (root : tree) (arity : nat)
  (nodes : list ref) (idx : Z) (arities : list (string * nat))
  : result (Z * list ref) :=
  let idx := idx + 1 in
  match dict_get arities (symbol_of root) with
  | None => Err KeyError
  | Some a =>
      let nodes := if Nat.eqb a arity then nodes ++ [(p, root)] else nodes in
      match root with
      | Node _ cs =>
          (fix loop (i : nat) (cs : list tree) (acc : Z * list ref)
             : result (Z * list ref) :=
             match cs with
             | [] => Ok acc
             | child :: cs' =>
                 acc' <~ get_nodes_with_equal_arity (p ++ [i]) child arity
                           (snd acc) (fst acc) arities ;;
                 loop (S i) cs' acc'
             end) 0%nat cs (idx, nodes)
      end
  end.

(** [replace_subtree(new_subtree, old_subtree)] empties the list object
    [old_subtree] and fills it with deep copies of the elements of
    [new_subtree], in their order: the node at [old] of [t] gets the
    contents of [new_subtree].  The source also leaves [new_subtree]
    reversed; in [subtree_crossover] that object is either overwritten by
    the next call or a temporary copy. *)
Definition replace_subtree (new_subtree : tree) (t : tree) (old : path) : tree :=
  replace_at t old new_subtree.

Definition subtree_crossover (parent1 parent2 : Individual) (param : Params)
  : M (Individual * Individual) :=
  let offspring_0 := genome parent1 in
  let offspring_1 := genome parent2 in
  let offsprings g0 g1 :=
    ({| genome := g0; fitness := DEFAULT_FITNESS |},
     {| genome := g1; fitness := DEFAULT_FITNESS |}) in
  r <- random_random ;;
  if PrimFloat.ltb r (crossover_probability param)
     && (1 <? len offspring_0) && (0 <? len offspring_0) then
    node_idx <- randint 0 (get_number_of_nodes offspring_0 0 - 1) ;;
    offspring_0_node <- lift (get_node_at_index offspring_0 node_idx) ;;
    let crossover_point_symbol := symbol_of (snd offspring_0_node) in
    if in_list crossover_point_symbol (functions (symbols param)) then
      arity <- lift (match dict_get (arities (symbols param)) crossover_point_symbol with
                     | Some a => Ok a
                     | None => Err KeyError
                     end) ;;
      r <- lift (get_nodes_with_equal_arity [] offspring_1 arity [] (-1)
                   (arities (symbols param))) ;;
      let possible_nodes := snd r in
      match possible_nodes with
      | [] => ret (offsprings offspring_0 offspring_1)
      | _ :: _ =>
          offspring_1_node <- choice possible_nodes ;;
          let tmp_offspring_1_node := snd offspring_1_node in
          let offspring_1' :=
            replace_subtree (snd offspring_0_node) offspring_1 (fst offspring_1_node) in
          let offspring_0' :=
            replace_subtree tmp_offspring_1_node offspring_0 (fst offspring_0_node) in
          ret (offsprings offspring_0' offspring_1')
      end
    else ret (offsprings offspring_0 offspring_1)
  else ret (offsprings offspring_0 offspring_1).

(* ================================================================== *)
(** ** The builtins [int], [float], indexing and float division *)

Definition is_space (c : ascii) : bool :=
  let n := nat_of_ascii c in
  Nat.eqb n 32 || (Nat.leb 9 n && Nat.leb n 13).

Fixpoint lstrip (l : list ascii) : list ascii :=
  match l with
  | c :: l' => if is_space c then lstrip l' else l
  | [] => []
  end.

Definition strip (l : list ascii) : list ascii :=
  rev (lstrip (rev (lstrip l))).

Definition digit_of (c : ascii) : option Z :=
  let n := Z.of_nat (nat_of_ascii c) in
  if (48 <=? n) && (n <=? 57) then Some (n - 48) else None.

Fixpoint digits_value (acc : Z) (l : list ascii) : option Z :=
  match l with
  | [] => Some acc
  | c :: l' =>
      match digit_of c with
      | Some d => digits_value (10 * acc + d) l'
      | None => None
      end
  end.

Definition split_sign (l : list ascii) : bool * list ascii :=
  match l with
  | "-"%char :: r => (true, r)
  | "+"%char :: r => (false, r)
  | _ => (false, l)
  end.

(** [int(s)] for a decimal string: surrounding white space, an optional
    sign, at least one digit; [ValueError] otherwise. *)
Definition py_int (s : string) : result Z :=
  let (negative, body) := split_sign (strip (list_ascii_of_string s)) in
  match body with
  | [] => Err ValueError
  | _ :: _ =>
      match digits_value 0 body with
      | Some v => Ok (if negative then - v else v)
      | None => Err ValueError
      end
  end.

(** The float of a non-negative integer, exact below [2^53]. *)
Definition float_of_Z (z : Z) : float := PrimFloat.of_uint63 (Uint63.of_Z z).

Fixpoint split_at_dot (l : list ascii) : list ascii * option (list ascii) :=
  match l with
  | [] => ([], None)
  | c :: l' =>
      if Ascii.eqb c "."%char then ([], Some l')
      else let (a, b) := split_at_dot l' in (c :: a, b)
  end.

(** [float(s)] for a plain decimal literal: surrounding white space, an
    optional sign, digits with an optional fractional part.  With at most
    15 digits the mantissa and the power of ten are exact floats and their
    correctly rounded quotient is the float Python returns.  Exponents,
    longer literals and the names [inf] and [nan] are left out of the model
    and answer [ValueError] like any unparsable string. *)
Definition py_float (s : string) : result float :=
  let (negative, body) := split_sign (strip (list_ascii_of_string s)) in
  let (int_part, frac) := split_at_dot body in
  let frac_part := match frac with Some f => f | None => [] end in
  let digits := int_part ++ frac_part in
  match digits with
  | [] => Err ValueError
  | _ :: _ =>
      if Nat.leb (List.length digits) 15 then
        match digits_value 0 digits with
        | Some m =>
            let v := PrimFloat.div (float_of_Z m)
                       (float_of_Z (10 ^ Z.of_nat (List.length frac_part))) in
            Ok (if negative then PrimFloat.opp v else v)
        | None => Err ValueError
        end
      else Err ValueError
  end.

(** [seq[i]] with Python's negative indices. *)
Definition index {A : Type} (seq : list A) (i : Z) : result A :=
  let n := Z.of_nat (List.length seq) in
  let j := if i <? 0 then i + n else i in
  if (j <? 0) || (n <=? j) then Err IndexError
  else match nth_error seq (Z.to_nat j) with
       | Some x => Ok x
       | None => Err IndexError
       end.

(** [seq[:k]] *)
Definition slice_to {A : Type} (seq : list A) (k : Z) : list A :=
  if k <? 0 then firstn (Z.to_nat (Z.of_nat (List.length seq) + k)) seq
  else firstn (Z.to_nat k) seq.

(** [seq[k:]] *)
Definition slice_from {A : Type} (seq : list A) (k : Z) : list A :=
  if k <? 0 then skipn (Z.to_nat (Z.of_nat (List.length seq) + k)) seq
  else skipn (Z.to_nat k) seq.

(** [x / y] on floats: Python raises when the divisor compares equal to
    zero. *)
Definition py_div (x y : float) : result float :=
  if PrimFloat.eqb y 0%float then Err ZeroDivisionError
  else Ok (PrimFloat.div x y).

(** What [int(math.floor(x))] raises: [ValueError] on a NaN and
    [OverflowError] on an infinity. *)
Inductive floor_exn : Type :=
  | FloorValueError
  | FloorOverflowError.

(** [int(math.floor(x))]: the largest integer that is not above [x]. *)
Definition py_floor (x : float) : Z + floor_exn :=
  match Prim2SF x with
  | S754_nan => inr FloorValueError
  | S754_infinity _ => inr FloorOverflowError
  | S754_zero _ => inl 0
  | S754_finite s m e =>
      let v := if s then Z.neg m else Z.pos m in
      inl (if 0 <=? e then v * 2 ^ e else v / 2 ^ (- e))
  end.

(* ================================================================== *)
(** ** Evaluation *)

(** [node[1]] and [node[2]], each evaluated right after it is fetched. *)
Definition eval_children (ev : tree -> result float) (cs : list tree)
  (k : float -> float -> result float) : result float :=
  match cs with
  | [] => Err IndexError
  | c1 :: cs' =>
      a <~ ev c1 ;;
      match cs' with
      | [] => Err IndexError
      | c2 :: _ => b <~ ev c2 ;; k a b
      end
  end.

(** The literal [0.00001]: the binary64 value nearest to it. *)
Definition small : float := 0x1.4f8b588e368f1p-17%float.

Definition protected_divide (numerator denominator : float) : result float :=
  let denominator :=
    if PrimFloat.ltb (PrimFloat.abs denominator) small
    then 1%float else denominator in
  py_div numerator denominator.

Fixpoint evaluate (node : tree) (case : list float) : result float :=
  match node with
  | Node symbol cs =>
      if String.eqb symbol "+" then
        eval_children (fun c => evaluate c case) cs
          (fun a b => Ok (PrimFloat.add a b))
      else if String.eqb symbol "-" then
        eval_children (fun c => evaluate c case) cs
          (fun a b => Ok (PrimFloat.sub a b))
      else if String.eqb symbol "*" then
        eval_children (fun c => evaluate c case) cs
          (fun a b => Ok (PrimFloat.mul a b))
      else if String.eqb symbol "/" then
        eval_children (fun c => evaluate c case) cs protected_divide
      else if String.prefix "x" symbol then
        i <~ py_int (String.substring 1 (String.length symbol - 1) symbol) ;;
        index case i
      else py_float symbol
  end.

(** The loop of [evaluate_individual] over [zip(fitness_cases, targets)]. *)
Fixpoint sum_squared_errors (genome : tree) (cases : list (list float * float))
  (fitness : float) : result float :=
  match cases with
  | [] => Ok fitness
  | (case, target) :: rest =>
      output <~ evaluate genome case ;;
      let error := PrimFloat.sub output target in
      sum_squared_errors genome rest
        (PrimFloat.add fitness (PrimFloat.mul error error))
  end.

(** [evaluate_individual] updates the individual it is given: the outcome
    is paired with the individual as it is left behind.  An exception
    leaves it as it was. *)
Definition evaluate_individual (individual : Individual)
  (fitness_cases : list (list float)) (targets : list float)
  : result unit * Individual :=
  let r :=
    fitness <~ sum_squared_errors (genome individual)
                 (combine fitness_cases targets) 0%float ;;
    py_div (PrimFloat.opp fitness)
           (float_of_Z (Z.of_nat (List.length targets))) in
  match r with
  | Ok f => (Ok tt, {| genome := genome individual; fitness := f |})
  | Err e => (Err e, individual)
  end.

(** Lists of individuals are updated one after the other; the first
    exception stops the loop. *)
Fixpoint evaluate_fitness (individuals : list Individual) (param : Params)
  : result (list Individual) :=
  match individuals with
  | [] => Ok []
  | ind :: rest =>
      match evaluate_individual ind (fitness_cases param) (targets param) with
      | (Ok _, ind') => rest' <~ evaluate_fitness rest param ;; Ok (ind' :: rest')
      | (Err e, _) => Err e
      end
  end.

(* ================================================================== *)
(** ** Ranking, selection and replacement *)

(** [sorted(individuals, key=fitness)]: Python's sort is stable and
    compares keys with [<]; it is modelled by the stable insertion sort,
    which orders consistently comparing keys the same way.  Where a key is
    a NaN, [<] is no order and the two may arrange a list differently:
    what is proved of the order either excludes NaN or is about a list
    that both leave as it is. *)
Fixpoint insert_by_fitness (x : Individual) (l : list Individual)
  : list Individual :=
  match l with
  | [] => [x]
  | y :: l' =>
      if PrimFloat.ltb (fitness y) (fitness x)
      then y :: insert_by_fitness x l'
      else x :: l
  end.

Fixpoint sorted_by_fitness (l : list Individual) : list Individual :=
  match l with
  | [] => []
  | x :: l' => insert_by_fitness x (sorted_by_fitness l')
  end.

Definition sort_population (individuals : list Individual) : list Individual :=
  rev (sorted_by_fitness individuals).

Fixpoint remove_nth {A : Type} (i : nat) (l : list A) : list A :=
  match l, i with
  | [], _ => []
  | _ :: l', O => l'
  | x :: l', S i' => x :: remove_nth i' l'
  end.

(** Drawing [k] times from what is left of the pool. *)
Fixpoint sample_loop {A : Type} (k : nat) (pool : list A) : M (list A) :=
  match k with
  | O => ret []
  | S k' =>
      match pool with
      | [] => raise ValueError
      | x :: _ =>
          r <- next_raw ;;
          let j := Z.to_nat (r mod Z.of_nat (List.length pool)) in
          rest <- sample_loop k' (remove_nth j pool) ;;
          ret (nth j pool x :: rest)
      end
  end.

(** [random.sample(population, k)]: [k] elements at distinct positions,
    [ValueError] when [k] is negative or larger than the population. *)
Definition sample {A : Type} (population : list A) (k : Z) : M (list A) :=
  if (k <? 0) || (Z.of_nat (List.length population) <? k) then raise ValueError
  else sample_loop (Z.to_nat k) population.

(** The [while len(winners) < population_size] loop: every round appends
    one winner, so [n] counts the rounds left. *)
Fixpoint tournament_loop (n : nat) (population : list Individual)
  (param : Params) (winners : list Individual) : M (list Individual) :=
  match n with
  | O => ret winners
  | S n' =>
      competitors <- sample population (tournament_size param) ;;
      let competitors := sort_population competitors in
      best <- lift (index competitors 0) ;;
      tournament_loop n' population param (winners ++ [best])
  end.

Definition tournament_selection (population : list Individual) (param : Params)
  : M (list Individual) :=
  tournament_loop (Z.to_nat (population_size param)) population param [].

Definition generational_replacement (new_population old_population : list Individual)
  (param : Params) : list Individual :=
  let old_population := sort_population old_population in
  let new_population :=
    new_population ++ slice_to old_population (elite_size param) in
  let new_population := sort_population new_population in
  slice_to new_population (population_size param).

(* ================================================================== *)
(** ** The search loop *)

(** The [while len(new_population) < population_size] loop.  Every round
    appends two children, so [population_size] rounds are always enough
    and the budget [n] is never used up. *)
Fixpoint crossover_loop (n : nat) (parents : list Individual) (param : Params)
  (new_population : list Individual) : M (list Individual) :=
  if Z.of_nat (List.length new_population) <? population_size param then
    match n with
    | O => raise RecursionError
    | S n' =>
        _parents <- sample parents 2 ;;
        parent0 <- lift (index _parents 0) ;;
        parent1 <- lift (index _parents 1) ;;
        children <- subtree_crossover parent0 parent1 param ;;
        crossover_loop n' parents param
          (new_population ++ [fst children; snd children])
    end
  else ret new_population.

(** [new_population[i] = subtree_mutation(new_population[i], param)] for
    every [i]. *)
Fixpoint mutation_loop (fuel : nat) (new_population : list Individual)
  (param : Params) : M (list Individual) :=
  match new_population with
  | [] => ret []
  | ind :: rest =>
      ind' <- subtree_mutation fuel ind param ;;
      rest' <- mutation_loop fuel rest param ;;
      ret (ind' :: rest')
  end.

(** One round of the generation loop of [search_loop], from selection to
    replacement.  The printing of statistics that follows it in the source
    reads the population and is left out. *)
Definition generation (fuel : nat) (population : list Individual) (param : Params)
  : M (list Individual) :=
  parents <- tournament_selection population param ;;
  new_population <-
    crossover_loop (Z.to_nat (population_size param)) parents param [] ;;
  let new_population := slice_to new_population (population_size param) in
  new_population <- mutation_loop fuel new_population param ;;
  new_population <- lift (evaluate_fitness new_population param) ;;
  ret (generational_replacement new_population population param).

(** The [while generation < generations] loop; [best_ever] is [None] until
    the first round is over.  Between the round and the pick of the best
    the source prints statistics, which reads the population and can raise
    (on an empty population, on a deviation whose square overflows); that
    call is left out, so the loop stands for the search up to such an
    exception. *)
Fixpoint generation_loop (n : nat) (fuel : nat) (population : list Individual)
  (param : Params) (best_ever : option Individual) : M (option Individual) :=
  match n with
  | O => ret best_ever
  | S n' =>
      population <- generation fuel population param ;;
      best <- lift (index population 0) ;;
      generation_loop n' fuel population param (Some best)
  end.

Definition search_loop (fuel : nat) (population : list Individual) (param : Params)
  : M (option Individual) :=
  population <- lift (evaluate_fitness population param) ;;
  generation_loop (Z.to_nat (generations param)) fuel population param None.

(* ================================================================== *)
(** ** Initialisation and the run *)

(** The [for i in range(population_size)] loop of [initialize_population]:
    ramped half-half.  [i % max_depth] raises on a zero [max_depth]. *)
Fixpoint initialize_loop (fuel n : nat) (i : Z) (param : Params)
  (individuals : list Individual) : M (list Individual) :=
  match n with
  | O => ret individuals
  | S n' =>
      full <- getrandbits1 ;;
      if max_depth param =? 0 then raise ZeroDivisionError
      else
        let max_depth_i := i mod max_depth param + 1 in
        symbol <- get_rnd_symbol 1 max_depth_i (symbols param) false ;;
        tree <-
          (if (0 <? max_depth_i) && in_list symbol (functions (symbols param))
           then grow fuel (Node symbol []) 1 max_depth_i full (symbols param)
           else ret (Node symbol [])) ;;
        initialize_loop fuel n' (i + 1) param
          (individuals ++ [{| genome := tree; fitness := DEFAULT_FITNESS |}])
  end.

Definition initialize_population (fuel : nat) (param : Params)
  : M (list Individual) :=
  initialize_loop fuel (Z.to_nat (population_size param)) 0 param [].

Definition run (fuel : nat) (param : Params) : M (option Individual) :=
  population <- initialize_population fuel param ;;
  search_loop fuel population param.

(* ================================================================== *)
(** ** Test and training data *)

(** The split of [get_test_and_train_data], from the exemplars that
    [parse_exemplars] read from the file: the test data first, then the
    training data. *)
Definition get_test_and_train_data
  (exemplars : list (list float) * list float) (test_train_split : float)
  : (list (list float) * list float) * (list (list float) * list float)
    + floor_exn :=
  let (fitness_cases, targets) := exemplars in
  match py_floor (PrimFloat.mul (float_of_Z (Z.of_nat (List.length fitness_cases)))
                    test_train_split) with
  | inr e => inr e
  | inl split_idx =>
      let training_cases := slice_to fitness_cases split_idx in
      let test_cases := slice_from fitness_cases split_idx in
      let training_targets := slice_to targets split_idx in
      let test_targets := slice_from targets split_idx in
      inl ((test_cases, test_targets), (training_cases, training_targets))
  end.

(* ================================================================== *)
(** ** Evaluation on the store

    In the source a genome is a list of lists that variation updates in
    place, a fitness case is a list, and [evaluate_individual] updates the
    dict it is given.  Here these objects live in a store and are reached
    by reference, and every operation passes the store on, so that what
    evaluation leaves of them is a property of the code and not of its
    type. *)

Module Store.

Definition addr : Type := nat.

(** The list [[symbol, child_1, ..., child_n]], the children by
    reference. *)
Record node_object : Type := {
  node_symbol : string;
  node_children : list addr
}.

(** The dict [{"genome": ..., "fitness": ...}]. *)
Record individual_object : Type := {
  genome_ref : addr;
  fitness_value : float
}.

(** Every address holds an object of its kind: the lists that are nodes,
    the lists of floats that are fitness cases, and the individuals. *)
Record store : Type := {
  node_at : addr -> node_object;
  case_at : addr -> list float;
  individual_at : addr -> individual_object
}.

(** A computation on the store; an exception leaves a store behind as
    well. *)
Definition ST (A : Type) : Type := store -> result A * store.

Definition ret {A : Type} (a : A) : ST A := fun s => (Ok a, s).

Definition raise {A : Type} (e : exn) : ST A := fun s => (Err e, s).

Definition bind {A B : Type} (c : ST A) (k : A -> ST B) : ST B :=
  fun s =>
    match c s with
    | (Ok a, s') => k a s'
    | (Err e, s') => (Err e, s')
    end.

Definition lift {A : Type} (r : result A) : ST A := fun s => (r, s).

Declare Scope store_scope.

Notation "x <- c ;; k" := (bind c (fun x => k))
  (at level 61, c at next level, right associativity) : store_scope.

Local Open Scope store_scope.

(** [node[0]] *)
Definition get_symbol (node : addr) : ST string :=
  fun s => (Ok (node_symbol (node_at s node)), s).

(** [node[i + 1]], the child at position [i]. *)
Definition get_child (node : addr) (i : nat) : ST addr :=
  fun s =>
    match nth_error (node_children (node_at s node)) i with
    | Some c => (Ok c, s)
    | None => (Err IndexError, s)
    end.

(** [case[i]] *)
Definition get_value (case : addr) (i : Z) : ST float :=
  fun s => (index (case_at s case) i, s).

(** [individual["genome"]] *)
Definition get_genome (individual : addr) : ST addr :=
  fun s => (Ok (genome_ref (individual_at s individual)), s).

(** [individual["fitness"] = f] *)
Definition set_fitness (individual : addr) (f : float) : ST unit :=
  fun s =>
    (Ok tt,
     {| node_at := node_at s;
        case_at := case_at s;
        individual_at := fun j =>
          if Nat.eqb j individual
          then {| genome_ref := genome_ref (individual_at s j);
                  fitness_value := f |}
          else individual_at s j |}).

(** [node[1]] and [node[2]], each fetched from the store as it is by then
    and evaluated right away. *)
Definition eval_children (ev : addr -> ST float) (node : addr)
  (k : float -> float -> result float) : ST float :=
  c1 <- get_child node 0 ;;
  a <- ev c1 ;;
  c2 <- get_child node 1 ;;
  b <- ev c2 ;;
  lift (k a b).

(** [fuel] bounds the depth of the recursion, which on a store need not
    end. *)
Fixpoint evaluate (fuel : nat) (node case : addr) : ST float :=
  match fuel with
  | O => raise RecursionError
  | S fuel' =>
      symbol <- get_symbol node ;;
      if String.eqb symbol "+" then
        eval_children (fun c => evaluate fuel' c case) node
          (fun a b => Ok (PrimFloat.add a b))
      else if String.eqb symbol "-" then
        eval_children (fun c => evaluate fuel' c case) node
          (fun a b => Ok (PrimFloat.sub a b))
      else if String.eqb symbol "*" then
        eval_children (fun c => evaluate fuel' c case) node
          (fun a b => Ok (PrimFloat.mul a b))
      else if String.eqb symbol "/" then
        eval_children (fun c => evaluate fuel' c case) node protected_divide
      else if String.prefix "x" symbol then
        i <- lift (py_int (String.substring 1 (String.length symbol - 1) symbol)) ;;
        get_value case i
      else lift (py_float symbol)
  end.

(** The loop of [evaluate_individual] over [zip(fitness_cases, targets)];
    the genome is looked up in the individual at every round. *)
Fixpoint sum_squared_errors (fuel : nat) (individual : addr)
  (cases : list (addr * float)) (fitness : float) : ST float :=
  match cases with
  | [] => ret fitness
  | (case, target) :: rest =>
      genome <- get_genome individual ;;
      output <- evaluate fuel genome case ;;
      let error := PrimFloat.sub output target in
      sum_squared_errors fuel individual rest
        (PrimFloat.add fitness (PrimFloat.mul error error))
  end.

Definition evaluate_individual (fuel : nat) (individual : addr)
  (fitness_cases : list addr) (targets : list float) : ST unit :=
  fitness <- sum_squared_errors fuel individual
               (combine fitness_cases targets) 0%float ;;
  f <- lift (py_div (PrimFloat.opp fitness)
               (float_of_Z (Z.of_nat (List.length targets)))) ;;
  set_fitness individual f.

End Store.

(* ================================================================== *)
(** * Specification vocabulary

    Independent measures of trees, the invariants of the data model and
    the running examples that the properties below are stated with. *)

(** An independent recursive depth: a leaf has height 0. *)
Fixpoint height (t : tree) : nat :=
  match t with
  | Node _ cs => fold_right (fun c h => Nat.max (S (height c)) h) 0%nat cs
  end.

(** An independent pre-order, depth-first, left-to-right traversal, each
    node paired with its depth. *)
Fixpoint preorder (depth : Z) (t : tree) : list (tree * Z) :=
  match t with
  | Node _ cs => (t, depth) :: flat_map (preorder (depth + 1)) cs
  end.

(** Induction on trees, with the property at hand for every child. *)
Section TreeInduction.
Variable P : tree -> Prop.
Hypothesis P_Node : forall s cs, Forall P cs -> P (Node s cs).

Fixpoint tree_forall_ind (t : tree) : P t :=
  match t with
  | Node s cs =>
      P_Node s cs
        ((fix all (l : list tree) : Forall P l :=
            match l with
            | [] => Forall_nil P
            | c :: l' => Forall_cons c (tree_forall_ind c) (all l')
            end) cs)
  end.
End TreeInduction.

(** What [get_arities] establishes: the terminals are the symbols of arity
    0, the functions are the symbols of any other arity, and there is a
    terminal to pick. *)
Record wf_symbols (sy : symbol_table) : Prop := {
  wf_terminals :
    forall s, In s (terminals sy) <-> dict_get (arities sy) s = Some 0%nat;
  wf_functions :
    forall s, In s (functions sy) <->
              exists a, dict_get (arities sy) s = Some a /\ a <> 0%nat;
  wf_some_terminal : terminals sy <> []
}.

(** What [grow] adds below a node: as many children as the symbol's arity,
    each satisfying the arity invariant and no higher than the depth that
    is left. *)
Definition grown (sy : symbol_table) (budget : Z) (c : tree) : Prop :=
  arity_invariant sy c = true /\ Z.of_nat (height c) <= Z.max 0 budget.

(** What is due of an individual of the initial population: the arity
    invariant, and a depth within [max_depth]. *)
Definition initial_ok (param : Params) (ind : Individual) : Prop :=
  arity_invariant (symbols param) (genome ind) = true /\
  get_max_depth (genome ind) 0 0 <= max_depth param.

(** An independent node count. *)
Fixpoint size (t : tree) : nat :=
  match t with
  | Node _ cs => S (fold_right (fun c n => (size c + n)%nat) 0%nat cs)
  end.

(** [["+", ["x0"], ["x1"]]] *)
Definition sum_tree : tree := Node "+" [Node "x0" []; Node "x1" []].

(** [["+", ["*", ["x0"], ["1"]], ["x1"]]] *)
Definition nested_tree : tree :=
  Node "+" [Node "*" [Node "x0" []; Node "1" []]; Node "x1" []].

(** A small run configuration over the symbols of [get_arities]. *)
Definition example_param : Params := {|
  population_size := 4;
  max_depth := 2;
  elite_size := 1;
  generations := 1;
  tournament_size := 2;
  crossover_probability := 1%float;
  mutation_probability := 1%float;
  symbols := get_arities;
  fitness_cases := [[1%float; 2%float]];
  targets := [3%float]
|}.

Definition example_individual (t : tree) : Individual :=
  {| genome := t; fitness := DEFAULT_FITNESS |}.

(** The references of [child_refs], from a given first position. *)
Fixpoint number_children (p : path) (i : nat) (cs : list tree) : list ref :=
  match cs with
  | [] => []
  | c :: cs' => (p ++ [i], c) :: number_children p (S i) cs'
  end.

(** The pre-order traversal of the subtree at [p], as references. *)
Fixpoint preorder_refs (p : path) (t : tree) : list ref :=
  match t with
  | Node _ cs =>
      (p, t) ::
      (fix go (i : nat) (cs : list tree) : list ref :=
         match cs with
         | [] => []
         | c :: cs' => preorder_refs (p ++ [i]) c ++ go (S i) cs'
         end) 0%nat cs
  end.

(** What a stack of unvisited nodes still has to visit, in order. *)
Definition pending (stack : list ref) : list ref :=
  flat_map (fun r => preorder_refs (fst r) (snd r)) stack.

(** Every reference of the traversal points at its node. *)
Definition valid_ref (root : tree) (r : ref) : Prop :=
  subtree_at root (fst r) = Some (snd r).

(** The two offspring are the copies of the parents, fitness reset. *)
Definition crossover_unchanged (parent1 parent2 : Individual) (param : Params)
  (g : rng) : Prop :=
  exists g',
    subtree_crossover parent1 parent2 param g
    = Ok (({| genome := genome parent1; fitness := DEFAULT_FITNESS |},
           {| genome := genome parent2; fitness := DEFAULT_FITNESS |}), g').

(** The exponent of the canonical binary64 representation of a number
    with most significant bit at [e]. *)
Definition fexp64 (e : Z) : Z := Z.max (e - 53) (-1074).

(** [below x y]: the fitness of [x] is less than that of [y], the
    comparison [sorted] makes on the keys. *)
Definition below (x y : Individual) : bool :=
  PrimFloat.ltb (fitness x) (fitness y).

(** What sorting by fitness and "the best fitness" presuppose of the
    fitness values at hand: never both [x < y] and [y < x], and
    [x >= y >= z] gives [x >= z]. *)
Record weak_order_on (l : list Individual) : Prop := {
  below_asym :
    forall a b, In a l -> In b l -> below a b = true -> below b a = false;
  below_ntrans :
    forall a b c, In a l -> In b l -> In c l ->
                  below a b = false -> below b c = false -> below a c = false
}.

(** Floats other than NaN compare as their keys do: sign class first, then
    exponent and mantissa, reversed for negative numbers. *)
Definition key (s : spec_float) : Z * Z * Z :=
  match s with
  | S754_nan => (0, 0, 0)
  | S754_zero _ => (0, 0, 0)
  | S754_infinity true => (-2, 0, 0)
  | S754_infinity false => (2, 0, 0)
  | S754_finite true m e => (-1, - e, - Zpos m)
  | S754_finite false m e => (1, e, Zpos m)
  end.

(** The lexicographic order of keys. *)
Definition key_lt (k1 k2 : Z * Z * Z) : Prop :=
  fst (fst k1) < fst (fst k2) \/
  (fst (fst k1) = fst (fst k2) /\
   (snd (fst k1) < snd (fst k2) \/
    (snd (fst k1) = snd (fst k2) /\ snd k1 < snd k2))).

(** No fitness of the population is a NaN. *)
Definition nan_free (l : list Individual) : Prop :=
  forall x, In x l -> PrimFloat.is_nan (fitness x) = false.

(** Ascending: nothing later in the list is below something earlier. *)
Definition ascending : list Individual -> Prop :=
  StronglySorted (fun x y => below y x = false).

Definition with_fitness (f : float) : Individual :=
  {| genome := sum_tree; fitness := f |}.

(** The depth of the node visited last in pre-order: down the last child
    at every level. *)
Fixpoint last_depth (depth : Z) (t : tree) : Z :=
  match t with
  | Node _ cs => fold_left (fun _ c => last_depth (depth + 1) c) cs depth
  end.

(** Every symbol of the tree is a key of the arities. *)
Fixpoint all_declared (ar : list (string * nat)) (t : tree) : bool :=
  match t with
  | Node s cs =>
      match dict_get ar s with
      | Some _ => forallb (all_declared ar) cs
      | None => false
      end
  end.

(** The symbol of the referenced node is declared with the given arity. *)
Definition has_arity (ar : list (string * nat)) (arity : nat) (r : ref) : bool :=
  match dict_get ar (symbol_of (snd r)) with
  | Some a => Nat.eqb a arity
  | None => false
  end.

(** The number of nodes of a list of trees. *)
Definition sizes (l : list tree) : nat :=
  fold_right (fun c n => (size c + n)%nat) 0%nat l.

(** The pre-order traversal of a list of sibling subtrees, the first of
    them being child [i] of the node at [p]. *)
Fixpoint forest_refs (p : path) (i : nat) (cs : list tree) : list ref :=
  match cs with
  | [] => []
  | c :: cs' => preorder_refs (p ++ [i]) c ++ forest_refs p (S i) cs'
  end.

(** What [find_and_replace_subtree] leaves at the node it matches: the new
    symbol, the new children, and behind them the children that were
    there. *)
Definition spliced (subtree old : tree) : tree :=
  Node (symbol_of subtree) (children_of subtree ++ children_of old).

(** The genome of [nested_tree] after a mutation at its root. *)
Definition mutated_nested_tree : tree :=
  Node "+" [Node "+" [Node "1" []; Node "1" []];
            Node "+" [Node "1" []; Node "1" []];
            Node "*" [Node "x0" []; Node "1" []];
            Node "x1" []].

(** One round of the loop of [find_and_replace_subtree] over the children:
    the index so far and the children already gone through. *)
Definition replace_step (subtree : tree) (node_idx : Z)
  (acc : Z * list tree) (child : tree) : Z * list tree :=
  let r := find_and_replace_subtree child subtree node_idx (fst acc) in
  (fst r, snd acc ++ [snd r]).

(** How [find_and_replace_subtree] treats the relative position
    [node_idx - (idx + 1)] of the node sought, in the traversal that starts
    at the current node: outside of the subtree nothing changes and the
    index advances by its size; inside, the node at that position is
    spliced. *)
Definition replaces_at_position (subtree : tree) (node_idx : Z) (root : tree)
  : Prop :=
  forall p idx,
    (node_idx - (idx + 1) < 0 \/ Z.of_nat (size root) <= node_idx - (idx + 1) ->
     find_and_replace_subtree root subtree node_idx idx
     = (idx + Z.of_nat (size root), root)) /\
    (0 <= node_idx - (idx + 1) < Z.of_nat (size root) ->
     exists q old,
       nth_error (preorder_refs p root) (Z.to_nat (node_idx - (idx + 1)))
       = Some (p ++ q, old) /\
       node_idx <= fst (find_and_replace_subtree root subtree node_idx idx) /\
       snd (find_and_replace_subtree root subtree node_idx idx)
       = replace_at root q (spliced subtree old)).

(** Descending: nothing later in the list is above something earlier. *)
Definition descending : list Individual -> Prop :=
  StronglySorted (fun x y => below x y = false).

(** [w] won a tournament of [k] competitors drawn at distinct positions of
    the population: it is one of them and none of them is above it. *)
Definition tournament_winner (population : list Individual) (k : Z)
  (w : Individual) : Prop :=
  exists competitors rest,
    Permutation (competitors ++ rest) population /\
    Z.of_nat (List.length competitors) = k /\
    In w competitors /\
    forall x, In x competitors -> below w x = false.

(** A population of two, the worse individual first. *)
Definition example_population : list Individual :=
  [with_fitness (-3)%float; with_fitness (-1)%float].

(** The configuration of [example_param] with a population of one. *)
Definition single_param : Params := {|
  population_size := 1;
  max_depth := 2;
  elite_size := 1;
  generations := 1;
  tournament_size := 2;
  crossover_probability := 1%float;
  mutation_probability := 1%float;
  symbols := get_arities;
  fitness_cases := [[1%float; 2%float]];
  targets := [3%float]
|}.


(** What ramped initialisation makes of the individual at position [i]:
    the default fitness, the arity invariant, a depth within the ramp
    [i % max_depth + 1], and a single node where the ramp starts over. *)
Definition ramped_ok (param : Params) (i : nat) (ind : Individual) : Prop :=
  fitness ind = DEFAULT_FITNESS /\
  arity_invariant (symbols param) (genome ind) = true /\
  get_max_depth (genome ind) 0 0 <= Z.of_nat i mod max_depth param + 1 /\
  (Z.of_nat i mod max_depth param = 0 -> children_of (genome ind) = []).

(** Three exemplars of [x0 + x1]. *)
Definition example_exemplars : list (list float) * list float :=
  ([[1%float; 2%float]; [3%float; 4%float]; [5%float; 6%float]],
   [3%float; 7%float; 11%float]).

(** Their split at [0.7]: two exemplars to train on, one to test on. *)
Definition example_training : list (list float) * list float :=
  ([[1%float; 2%float]; [3%float; 4%float]], [3%float; 7%float]).

Definition example_test : list (list float) * list float :=
  ([[5%float; 6%float]], [11%float]).

(** The invariant that variation keeps: every node has at least as many
    children as its symbol's declared arity.  It is what evaluation needs,
    and what is left of the arity invariant once [find_and_replace_subtree]
    has kept old children behind new ones. *)
Fixpoint enough_children (sy : symbol_table) (t : tree) : bool :=
  match t with
  | Node s cs =>
      match dict_get (arities sy) s with
      | Some a => Nat.leb a (List.length cs) && forallb (enough_children sy) cs
      | None => false
      end
  end.

(** An individual whose genome has enough children at every node. *)
Definition evaluable (param : Params) (ind : Individual) : Prop :=
  enough_children (symbols param) (genome ind) = true.

(** The store holds the tree [t] at the address [a]: the symbol there is
    the tree's, and the children there hold the tree's children, one by
    one. *)
Fixpoint represents (s : Store.store) (a : Store.addr) (t : tree) : Prop :=
  match t with
  | Node symbol cs =>
      Store.node_symbol (Store.node_at s a) = symbol /\
      (fix all (refs : list Store.addr) (cs : list tree) {struct cs} : Prop :=
         match cs with
         | [] => match refs with [] => True | _ :: _ => False end
         | c :: cs' =>
             match refs with
             | [] => False
             | r :: refs' => represents s r c /\ all refs' cs'
             end
         end) (Store.node_children (Store.node_at s a)) cs
  end.

(** The children at [refs] hold the trees [cs], one by one. *)
Fixpoint represents_all (s : Store.store) (refs : list Store.addr)
  (cs : list tree) : Prop :=
  match cs with
  | [] => match refs with [] => True | _ :: _ => False end
  | c :: cs' =>
      match refs with
      | [] => False
      | r :: refs' => represents s r c /\ represents_all s refs' cs'
      end
  end.

(** A store that holds [nested_tree] at address 0, the fitness case
    [[1.0, 2.0]] at address 0, and individuals whose genome is that
    tree. *)
Definition example_store : Store.store := {|
  Store.node_at := fun a =>
    match a with
    | 0%nat => {| Store.node_symbol := "+"; Store.node_children := [1%nat; 4%nat] |}
    | 1%nat => {| Store.node_symbol := "*"; Store.node_children := [2%nat; 3%nat] |}
    | 2%nat => {| Store.node_symbol := "x0"; Store.node_children := [] |}
    | 3%nat => {| Store.node_symbol := "1"; Store.node_children := [] |}
    | _ => {| Store.node_symbol := "x1"; Store.node_children := [] |}
    end;
  Store.case_at := fun _ => [1%float; 2%float];
  Store.individual_at := fun _ =>
    {| Store.genome_ref := 0%nat; Store.fitness_value := DEFAULT_FITNESS |}
|}.

(** The store that [evaluate_individual] leaves behind. *)
Definition after_evaluation (fuel : nat) (individual : Store.addr)
  (fitness_cases : list Store.addr) (targets : list float) (s : Store.store)
  : Store.store :=
  snd (Store.evaluate_individual fuel individual fitness_cases targets s).

(** [x0 * x0 - x0 * x0], which is [inf - inf] where [x0 * x0]
    overflows. *)
Definition nan_tree : tree :=
  Node "-" [Node "*" [Node "x0" []; Node "x0" []];
            Node "*" [Node "x0" []; Node "x0" []]].

(** An old population with a NaN between its best and its worst
    fitness. *)
Definition nan_population : list Individual :=
  [with_fitness (-1)%float; with_fitness nan; with_fitness (-5)%float].

(* ================================================================== *)
(** * Properties *)

(** ** The monad *)

Lemma bind_Ok {A B : Type} (c : M A) (k : A -> M B) (g : rng) (r : B * rng) :
  bind c k g = Ok r ->
  exists a g', c g = Ok (a, g') /\ k a g' = Ok r.
Proof.
  unfold bind. destruct (c g) as [[a g']|e]; [|discriminate].
  intros H. exists a, g'. split; [reflexivity|exact H].
Qed.

Lemma bind_step {A B : Type} (c : M A) (k : A -> M B) (g g' : rng) (a : A) :
  c g = Ok (a, g') -> bind c k g = k a g'.
Proof. unfold bind. intros ->. reflexivity. Qed.

Lemma choice_In {A : Type} (l : list A) (g : rng) :
  l <> [] -> exists x g', choice l g = Ok (x, g') /\ In x l.
Proof.
  destruct l as [|x l]; [congruence|]. intros _.
  unfold choice, bind, next_raw, ret.
  eexists. eexists. split; [reflexivity|].
  apply nth_In. apply Nat2Z.inj_lt. rewrite Z2Nat.id.
  - apply Z.mod_pos_bound. simpl List.length. lia.
  - apply Z.mod_pos_bound. simpl List.length. lia.
Qed.

Lemma random_random_Ok (g : rng) :
  exists r, random_random g = Ok (r, fun n => g (S n)).
Proof. unfold random_random, bind, next_raw, ret. eauto. Qed.

Lemma getrandbits1_Ok (g : rng) :
  exists b, getrandbits1 g = Ok (b, fun n => g (S n)).
Proof. unfold getrandbits1, bind, next_raw, ret. eauto. Qed.

(** ** Symbol tables *)

Lemma dict_get_In {V : Type} (d : list (string * V)) (k : string) (v : V) :
  dict_get d k = Some v -> In (k, v) d.
Proof.
  induction d as [|[k' v'] d IH]; simpl; [discriminate|].
  destruct (String.eqb_spec k' k) as [->|_].
  - intros [= ->]. now left.
  - intros H. right. auto.
Qed.

Lemma In_dict_get {V : Type} (d : list (string * V)) (k : string) (v : V) :
  NoDup (map fst d) -> In (k, v) d -> dict_get d k = Some v.
Proof.
  induction d as [|[k' v'] d IH]; simpl; [tauto|].
  intros ND [E|I].
  - inversion E; subst. now rewrite String.eqb_refl.
  - inversion ND as [|? ? Hn ND']; subst.
    destruct (String.eqb_spec k' k) as [->|_]; [|auto].
    exfalso. apply Hn. apply in_map_iff. exists (k, v). auto.
Qed.

Lemma symbols_of_arities_wf (ar : list (string * nat)) :
  NoDup (map fst ar) ->
  (exists s, dict_get ar s = Some 0%nat) ->
  wf_symbols (symbols_of_arities ar).
Proof.
  intros ND [s0 Hs0]. split; simpl.
  - intros s. rewrite in_map_iff. split.
    + intros [[k v] [E I]]. simpl in E. subst k.
      apply filter_In in I. destruct I as [I Hv]. simpl in Hv.
      apply Nat.eqb_eq in Hv. subst v. now apply In_dict_get.
    + intros H. exists (s, 0%nat). split; [reflexivity|].
      apply filter_In. split; [now apply dict_get_In|reflexivity].
  - intros s. rewrite in_map_iff. split.
    + intros [[k v] [E I]]. simpl in E. subst k.
      apply filter_In in I. destruct I as [I Hv]. simpl in Hv.
      exists v. split; [now apply In_dict_get|].
      intros ->. discriminate.
    + intros [a [H Ha]]. exists (s, a). split; [reflexivity|].
      apply filter_In. split; [now apply dict_get_In|].
      simpl. destruct a; [congruence|reflexivity].
  - intros E.
    assert (I : In s0 (map fst (filter (fun kv => Nat.eqb (snd kv) 0) ar))).
    { apply in_map_iff. exists (s0, 0%nat). split; [reflexivity|].
      apply filter_In. split; [now apply dict_get_In|reflexivity]. }
    rewrite E in I. destruct I.
Qed.

Lemma get_arities_wf : wf_symbols get_arities.
Proof.
  apply symbols_of_arities_wf.
  - simpl. repeat constructor; simpl; intuition discriminate.
  - exists "1". reflexivity.
Qed.

Lemma in_list_In (x : string) (l : list string) :
  in_list x l = true <-> In x l.
Proof.
  unfold in_list. rewrite existsb_exists. split.
  - intros [y [I E]]. apply String.eqb_eq in E. now subst.
  - intros I. exists x. split; [exact I|apply String.eqb_refl].
Qed.

Lemma terminal_not_function (sy : symbol_table) (s : string) :
  wf_symbols sy -> In s (terminals sy) -> in_list s (functions sy) = false.
Proof.
  intros W T. destruct (in_list s (functions sy)) eqn:E; [|reflexivity].
  apply in_list_In in E. apply (wf_functions sy W) in E.
  apply (wf_terminals sy W) in T. destruct E as [a [Ha Hn]]. congruence.
Qed.

(** ** Depth and height *)

Lemma get_max_depth_height (t : tree) :
  forall depth max_depth,
    get_max_depth t depth max_depth
    = Z.max max_depth (depth + Z.of_nat (height t)).
Proof.
  induction t as [s cs IH] using tree_forall_ind. intros d m.
  cbn [get_max_depth height].
  assert (Hm0 : (if m <? d then d else m) = Z.max m d)
    by (destruct (Z.ltb_spec m d); lia).
  rewrite Hm0. clear Hm0.
  set (h := fold_right (fun c h => Nat.max (S (height c)) h) 0%nat cs).
  transitivity (Z.max (Z.max m d) (d + Z.of_nat h)); [|lia].
  subst h. pose proof (Z.le_max_r m d) as Hd.
  remember (Z.max m d) as m0 eqn:Hm0. clear Hm0. revert m0 Hd.
  induction IH as [|c cs Hc _ IHcs]; intros m0 Hd; cbn [fold_left fold_right].
  - lia.
  - rewrite Hc. rewrite IHcs by lia. lia.
Qed.

Lemma height_le (s : string) (cs : list tree) (h : nat) :
  (height (Node s cs) <= h)%nat <-> Forall (fun c => (S (height c) <= h)%nat) cs.
Proof.
  cbn [height]. induction cs as [|c cs IH]; cbn [fold_right].
  - split; [constructor|lia].
  - split.
    + intros H. constructor; [lia|]. apply IH. lia.
    + intros H. inversion H; subst. apply IH in H3. lia.
Qed.

Lemma arity_invariant_Node (sy : symbol_table) (s : string) (cs : list tree) :
  arity_invariant sy (Node s cs) = true <->
  dict_get (arities sy) s = Some (List.length cs) /\
  Forall (fun c => arity_invariant sy c = true) cs.
Proof.
  cbn [arity_invariant]. destruct (dict_get (arities sy) s) as [a|].
  - rewrite andb_true_iff, Nat.eqb_eq, forallb_forall, Forall_forall.
    split; intros [H1 H2]; split; auto; congruence.
  - split; [discriminate|]. intros [H _]. discriminate.
Qed.

(** ** Growth *)

Lemma get_rnd_symbol_spec (sy : symbol_table) (depth max_depth : Z)
  (full : bool) (g : rng) :
  terminals sy <> [] ->
  functions sy <> [] \/ max_depth <= depth ->
  exists s g',
    get_rnd_symbol depth max_depth sy full g = Ok (s, g') /\
    (In s (terminals sy) \/ (depth < max_depth /\ In s (functions sy))).
Proof.
  intros HT HF. unfold get_rnd_symbol.
  destruct (Z.leb_spec max_depth depth) as [Hd|Hd].
  - destruct (choice_In (terminals sy) g HT) as (s & g' & E & I).
    exists s, g'. auto.
  - destruct HF as [HF|HF]; [|lia].
    destruct full; simpl.
    + destruct (choice_In (functions sy) g HF) as (s & g' & E & I).
      exists s, g'. auto.
    + unfold bind at 1. unfold getrandbits1, bind, next_raw, ret.
      match goal with |- context [if ?b then _ else _] => destruct b end.
      * destruct (choice_In (terminals sy) (fun n => g (S n)) HT)
          as (s & g' & E & I).
        exists s, g'. auto.
      * destruct (choice_In (functions sy) (fun n => g (S n)) HF)
          as (s & g' & E & I).
        exists s, g'. auto.
Qed.

Lemma set_last_append_node (node : tree) (symbol : string) (child : tree) :
  set_last (append_node node symbol) child
  = Node (symbol_of node) (children_of node ++ [child]).
Proof.
  unfold set_last, append_node. simpl. now rewrite removelast_last.
Qed.

Section GrowLoop.
Variables (rec : tree -> M tree) (pick : M string).
Variables (Sym : string -> Prop) (Q : tree -> Prop).
Hypothesis pick_ok : forall g, exists s g', pick g = Ok (s, g') /\ Sym s.
Hypothesis rec_ok :
  forall s g, Sym s -> exists c g', rec (Node s []) g = Ok (c, g') /\ Q c.

Lemma grow_loop_spec (n : nat) :
  forall node g,
  exists new g',
    grow_loop rec pick n node g
    = Ok (Node (symbol_of node) (children_of node ++ new), g') /\
    List.length new = n /\ Forall Q new.
Proof.
  induction n as [|n IH]; intros node g.
  - exists [], g. simpl. rewrite app_nil_r. destruct node. repeat split.
    constructor.
  - cbn [grow_loop].
    destruct (pick_ok g) as (s & g1 & Ep & Hs).
    rewrite (bind_step _ _ _ _ _ Ep).
    destruct (rec_ok s g1 Hs) as (c & g2 & Er & Hc).
    rewrite (bind_step _ _ _ _ _ Er).
    rewrite set_last_append_node.
    destruct (IH (Node (symbol_of node) (children_of node ++ [c])) g2)
      as (new & g3 & E & Hl & HQ).
    exists (c :: new), g3. rewrite E. simpl.
    rewrite <- app_assoc. simpl. repeat split; auto.
Qed.
End GrowLoop.

Lemma grow_spec (sy : symbol_table) (max_depth : Z) (full : bool) :
  wf_symbols sy ->
  forall fuel node depth a g,
    dict_get (arities sy) (symbol_of node) = Some a ->
    (a = 0%nat /\ 1 <= fuel \/ 2 + Z.to_nat (max_depth - depth) <= fuel)%nat ->
    exists new g',
      grow fuel node depth max_depth full sy g
      = Ok (Node (symbol_of node) (children_of node ++ new), g') /\
      List.length new = a /\
      Forall (grown sy (max_depth - depth)) new.
Proof.
  intros W. induction fuel as [|fuel IH]; intros node depth a g Ha Hf.
  - lia.
  - cbn [grow]. rewrite Ha.
    destruct a as [|a].
    + exists [], g. simpl. rewrite app_nil_r. destruct node.
      repeat split. constructor.
    + assert (Hfuel : (2 + Z.to_nat (max_depth - depth) <= S fuel)%nat).
      { destruct Hf as [[? _]|?]; [discriminate|assumption]. }
      assert (HF : functions sy <> []).
      { intros E.
        assert (I : In (symbol_of node) (functions sy)).
        { apply (wf_functions sy W). exists (S a). split; [exact Ha|lia]. }
        rewrite E in I. destruct I. }
      apply grow_loop_spec
        with (Sym := fun s => In s (terminals sy) \/
                              (depth < max_depth /\ In s (functions sy))).
      * intros g0. apply get_rnd_symbol_spec; [apply W|now left].
      * intros s g0 Hs.
        assert (Hdecl : exists b, dict_get (arities sy) s = Some b /\
                          (b = 0%nat \/ depth < max_depth)).
        { destruct Hs as [T|[Hd F]].
          - exists 0%nat. split; [now apply (wf_terminals sy W)|now left].
          - apply (wf_functions sy W) in F. destruct F as [b [Hb _]].
            exists b. split; [exact Hb|now right]. }
        destruct Hdecl as (b & Hb & Hcase).
        destruct (IH (Node s []) (depth + 1) b g0 Hb) as (new & g' & E & Hl & HQ).
        { destruct Hcase as [->|Hd]; [left; split; [reflexivity|lia]|].
          right.
          replace (max_depth - depth) with (Z.succ (max_depth - (depth + 1)))
            in Hfuel by lia.
          rewrite Z2Nat.inj_succ in Hfuel by lia. lia. }
        simpl in E. exists (Node s new), g'. split; [exact E|].
        split.
        -- apply arity_invariant_Node. rewrite Hl. split; [exact Hb|].
           eapply Forall_impl; [|exact HQ]. intros c [Hc _]. exact Hc.
        -- destruct Hcase as [->|Hd].
           ++ destruct new; [simpl; lia|discriminate].
           ++ assert (Hh : (height (Node s new)
                            <= Z.to_nat (max_depth - depth))%nat).
              { apply height_le. eapply Forall_impl; [|exact HQ].
                intros c [_ Hc]. simpl in Hc. lia. }
              lia.
Qed.

(** C5: the tree grown below a declared root symbol, as population
    initialisation calls [grow] (no children yet, depth 1), with
    [max_depth >= 1], either method and any random stream: given a
    recursion budget above [max_depth], [grow] returns a tree whose maximum
    depth is at most [max_depth] and in which every node has as many
    children as its symbol's arity. *)
Theorem grow_depth_and_arity (sy : symbol_table) (root : string) (a : nat)
  (max_depth : Z) (full : bool) (g : rng) (fuel : nat) :
  wf_symbols sy ->
  dict_get (arities sy) root = Some a ->
  1 <= max_depth ->
  (Z.to_nat max_depth + 1 <= fuel)%nat ->
  exists t g',
    grow fuel (Node root []) 1 max_depth full sy g = Ok (t, g') /\
    get_max_depth t 0 0 <= max_depth /\
    arity_invariant sy t = true.
Proof.
  intros W Ha Hm Hf.
  destruct (grow_spec sy max_depth full W fuel (Node root []) 1 a g Ha)
    as (new & g' & E & Hl & HQ).
  { right. replace max_depth with (Z.succ (max_depth - 1)) in Hf at 1 by lia.
    rewrite Z2Nat.inj_succ in Hf by lia. lia. }
  simpl in E. exists (Node root new), g'. split; [exact E|]. split.
  - rewrite get_max_depth_height.
    assert (Hh : (height (Node root new) <= Z.to_nat max_depth)%nat).
    { apply height_le. eapply Forall_impl; [|exact HQ].
      intros c [_ Hc]. simpl in Hc. lia. }
    lia.
  - apply arity_invariant_Node. rewrite Hl. split; [exact Ha|].
    eapply Forall_impl; [|exact HQ]. intros c [Hc _]. exact Hc.
Qed.

Lemma grow_depth_and_arity_witness :
  exists t g',
    grow 3 (Node "+" []) 1 2 true get_arities (fun _ => 0) = Ok (t, g') /\
    get_max_depth t 0 0 <= 2 /\
    arity_invariant get_arities t = true.
Proof.
  apply (grow_depth_and_arity get_arities "+" 2%nat 2 true (fun _ => 0) 3%nat).
  - exact get_arities_wf.
  - reflexivity.
  - lia.
  - simpl. lia.
Defined.

Lemma initialize_loop_spec (fuel : nat) (param : Params) :
  wf_symbols (symbols param) ->
  functions (symbols param) <> [] ->
  1 <= max_depth param ->
  (Z.to_nat (max_depth param) + 1 <= fuel)%nat ->
  forall n i individuals g,
    Forall (initial_ok param) individuals ->
    exists population g',
      initialize_loop fuel n i param individuals g = Ok (population, g') /\
      List.length population = (List.length individuals + n)%nat /\
      Forall (initial_ok param) population.
Proof.
  intros W HF Hm Hfuel. induction n as [|n IH]; intros i individuals g Hall.
  - exists individuals, g. repeat split; auto.
  - cbn [initialize_loop].
    destruct (getrandbits1_Ok g) as (full & Ef).
    rewrite (bind_step _ _ _ _ _ Ef).
    destruct (Z.eqb_spec (max_depth param) 0) as [E0|_]; [lia|].
    pose proof (Z.mod_pos_bound i (max_depth param) ltac:(lia)) as Hmod.
    set (md := i mod max_depth param + 1) in *.
    destruct (get_rnd_symbol_spec (symbols param) 1 md false (fun k => g (S k)))
      as (s & g2 & Es & Hs); [apply W|now left|].
    rewrite (bind_step _ _ _ _ _ Es).
    assert (Htree : exists tree g3,
               (if (0 <? md) && in_list s (functions (symbols param))
                then grow fuel (Node s []) 1 md full (symbols param)
                else ret (Node s [])) g2 = Ok (tree, g3) /\
               initial_ok param {| genome := tree; fitness := DEFAULT_FITNESS |}).
    { destruct Hs as [T|[Hd F]].
      - rewrite (terminal_not_function _ _ W T), andb_false_r.
        exists (Node s []), g2. split; [reflexivity|]. split.
        + cbn [genome]. apply arity_invariant_Node. split; [|constructor].
          now apply (wf_terminals _ W).
        + cbn [genome]. rewrite get_max_depth_height. simpl. lia.
      - rewrite (proj2 (in_list_In _ _) F).
        destruct (Z.ltb_spec 0 md); [|lia]. cbn [andb].
        apply (wf_functions _ W) in F. destruct F as (a & Ha & _).
        destruct (grow_spec (symbols param) md full W fuel (Node s []) 1 a g2 Ha)
          as (new & g3 & Eg & Hl & HQ).
        { right.
          assert (Z.to_nat (md - 1) < Z.to_nat (max_depth param))%nat
            by (apply Z2Nat.inj_lt; lia).
          lia. }
        simpl in Eg. exists (Node s new), g3. split; [exact Eg|]. split.
        + cbn [genome]. apply arity_invariant_Node. rewrite Hl.
          split; [exact Ha|].
          eapply Forall_impl; [|exact HQ]. intros c [Hc _]. exact Hc.
        + cbn [genome]. rewrite get_max_depth_height.
          assert (Hh : (height (Node s new) <= Z.to_nat md)%nat).
          { apply height_le. eapply Forall_impl; [|exact HQ].
            intros c [_ Hc]. simpl in Hc. lia. }
          lia. }
    destruct Htree as (tree & g3 & Et & Hok).
    rewrite (bind_step _ _ _ _ _ Et).
    destruct (IH (i + 1)
                (individuals ++ [{| genome := tree; fitness := DEFAULT_FITNESS |}])
                g3) as (population & g' & E & Hl & HP).
    { apply Forall_app. split; [exact Hall|]. constructor; [exact Hok|constructor]. }
    exists population, g'. split; [exact E|]. split; [|exact HP].
    rewrite Hl, length_app. simpl. lia.
Qed.

Lemma initialize_population_spec (fuel : nat) (param : Params) (g : rng) :
  wf_symbols (symbols param) ->
  functions (symbols param) <> [] ->
  1 <= max_depth param ->
  (Z.to_nat (max_depth param) + 1 <= fuel)%nat ->
  exists population g',
    initialize_population fuel param g = Ok (population, g') /\
    List.length population = Z.to_nat (population_size param) /\
    Forall (initial_ok param) population.
Proof.
  intros W HF Hm Hfuel. unfold initialize_population.
  apply (initialize_loop_spec fuel param W HF Hm Hfuel
           (Z.to_nat (population_size param)) 0 [] g).
  constructor.
Qed.

(** ** Counting nodes *)

Lemma get_number_of_nodes_size (t : tree) :
  forall cnt, get_number_of_nodes t cnt = cnt + Z.of_nat (size t).
Proof.
  induction t as [s cs IH] using tree_forall_ind. intros cnt.
  cbn [get_number_of_nodes size].
  transitivity
    (cnt + 1 + Z.of_nat (fold_right (fun c n => (size c + n)%nat) 0%nat cs));
    [|lia].
  generalize (cnt + 1). clear cnt.
  induction IH as [|c cs Hc _ IHcs]; intros cnt; cbn [fold_left fold_right].
  - lia.
  - rewrite Hc, IHcs. lia.
Qed.

Lemma size_pos (t : tree) : (1 <= size t)%nat.
Proof. destruct t. simpl. lia. Qed.

Lemma randint_range (a b : Z) (g g' : rng) (k : Z) :
  randint a b g = Ok (k, g') -> a <= k <= b.
Proof.
  unfold randint. destruct (Z.ltb_spec b a) as [H|H]; [discriminate|].
  unfold bind, next_raw, ret. intros [= <- _].
  pose proof (Z.mod_pos_bound (g 0%nat) (b - a + 1)). lia.
Qed.

Lemma randint_Ok (a b : Z) (g : rng) :
  a <= b -> exists k g', randint a b g = Ok (k, g').
Proof.
  intros H. unfold randint. destruct (Z.ltb_spec b a); [lia|].
  unfold bind, next_raw, ret. eauto.
Qed.

(** ** What the depth lookup returns *)

Lemma get_depth_from_index_spec (t : tree) :
  forall idx node_idx depth idx_depth,
    snd (get_depth_from_index t idx node_idx depth idx_depth) = idx /\
    (node_idx <> idx ->
     fst (get_depth_from_index t idx node_idx depth idx_depth) = idx_depth) /\
    (node_idx = idx ->
     depth <= fst (get_depth_from_index t idx node_idx depth idx_depth)
           <= depth + Z.of_nat (height t)).
Proof.
  induction t as [s cs IH] using tree_forall_ind.
  intros idx node_idx depth idx_depth.
  cbn [get_depth_from_index].
  set (d0 := if node_idx =? idx then depth else idx_depth).
  set (f := fun (acc : Z * Z) child =>
              get_depth_from_index child (snd acc) node_idx (depth + 1) (fst acc)).
  assert (Hfold : forall l acc,
             Forall (fun c => In c cs) l -> snd acc = idx ->
             snd (fold_left f l acc) = idx /\
             (node_idx <> idx -> fst (fold_left f l acc) = fst acc) /\
             (node_idx = idx ->
              depth <= fst acc <= depth + Z.of_nat (height (Node s cs)) ->
              depth <= fst (fold_left f l acc)
                    <= depth + Z.of_nat (height (Node s cs)))).
  { induction l as [|c l IHl]; intros acc Hin Hacc; cbn [fold_left].
    - auto.
    - apply Forall_cons_iff in Hin. destruct Hin as [Hc Hl].
      rewrite Forall_forall in IH.
      destruct (IH c Hc (snd acc) node_idx (depth + 1) (fst acc))
        as (H1 & H2 & H3).
      destruct (IHl (f acc c) Hl) as (G1 & G2 & G3).
      { unfold f. rewrite H1. exact Hacc. }
      split; [exact G1|]. split.
      + intros Hne. rewrite (G2 Hne). unfold f. apply H2. congruence.
      + intros He Hb. apply (G3 He). unfold f.
        assert (Hh : (S (height c) <= height (Node s cs))%nat).
        { assert (HF : Forall (fun c => (S (height c) <= height (Node s cs))%nat) cs)
            by (apply (proj1 (height_le s cs _)); lia).
          rewrite Forall_forall in HF. now apply HF. }
        specialize (H3 ltac:(congruence)). lia. }
  destruct (Hfold cs (d0, idx)) as (G1 & G2 & G3).
  { apply Forall_forall. auto. }
  { reflexivity. }
  split; [exact G1|]. split.
  - intros Hne. rewrite (G2 Hne). unfold d0. simpl.
    destruct (Z.eqb_spec node_idx idx); congruence.
  - intros He. apply (G3 He). unfold d0. simpl.
    destruct (Z.eqb_spec node_idx idx); [lia|congruence].
Qed.

(** ** Replacement by index *)

Lemma height_children (s s' : string) (cs cs' : list tree) :
  map height cs = map height cs' -> height (Node s cs) = height (Node s' cs').
Proof.
  cbn [height]. revert cs'.
  induction cs as [|c cs IH]; intros [|c' cs'] E; try discriminate.
  - reflexivity.
  - cbn [map] in E. injection E as E1 E2. cbn [fold_right].
    rewrite E1. f_equal. now apply IH.
Qed.

(** A subtree without children put in by [find_and_replace_subtree] leaves
    the shape of the tree as it was. *)
Lemma find_and_replace_leaf_height (subtree : tree) :
  children_of subtree = [] ->
  forall root node_idx idx,
    height (snd (find_and_replace_subtree root subtree node_idx idx))
    = height root.
Proof.
  intros Hleaf root.
  induction root as [s cs IH] using tree_forall_ind. intros node_idx idx.
  cbn [find_and_replace_subtree].
  destruct (node_idx =? idx + 1).
  - cbn [snd]. rewrite Hleaf. apply height_children. reflexivity.
  - cbn [snd]. apply height_children.
    set (F := fun (acc : Z * list tree) child =>
                let r := find_and_replace_subtree child subtree node_idx (fst acc) in
                (fst r, snd acc ++ [snd r])).
    assert (Hfold : forall l acc,
               Forall (fun c => forall node_idx idx,
                         height (snd (find_and_replace_subtree c subtree node_idx idx))
                         = height c) l ->
               map height (snd (fold_left F l acc))
               = map height (snd acc) ++ map height l).
    { clear. induction l as [|c l IHl]; intros acc Hl; cbn [fold_left].
      - simpl. now rewrite app_nil_r.
      - apply Forall_cons_iff in Hl. destruct Hl as [Hc Hl].
        rewrite (IHl _ Hl). unfold F. cbn [snd fst].
        rewrite map_app. cbn [map]. rewrite Hc. rewrite <- app_assoc.
        reflexivity. }
    rewrite (Hfold cs (idx + 1, []) IH). reflexivity.
Qed.

Lemma find_and_replace_root (root subtree : tree) :
  find_and_replace_subtree root subtree 0 (-1)
  = (0, Node (symbol_of subtree) (children_of subtree ++ children_of root)).
Proof. destruct root. reflexivity. Qed.

Lemma height_pos_function (sy : symbol_table) (t : tree) :
  wf_symbols sy ->
  arity_invariant sy t = true ->
  (1 <= height t)%nat ->
  functions sy <> [].
Proof.
  intros W A H. destruct t as [s cs].
  apply arity_invariant_Node in A. destruct A as [A _].
  assert (I : In s (functions sy)).
  { apply (wf_functions sy W). exists (List.length cs). split; [exact A|].
    destruct cs; [simpl in H; lia|discriminate]. }
  intros E. rewrite E in I. destruct I.
Qed.

(** C1: for an individual whose genome satisfies the arity invariant and
    has maximum depth at most [max_depth], for every random stream and
    every mutation probability, [subtree_mutation] (given a recursion
    budget above [max_depth]) returns an individual whose genome has
    maximum depth at most [max_depth]. *)
Theorem subtree_mutation_depth_bounded (fuel : nat) (individual : Individual)
  (param : Params) (g : rng) :
  wf_symbols (symbols param) ->
  arity_invariant (symbols param) (genome individual) = true ->
  get_max_depth (genome individual) 0 0 <= max_depth param ->
  (Z.to_nat (max_depth param) + 1 <= fuel)%nat ->
  exists individual' g',
    subtree_mutation fuel individual param g = Ok (individual', g') /\
    get_max_depth (genome individual') 0 0 <= max_depth param.
Proof.
  intros W A Hdepth Hfuel.
  rewrite get_max_depth_height in Hdepth.
  unfold subtree_mutation.
  destruct (random_random_Ok g) as (r & Er).
  rewrite (bind_step _ _ _ _ _ Er).
  destruct (PrimFloat.ltb r (mutation_probability param)).
  2:{ unfold ret. eexists. eexists. split; [reflexivity|].
      cbn [genome]. rewrite get_max_depth_height. lia. }
  set (t := genome individual) in *.
  destruct (randint_Ok 0 (get_number_of_nodes t 0 - 1) (fun n => g (S n)))
    as (k & g2 & Ek).
  { rewrite get_number_of_nodes_size. pose proof (size_pos t). lia. }
  rewrite (bind_step _ _ _ _ _ Ek).
  apply randint_range in Ek.
  destruct (get_depth_from_index_spec t 0 k 0 0) as (_ & Hne & Heq).
  set (D := fst (get_depth_from_index t 0 k 0 0)) in *.
  assert (HD : 0 <= D <= Z.of_nat (height t) /\ (k <> 0 -> D = 0)).
  { destruct (Z.eq_dec k 0) as [E|E].
    - specialize (Heq E). split; [lia|congruence].
    - specialize (Hne E). split; [lia|auto]. }
  destruct HD as [HD Hk]. clear Hne Heq.
  destruct (get_rnd_symbol_spec (symbols param) (max_depth param - D)
              (max_depth param) false g2) as (s & g3 & Es & Hs).
  { apply W. }
  { destruct (Z.eq_dec D 0) as [E|E]; [right; lia|left].
    apply (height_pos_function (symbols param) t W A). lia. }
  rewrite (bind_step _ _ _ _ _ Es).
  destruct Hs as [T|[Hlt F]].
  - rewrite (terminal_not_function _ _ W T).
    unfold bind, ret. eexists. eexists. split; [reflexivity|].
    cbn [genome]. rewrite get_max_depth_height.
    rewrite find_and_replace_leaf_height by reflexivity. lia.
  - rewrite (proj2 (in_list_In _ _) F).
    assert (HD1 : 1 <= D) by lia.
    assert (k = 0) as -> by (destruct (Z.eq_dec k 0); [assumption|lia]).
    destruct (getrandbits1_Ok g3) as (full & Ef).
    apply (wf_functions _ W) in F. destruct F as (a & Ha & _).
    destruct (grow_spec (symbols param) (max_depth param) full W fuel
                (Node s []) D a (fun n => g3 (S n)) Ha)
      as (new & g5 & Eg & _ & HQ).
    { right.
      replace (max_depth param) with (Z.succ (max_depth param - 1)) in Hfuel
        by lia.
      rewrite Z2Nat.inj_succ in Hfuel by lia.
      assert (Z.to_nat (max_depth param - D) <= Z.to_nat (max_depth param - 1))%nat
        by (apply Z2Nat.inj_le; lia).
      lia. }
    simpl in Eg.
    assert (Ebind : bind getrandbits1
                      (fun full => grow fuel (Node s []) D (max_depth param)
                                     full (symbols param)) g3
                    = Ok (Node s new, g5)).
    { rewrite (bind_step _ _ _ _ _ Ef). exact Eg. }
    rewrite (bind_step _ _ _ _ _ Ebind).
    unfold ret. eexists. eexists. split; [reflexivity|].
    cbn [genome]. rewrite get_max_depth_height.
    rewrite find_and_replace_root. destruct t as [st cst].
    cbn [snd symbol_of children_of].
    assert (Hh : (height (Node s (new ++ cst))
                  <= Z.to_nat (max_depth param))%nat).
    { apply height_le. apply Forall_app. split.
      - eapply Forall_impl; [|exact HQ]. intros c [_ Hc]. simpl in Hc. lia.
      - apply (proj1 (height_le st cst _)). lia. }
    lia.
Qed.

Lemma subtree_mutation_depth_bounded_witness :
  exists individual' g',
    subtree_mutation 3 (example_individual nested_tree) example_param
      (fun _ => 0) = Ok (individual', g') /\
    get_max_depth (genome individual') 0 0 <= max_depth example_param.
Proof.
  apply (subtree_mutation_depth_bounded 3 (example_individual nested_tree)
           example_param (fun _ => 0)).
  - exact get_arities_wf.
  - reflexivity.
  - vm_compute. discriminate.
  - simpl. lia.
Defined.

(** ** The two index lookups

    Both are at odds with the pre-order index they document. *)

(** C2: [get_depth_from_index], called as [subtree_mutation] calls it,
    does not return the depth of the node at the given pre-order index.
    In [["+", ["x0"], ["x1"]]] the node at index 1 is [["x0"]], at depth 1,
    and the lookup answers 0; for index 0, the root, it answers 1, the
    depth of the node visited last. *)
Theorem get_depth_from_index_misses_depth :
  nth_error (preorder 0 sum_tree) 1 = Some (Node "x0" [], 1) /\
  fst (get_depth_from_index sum_tree 0 1 0 0) = 0 /\
  nth_error (preorder 0 sum_tree) 0 = Some (sum_tree, 0) /\
  fst (get_depth_from_index sum_tree 0 0 0 0) = 1.
Proof. repeat split. Qed.

(** The defect behind it: the current index is never advanced, so no index
    other than the initial one is ever matched. *)
Lemma get_depth_from_index_nonzero (t : tree) (node_idx : Z) :
  node_idx <> 0 -> fst (get_depth_from_index t 0 node_idx 0 0) = 0.
Proof.
  intros H. now apply (get_depth_from_index_spec t 0 node_idx 0 0).
Qed.

(** C3: [get_node_at_index] is one position late.  In
    [["+", ["x0"], ["x1"]]], of 3 nodes, index 1 answers the root and not
    [["x0"]], the node visited at position 1; index 3 answers [["x1"]]
    where an index error is due; only index 4 fails. *)
Theorem get_node_at_index_off_by_one :
  get_number_of_nodes sum_tree 0 = 3 /\
  map fst (preorder 0 sum_tree) = [sum_tree; Node "x0" []; Node "x1" []] /\
  get_node_at_index sum_tree 0 = Ok ([], sum_tree) /\
  get_node_at_index sum_tree 1 = Ok ([], sum_tree) /\
  get_node_at_index sum_tree 2 = Ok ([0%nat], Node "x0" []) /\
  get_node_at_index sum_tree 3 = Ok ([1%nat], Node "x1" []) /\
  get_node_at_index sum_tree 4 = Err IndexError.
Proof. repeat split. Qed.

(** ** References in pre-order *)

Lemma child_refs_number (p : path) (t : tree) :
  child_refs (p, t) = number_children p 0 (children_of t).
Proof.
  unfold child_refs. cbn [fst snd]. generalize 0%nat.
  induction (children_of t) as [|c cs IH]; intros i; [reflexivity|].
  cbn [List.length seq combine map number_children fst snd]. now rewrite IH.
Qed.

Lemma preorder_refs_unfold (p : path) (t : tree) :
  preorder_refs p t = (p, t) :: pending (child_refs (p, t)).
Proof.
  rewrite child_refs_number. destruct t as [s cs].
  cbn [preorder_refs children_of]. f_equal. unfold pending.
  generalize 0%nat. induction cs as [|c cs IH]; intros i; [reflexivity|].
  cbn [number_children flat_map fst snd]. now rewrite IH.
Qed.

(** The references list the nodes of the independent traversal. *)
Lemma preorder_refs_preorder (t : tree) :
  forall p depth, map snd (preorder_refs p t) = map fst (preorder depth t).
Proof.
  induction t as [s cs IH] using tree_forall_ind. intros p depth.
  cbn [preorder_refs preorder map fst snd]. f_equal.
  generalize 0%nat.
  induction IH as [|c cs Hc _ IHcs]; intros i; [reflexivity|].
  cbn [flat_map]. rewrite !map_app, (Hc _ (depth + 1)), IHcs. reflexivity.
Qed.

Lemma pending_app (l1 l2 : list ref) :
  pending (l1 ++ l2) = pending l1 ++ pending l2.
Proof. unfold pending. apply flat_map_app. Qed.

(** The stack loop walks the pending traversal: after [n + 1] rounds the
    current node is the one at position [n] of what was pending. *)
Lemma get_node_at_index_loop_spec (n : nat) :
  forall stack node,
    get_node_at_index_loop (S n) stack node
    = match nth_error (pending stack) n with
      | Some r => Ok r
      | None => Err IndexError
      end.
Proof.
  induction n as [|n IH]; intros stack node.
  - destruct stack as [|r rest]; [reflexivity|].
    cbn [get_node_at_index_loop]. unfold pending. cbn [flat_map].
    rewrite preorder_refs_unfold. destruct r as [p t]. reflexivity.
  - destruct stack as [|r rest]; [reflexivity|].
    change (get_node_at_index_loop (S (S n)) (r :: rest) node)
      with (get_node_at_index_loop (S n) (child_refs r ++ rest) r).
    rewrite IH. rewrite pending_app.
    unfold pending at 3. cbn [flat_map]. fold (pending rest).
    rewrite preorder_refs_unfold. destruct r as [p t]. reflexivity.
Qed.

(** What [get_node_at_index] returns: the root for [idx <= 0], the node at
    pre-order position [idx - 1] for [1 <= idx <= count], an index error
    beyond. *)
Lemma get_node_at_index_spec (root : tree) (idx : Z) :
  get_node_at_index root idx
  = if idx <=? 0 then Ok ([], root)
    else match nth_error (preorder_refs [] root) (Z.to_nat (idx - 1)) with
         | Some r => Ok r
         | None => Err IndexError
         end.
Proof.
  unfold get_node_at_index. destruct (Z.leb_spec idx 0) as [H|H].
  - replace (Z.to_nat idx) with 0%nat by lia. reflexivity.
  - replace (Z.to_nat idx) with (S (Z.to_nat (idx - 1))) by lia.
    rewrite get_node_at_index_loop_spec. unfold pending. cbn [flat_map fst snd].
    now rewrite app_nil_r.
Qed.

Lemma preorder_refs_length (t : tree) :
  forall p, List.length (preorder_refs p t) = size t.
Proof.
  induction t as [s cs IH] using tree_forall_ind. intros p.
  cbn [preorder_refs size List.length]. f_equal.
  set (n0 := 0%nat) at 1. clearbody n0. revert n0.
  induction IH as [|c cs Hc _ IHcs]; intros i; [reflexivity|].
  cbn [fold_right]. rewrite length_app, Hc, IHcs. reflexivity.
Qed.

Lemma subtree_at_app (t : tree) (p q : path) :
  subtree_at t (p ++ q)
  = match subtree_at t p with
    | Some c => subtree_at c q
    | None => None
    end.
Proof.
  revert t. induction p as [|i p IH]; intros t; [reflexivity|].
  cbn [app subtree_at]. destruct (nth_error (children_of t) i); auto.
Qed.

Lemma preorder_refs_valid (root : tree) (t : tree) :
  forall p,
    subtree_at root p = Some t ->
    Forall (valid_ref root) (preorder_refs p t).
Proof.
  induction t as [s cs IH] using tree_forall_ind. intros p Hp.
  cbn [preorder_refs]. constructor; [exact Hp|].
  assert (Hgo : forall pre l i,
             cs = pre ++ l -> i = List.length pre ->
             Forall (valid_ref root)
               ((fix go (i : nat) (cs : list tree) : list ref :=
                   match cs with
                   | [] => []
                   | c :: cs' => preorder_refs (p ++ [i]) c ++ go (S i) cs'
                   end) i l)).
  { intros pre l. revert pre.
    induction l as [|c l IHl]; intros pre i Hcs Hi; [constructor|].
    apply Forall_app. split.
    - rewrite Forall_forall in IH. apply IH.
      + rewrite Hcs. apply in_or_app. right. now left.
      + rewrite subtree_at_app, Hp. cbn [subtree_at children_of].
        rewrite Hcs, Hi, nth_error_app2 by lia.
        rewrite Nat.sub_diag. reflexivity.
    - apply (IHl (pre ++ [c])).
      + rewrite Hcs, <- app_assoc. reflexivity.
      + rewrite length_app. simpl. lia. }
  apply (Hgo [] cs 0%nat); reflexivity.
Qed.

Lemma get_node_at_index_valid (root : tree) (idx : Z) :
  idx <= get_number_of_nodes root 0 ->
  exists r, get_node_at_index root idx = Ok r /\ valid_ref root r.
Proof.
  intros H. rewrite get_number_of_nodes_size in H.
  rewrite get_node_at_index_spec. destruct (Z.leb_spec idx 0) as [H0|H0].
  - exists ([], root). split; reflexivity.
  - destruct (nth_error (preorder_refs [] root) (Z.to_nat (idx - 1))) as [r|] eqn:E.
    + exists r. split; [reflexivity|].
      pose proof (preorder_refs_valid root root [] eq_refl) as V.
      rewrite Forall_forall in V. apply V. eapply nth_error_In. exact E.
    + apply nth_error_None in E. rewrite preorder_refs_length in E. lia.
Qed.

(** ** Crossover *)

Lemma update_nth_length {A : Type} (f : A -> A) (l : list A) :
  forall i, List.length (update_nth i f l) = List.length l.
Proof.
  induction l as [|x l IH]; intros [|i]; simpl; auto.
Qed.

Lemma update_nth_Forall {A : Type} (P : A -> Prop) (f : A -> A) (l : list A) :
  (forall x, P x -> P (f x)) ->
  Forall P l -> forall i, Forall P (update_nth i f l).
Proof.
  intros Hf H. induction H as [|x l Hx Hl IH]; intros [|i]; simpl;
    constructor; auto.
Qed.

Lemma arity_invariant_replace_at (sy : symbol_table) (new : tree) (p : path) :
  arity_invariant sy new = true ->
  forall t, arity_invariant sy t = true ->
            arity_invariant sy (replace_at t p new) = true.
Proof.
  intros Hnew. induction p as [|i p IH]; intros t Ht; [exact Hnew|].
  destruct t as [s cs]. cbn [replace_at symbol_of children_of].
  apply arity_invariant_Node in Ht. destruct Ht as [Ha Hcs].
  apply arity_invariant_Node. rewrite update_nth_length. split; [exact Ha|].
  apply update_nth_Forall; auto.
Qed.

Lemma arity_invariant_subtree_at (sy : symbol_table) (p : path) :
  forall t n, arity_invariant sy t = true ->
              subtree_at t p = Some n ->
              arity_invariant sy n = true.
Proof.
  induction p as [|i p IH]; intros t n Ht Hn.
  - injection Hn as <-. exact Ht.
  - cbn [subtree_at] in Hn. destruct t as [s cs]. cbn [children_of] in Hn.
    destruct (nth_error cs i) as [c|] eqn:E; [|discriminate].
    apply arity_invariant_Node in Ht. destruct Ht as [_ Hcs].
    rewrite Forall_forall in Hcs. apply (IH c n); [|exact Hn].
    apply Hcs. eapply nth_error_In. exact E.
Qed.

(** On a tree whose symbols are all declared the search for nodes of an
    arity succeeds, and what it collects are nodes of that tree. *)
Lemma get_nodes_with_equal_arity_valid (sy : symbol_table) (root : tree)
  (arity : nat) (t : tree) :
  forall p nodes idx,
    arity_invariant sy t = true ->
    subtree_at root p = Some t ->
    Forall (valid_ref root) nodes ->
    exists i nodes',
      get_nodes_with_equal_arity p t arity nodes idx (arities sy)
      = Ok (i, nodes') /\
      Forall (valid_ref root) nodes'.
Proof.
  induction t as [s cs IH] using tree_forall_ind. intros p nodes idx Ht Hp Hn.
  cbn [get_nodes_with_equal_arity symbol_of].
  apply arity_invariant_Node in Ht. destruct Ht as [Ha Hcs]. rewrite Ha.
  set (nodes1 := if Nat.eqb (List.length cs) arity
                 then nodes ++ [(p, Node s cs)] else nodes).
  assert (Hn1 : Forall (valid_ref root) nodes1).
  { unfold nodes1. destruct (Nat.eqb (List.length cs) arity); [|exact Hn].
    apply Forall_app. split; [exact Hn|]. constructor; [exact Hp|constructor]. }
  clearbody nodes1.
  assert (Hloop : forall l pre i acc,
             cs = pre ++ l -> i = List.length pre ->
             Forall (valid_ref root) (snd acc) ->
             exists i' nodes',
               (fix loop (i : nat) (cs : list tree) (acc : Z * list ref)
                  : result (Z * list ref) :=
                  match cs with
                  | [] => Ok acc
                  | child :: cs' =>
                      acc' <~ get_nodes_with_equal_arity (p ++ [i]) child arity
                                (snd acc) (fst acc) (arities sy) ;;
                      loop (S i) cs' acc'
                  end) i l acc = Ok (i', nodes') /\
               Forall (valid_ref root) nodes').
  { induction l as [|c l IHl]; intros pre i acc Hcs' Hi Hacc.
    - destruct acc as [ai an]. exists ai, an. split; [reflexivity|exact Hacc].
    - rewrite Forall_forall in IH, Hcs.
      assert (Hin : In c cs) by (rewrite Hcs'; apply in_or_app; right; now left).
      destruct (IH c Hin (p ++ [i]) (snd acc) (fst acc)) as (i1 & n1 & E1 & V1).
      + now apply Hcs.
      + rewrite subtree_at_app, Hp. cbn [subtree_at children_of].
        rewrite Hcs', Hi, nth_error_app2 by lia.
        rewrite Nat.sub_diag. reflexivity.
      + exact Hacc.
      + rewrite E1. cbn [rbind].
        apply (IHl (pre ++ [c])).
        * rewrite Hcs', <- app_assoc. reflexivity.
        * rewrite length_app. simpl. lia.
        * exact V1. }
  apply (Hloop cs [] 0%nat (idx + 1, nodes1)); auto.
Qed.

(** C4: for parents whose genomes satisfy the arity invariant, for every
    crossover probability and random stream, [subtree_crossover] returns
    two offspring whose genomes satisfy the arity invariant. *)
Theorem subtree_crossover_arity_invariant (parent1 parent2 : Individual)
  (param : Params) (g : rng) :
  arity_invariant (symbols param) (genome parent1) = true ->
  arity_invariant (symbols param) (genome parent2) = true ->
  exists child1 child2 g',
    subtree_crossover parent1 parent2 param g = Ok ((child1, child2), g') /\
    arity_invariant (symbols param) (genome child1) = true /\
    arity_invariant (symbols param) (genome child2) = true.
Proof.
  intros A1 A2. unfold subtree_crossover.
  set (t0 := genome parent1) in *. set (t1 := genome parent2) in *.
  destruct (random_random_Ok g) as (r & Er).
  rewrite (bind_step _ _ _ _ _ Er).
  assert (Hcopy : forall g0 : rng,
             exists child1 child2 g',
               ret ({| genome := t0; fitness := DEFAULT_FITNESS |},
                    {| genome := t1; fitness := DEFAULT_FITNESS |}) g0
               = Ok ((child1, child2), g') /\
               arity_invariant (symbols param) (genome child1) = true /\
               arity_invariant (symbols param) (genome child2) = true).
  { intros g0. unfold ret. eexists. eexists. eexists.
    split; [reflexivity|]. split; assumption. }
  destruct (PrimFloat.ltb r (crossover_probability param) && (1 <? len t0)
            && (0 <? len t0)); [|apply Hcopy].
  destruct (randint_Ok 0 (get_number_of_nodes t0 0 - 1) (fun n => g (S n)))
    as (k & g2 & Ek).
  { rewrite get_number_of_nodes_size. pose proof (size_pos t0). lia. }
  rewrite (bind_step _ _ _ _ _ Ek). apply randint_range in Ek.
  destruct (get_node_at_index_valid t0 k) as (r0 & E0 & V0); [lia|].
  assert (E0' : lift (get_node_at_index t0 k) g2 = Ok (r0, g2))
    by (unfold lift; now rewrite E0).
  rewrite (bind_step _ _ _ _ _ E0').
  destruct (in_list (symbol_of (snd r0)) (functions (symbols param)));
    [|apply Hcopy].
  pose proof (arity_invariant_subtree_at _ _ _ _ A1 V0) as An0.
  destruct (snd r0) as [s0 cs0] eqn:Er0. cbn [symbol_of].
  pose proof An0 as An0'. apply arity_invariant_Node in An0'.
  destruct An0' as [Ha0 _]. rewrite Ha0.
  match goal with
  | |- context [bind (lift (Ok ?a)) _ g2] =>
      rewrite (bind_step (lift (Ok a)) _ g2 g2 a eq_refl)
  end.
  destruct (get_nodes_with_equal_arity_valid (symbols param) t1
              (List.length cs0) t1 [] [] (-1) A2 eq_refl (Forall_nil _))
    as (i & nodes' & En & Vn).
  assert (En' : lift (get_nodes_with_equal_arity [] t1 (List.length cs0) []
                        (-1) (arities (symbols param))) g2
                = Ok ((i, nodes'), g2))
    by (unfold lift; now rewrite En).
  rewrite (bind_step _ _ _ _ _ En'). cbn [snd].
  destruct nodes' as [|n0 nodes']; [apply Hcopy|].
  destruct (choice_In (n0 :: nodes') g2) as (r1 & g3 & Ec & Ic); [discriminate|].
  rewrite (bind_step _ _ _ _ _ Ec).
  rewrite Forall_forall in Vn. specialize (Vn r1 Ic).
  pose proof (arity_invariant_subtree_at _ _ _ _ A2 Vn) as An1.
  unfold ret. eexists. eexists. eexists. split; [reflexivity|].
  cbn [genome]. unfold replace_subtree. split.
  - apply arity_invariant_replace_at; assumption.
  - apply arity_invariant_replace_at; assumption.
Qed.

Lemma subtree_crossover_arity_invariant_witness :
  exists child1 child2 g',
    subtree_crossover (example_individual nested_tree)
      (example_individual sum_tree) example_param
      (fun n => nth n [0; 2; 0] 0) = Ok ((child1, child2), g') /\
    arity_invariant (symbols example_param) (genome child1) = true /\
    arity_invariant (symbols example_param) (genome child2) = true.
Proof.
  apply (subtree_crossover_arity_invariant (example_individual nested_tree)
           (example_individual sum_tree) example_param
           (fun n => nth n [0; 2; 0] 0)).
  - reflexivity.
  - reflexivity.
Defined.

(** ** Crossover without exchange *)

Lemma size_lt_2 (t : tree) :
  get_number_of_nodes t 0 < 2 -> children_of t = [].
Proof.
  rewrite get_number_of_nodes_size. destruct t as [s [|c cs]]; [reflexivity|].
  cbn [size fold_right]. pose proof (size_pos c). lia.
Qed.

(** The guard tests the first offspring twice and never looks at the
    second.  Outside the data model that shows: a second parent whose one
    node carries a function symbol and no children has its subtree
    exchanged. *)
Lemma subtree_crossover_exchanges_one_node_parent :
  get_number_of_nodes (Node "+" []) 0 < 2 /\
  ~ crossover_unchanged (example_individual sum_tree)
      (example_individual (Node "+" [])) example_param (fun _ => 0).
Proof.
  split; [reflexivity|].
  intros [g' H]. vm_compute in H. discriminate H.
Qed.

(** If the draw does not select crossover, or the first parent's genome
    has fewer than 2 nodes, or the second parent's genome has fewer than 2
    nodes and satisfies the arity invariant of a well-formed symbol table,
    then [subtree_crossover] returns the two copies of the parents
    unchanged. *)
Lemma subtree_crossover_no_exchange (parent1 parent2 : Individual)
  (param : Params) (g g1 : rng) (r : float) :
  random_random g = Ok (r, g1) ->
  PrimFloat.ltb r (crossover_probability param) = false \/
  get_number_of_nodes (genome parent1) 0 < 2 \/
  (get_number_of_nodes (genome parent2) 0 < 2 /\
   wf_symbols (symbols param) /\
   arity_invariant (symbols param) (genome parent2) = true) ->
  crossover_unchanged parent1 parent2 param g.
Proof.
  intros Er Hcase. unfold crossover_unchanged, subtree_crossover.
  set (t0 := genome parent1) in *. set (t1 := genome parent2) in *.
  rewrite (bind_step _ _ _ _ _ Er).
  destruct (PrimFloat.ltb r (crossover_probability param)) eqn:Elt;
    [|unfold ret; eexists; reflexivity].
  destruct (1 <? len t0) eqn:Elen; [|unfold ret; eexists; reflexivity].
  cbn [andb].
  destruct (0 <? len t0); [|unfold ret; eexists; reflexivity].
  destruct Hcase as [Hc|[Hc|(Hc & W & A)]]; [discriminate| |].
  { apply size_lt_2 in Hc. unfold len in Elen. rewrite Hc in Elen.
    discriminate. }
  destruct (randint_Ok 0 (get_number_of_nodes t0 0 - 1) g1) as (k & g2 & Ek).
  { rewrite get_number_of_nodes_size. pose proof (size_pos t0). lia. }
  rewrite (bind_step _ _ _ _ _ Ek). apply randint_range in Ek.
  destruct (get_node_at_index_valid t0 k) as (r0 & E0 & _); [lia|].
  assert (E0' : lift (get_node_at_index t0 k) g2 = Ok (r0, g2))
    by (unfold lift; now rewrite E0).
  rewrite (bind_step _ _ _ _ _ E0').
  destruct (in_list (symbol_of (snd r0)) (functions (symbols param))) eqn:Ef;
    [|unfold ret; eexists; reflexivity].
  apply in_list_In in Ef. apply (wf_functions _ W) in Ef.
  destruct Ef as (a & Ha & Hne). rewrite Ha.
  match goal with
  | |- context [bind (lift (Ok ?a)) _ g2] =>
      rewrite (bind_step (lift (Ok a)) _ g2 g2 a eq_refl)
  end.
  apply size_lt_2 in Hc. destruct t1 as [s1 cs1] eqn:Et1.
  cbn [children_of] in Hc. subst cs1.
  apply arity_invariant_Node in A. destruct A as [A _].
  assert (En : get_nodes_with_equal_arity [] (Node s1 []) a [] (-1)
                 (arities (symbols param)) = Ok (0, [])).
  { cbn [get_nodes_with_equal_arity symbol_of]. rewrite A.
    cbn [List.length]. destruct a; [congruence|reflexivity]. }
  assert (En' : lift (get_nodes_with_equal_arity [] (Node s1 []) a [] (-1)
                        (arities (symbols param))) g2 = Ok ((0, []), g2))
    by (unfold lift; now rewrite En).
  rewrite (bind_step _ _ _ _ _ En'). cbn [snd]. unfold ret. eexists. reflexivity.
Qed.

(** C9: for every pair of parents and every state of the random number
    generator, if the draw does not select crossover, or if either parent's
    genome has fewer than 2 nodes, then [subtree_crossover] returns the two
    copies of the parents unchanged.  The symbol table is well formed and
    every node of the second parent's genome has at least as many children
    as its symbol's arity, as in every genome that initialisation and
    variation produce, and in particular in every genome that satisfies
    the arity invariant. *)
Theorem subtree_crossover_returns_copies (parent1 parent2 : Individual)
  (param : Params) (g g1 : rng) (r : float) :
  wf_symbols (symbols param) ->
  enough_children (symbols param) (genome parent2) = true ->
  random_random g = Ok (r, g1) ->
  PrimFloat.ltb r (crossover_probability param) = false \/
  get_number_of_nodes (genome parent1) 0 < 2 \/
  get_number_of_nodes (genome parent2) 0 < 2 ->
  crossover_unchanged parent1 parent2 param g.
Proof.
  intros W A Er Hcase.
  apply (subtree_crossover_no_exchange parent1 parent2 param g g1 r Er).
  destruct Hcase as [H|[H|H]]; [now left|right; now left|right; right].
  split; [exact H|]. split; [exact W|].
  apply size_lt_2 in H. destruct (genome parent2) as [s cs].
  cbn [children_of] in H. subst cs.
  cbn [enough_children] in A. cbn [arity_invariant].
  destruct (dict_get (arities (symbols param)) s) as [a|]; [|discriminate].
  destruct a; [reflexivity|discriminate].
Qed.

Lemma subtree_crossover_returns_copies_witness :
  crossover_unchanged (example_individual nested_tree)
    (example_individual (Node "x0" [])) example_param (fun _ => 0).
Proof.
  apply (subtree_crossover_returns_copies (example_individual nested_tree)
           (example_individual (Node "x0" [])) example_param
           (fun _ => 0) (fun _ => 0) 0%float).
  - exact get_arities_wf.
  - reflexivity.
  - reflexivity.
  - right. right. reflexivity.
Defined.

(** ** Evaluation and fitness *)

(** *** Division by one

    IEEE 754 division is correctly rounded, so dividing by [1.0] gives the
    dividend back.  This is derived from the specification of binary64
    division: the quotient of the mantissa by [2^52] is exact and rounding
    leaves it alone. *)

Lemma fexp_fexp64 (e : Z) : fexp prec emax e = fexp64 e.
Proof. reflexivity. Qed.

Lemma div_eucl_shifted (m : positive) (k : Z) :
  0 <= k ->
  Z.div_eucl (Z.shiftl (Zpos m) (52 + k)) 4503599627370496
  = (Zpos m * 2 ^ k, 0).
Proof.
  intros Hk.
  assert (E : Z.shiftl (Zpos m) (52 + k)
              = (Zpos m * 2 ^ k) * 4503599627370496).
  { rewrite Z.shiftl_mul_pow2 by lia. rewrite Z.pow_add_r by lia.
    change (2 ^ 52) with 4503599627370496. ring. }
  rewrite E.
  pose proof (Z.div_mul (Zpos m * 2 ^ k) 4503599627370496 ltac:(lia)) as Hq.
  pose proof (Z.mod_mul (Zpos m * 2 ^ k) 4503599627370496 ltac:(lia)) as Hr.
  unfold Z.div, Z.modulo in Hq, Hr.
  destruct (Z.div_eucl (Zpos m * 2 ^ k * 4503599627370496) 4503599627370496)
    as [q r].
  now subst.
Qed.

Lemma shr_fexp_canonical (m : positive) (e : Z) :
  fexp64 (Zpos (digits2_pos m) + e) = e ->
  shr_fexp prec emax (Zpos m) e loc_Exact
  = ({| shr_m := Zpos m; shr_r := false; shr_s := false |}, e).
Proof.
  intros H. unfold shr_fexp. rewrite fexp_fexp64. cbn [Zdigits2].
  rewrite H, Z.sub_diag. reflexivity.
Qed.

Lemma binary_round_aux_canonical (s : bool) (m : positive) (e : Z) :
  fexp64 (Zpos (digits2_pos m) + e) = e ->
  e <= 971 ->
  binary_round_aux prec emax s (Zpos m) e loc_Exact = S754_finite s m e.
Proof.
  intros H B. unfold binary_round_aux.
  rewrite (shr_fexp_canonical m e H).
  cbn [shr_m loc_of_shr_record round_nearest_even].
  rewrite (shr_fexp_canonical m e H). cbn [shr_m].
  change (emax - prec) with 971.
  destruct (Z.leb_spec e 971); [reflexivity|lia].
Qed.

Lemma binary_round_aux_doubled (s : bool) (m : positive) (e : Z) :
  fexp64 (Zpos (digits2_pos m) + e) = e ->
  e <= 971 ->
  binary_round_aux prec emax s (Zpos (xO m)) (e - 1) loc_Exact
  = S754_finite s m e.
Proof.
  intros H B. unfold binary_round_aux.
  assert (E1 : shr_fexp prec emax (Zpos (xO m)) (e - 1) loc_Exact
               = ({| shr_m := Zpos m; shr_r := false; shr_s := false |}, e)).
  { unfold shr_fexp. rewrite fexp_fexp64. cbn [Zdigits2 digits2_pos].
    rewrite Pos2Z.inj_succ.
    replace (Z.succ (Zpos (digits2_pos m)) + (e - 1))
      with (Zpos (digits2_pos m) + e) by lia.
    rewrite H. replace (e - (e - 1)) with 1 by lia.
    cbn [shr_record_of_loc shr iter_pos shr_1 orb]. f_equal. lia. }
  rewrite E1. cbn [shr_m loc_of_shr_record round_nearest_even].
  rewrite (shr_fexp_canonical m e H). cbn [shr_m].
  change (emax - prec) with 971.
  destruct (Z.leb_spec e 971); [reflexivity|lia].
Qed.

Lemma SF64div_one (s : spec_float) :
  valid_binary s = true ->
  SF64div s (S754_finite false 4503599627370496 (-52)) = s.
Proof.
  destruct s as [sx|sx| |sx mx ex]; intros V.
  - destruct sx; reflexivity.
  - destruct sx; reflexivity.
  - reflexivity.
  - cbn [SpecFloat.valid_binary] in V. unfold bounded, canonical_mantissa in V.
    apply andb_true_iff in V. destruct V as [Vc Vb].
    apply Z.eqb_eq in Vc. apply Z.leb_le in Vb.
    rewrite fexp_fexp64 in Vc. change (emax - prec) with 971 in Vb.
    unfold SF64div, SFdiv, SFdiv_core_binary.
    rewrite fexp_fexp64.
    change (Zdigits2 4503599627370496) with 53. cbn [Zdigits2].
    rewrite xorb_false_r.
    set (d := Z.pos (digits2_pos mx)) in *.
    assert (Hd : 1 <= d) by (unfold d; lia).
    set (e' := Z.min (fexp64 (d + ex - (53 + -52))) (ex - -52)).
    assert (He' : e' = ex \/ e' = ex - 1) by (unfold e', fexp64 in *; lia).
    destruct He' as [He'|He']; rewrite He'.
    + replace (ex - -52 - ex) with (52 + 0) by lia. cbn [Z.add Pos.add].
      change 52 with (52 + 0) at 1.
      rewrite div_eucl_shifted by lia.
      rewrite Z.pow_0_r, Z.mul_1_r.
      change (new_location 4503599627370496 0) with loc_Exact.
      now apply binary_round_aux_canonical.
    + replace (ex - -52 - (ex - 1)) with (52 + 1) by lia.
      cbn [Z.add Pos.add Pos.succ].
      change 53 with (52 + 1) at 1.
      rewrite div_eucl_shifted by lia.
      rewrite Z.pow_1_r.
      change (new_location 4503599627370496 0) with loc_Exact.
      replace (Z.pos mx * 2) with (Z.pos (xO mx)) by lia.
      now apply binary_round_aux_doubled.
Qed.

Lemma div_one (a : float) : PrimFloat.div a 1%float = a.
Proof.
  apply Prim2SF_inj. rewrite FloatAxioms.div_spec.
  change (Prim2SF 1) with (S754_finite false 4503599627370496 (-52)).
  apply SF64div_one. apply Prim2SF_valid.
Qed.

(** Protected division raises for no denominator: one that compares equal
    to zero is of magnitude below [0.00001] and is replaced. *)
Lemma protected_divide_total (numerator denominator : float) :
  exists v, protected_divide numerator denominator = Ok v.
Proof.
  unfold protected_divide.
  destruct (PrimFloat.ltb (PrimFloat.abs denominator) small) eqn:E.
  - unfold py_div. replace (PrimFloat.eqb 1 0)%float with false by reflexivity.
    eauto.
  - unfold py_div. destruct (PrimFloat.eqb denominator 0) eqn:Ez; [|eauto].
    exfalso. rewrite FloatAxioms.ltb_spec, FloatAxioms.abs_spec in E.
    rewrite FloatAxioms.eqb_spec in Ez.
    destruct (Prim2SF denominator) as [sd|sd| |sd md ed];
      try destruct sd; discriminate.
Qed.

(** C6: a division node whose denominator child evaluates to a value of
    magnitude below [0.00001] evaluates to the value of the numerator
    child, unchanged, with no division error; and [["/", ["1"], ["0"]]]
    evaluates to [1.0] on every case. *)
Theorem protected_division :
  (forall (n1 n2 : tree) (rest : list tree) (case : list float) (a b : float),
      evaluate n1 case = Ok a ->
      evaluate n2 case = Ok b ->
      PrimFloat.ltb (PrimFloat.abs b) small = true ->
      evaluate (Node "/" (n1 :: n2 :: rest)) case = Ok a) /\
  (forall case : list float,
      evaluate (Node "/" [Node "1" []; Node "0" []]) case = Ok 1%float).
Proof.
  split.
  - intros n1 n2 rest case a b H1 H2 Hb.
    cbn [evaluate]. cbn [String.eqb Ascii.eqb Bool.eqb].
    unfold eval_children. rewrite H1. cbn [rbind]. rewrite H2. cbn [rbind].
    unfold protected_divide. rewrite Hb. unfold py_div.
    replace (PrimFloat.eqb 1 0)%float with false by reflexivity.
    now rewrite div_one.
  - intros case. reflexivity.
Qed.

Lemma protected_division_witness :
  evaluate (Node "/" [Node "x0" []; Node "0.000001" []])
    [2.5%float; 3%float] = Ok 2.5%float.
Proof.
  apply (proj1 protected_division (Node "x0" []) (Node "0.000001" []) []
           [2.5%float; 3%float] 2.5%float 0x1.0c6f7a0b5ed8dp-20%float).
  - reflexivity.
  - reflexivity.
  - reflexivity.
Defined.

(** C8, as stated, fails: with no fitness case and a target left over,
    [evaluate_individual] raises nothing and assigns the fitness [-0.0]. *)
Lemma evaluate_individual_empty_cases_assigns :
  evaluate_individual (example_individual sum_tree) [] [1%float]
  = (Ok tt, {| genome := sum_tree; fitness := (-0)%float |}).
Proof. reflexivity. Qed.

(** C8, amended: with no fitness case and no target, [evaluate_individual]
    fails, with the [ZeroDivisionError] of the division by the number of
    targets, and leaves the individual as it was; no fitness is
    assigned. *)
Theorem evaluate_individual_empty_fails (individual : Individual) :
  evaluate_individual individual [] [] = (Err ZeroDivisionError, individual).
Proof. reflexivity. Qed.

(** *** On the store *)

Lemma store_bind_frame {A B : Type} (c : Store.ST A) (k : A -> Store.ST B)
  (s : Store.store) :
  snd (c s) = s -> (forall a, snd (k a s) = s) -> snd (Store.bind c k s) = s.
Proof.
  unfold Store.bind. intros Hc Hk.
  destruct (c s) as [[a|e] s']; cbn [snd] in Hc; subst s'; [apply Hk|reflexivity].
Qed.

Lemma store_get_child_frame (node : Store.addr) (i : nat) (s : Store.store) :
  snd (Store.get_child node i s) = s.
Proof.
  unfold Store.get_child.
  destruct (nth_error (Store.node_children (Store.node_at s node)) i); reflexivity.
Qed.

(** Evaluating a node leaves the store as it found it, whatever the store
    holds and whether the evaluation returns or raises. *)
Lemma store_evaluate_frame :
  forall (fuel : nat) (node case : Store.addr) (s : Store.store),
    snd (Store.evaluate fuel node case s) = s.
Proof.
  induction fuel as [|fuel IH]; intros node case s; [reflexivity|].
  cbn [Store.evaluate]. apply store_bind_frame; [reflexivity|]. intros symbol.
  assert (Hch : forall k,
             snd (Store.eval_children (fun c => Store.evaluate fuel c case)
                    node k s) = s).
  { intros k. unfold Store.eval_children.
    apply store_bind_frame; [apply store_get_child_frame|]. intros c1.
    apply store_bind_frame; [apply IH|]. intros a.
    apply store_bind_frame; [apply store_get_child_frame|]. intros c2.
    apply store_bind_frame; [apply IH|]. intros b. reflexivity. }
  destruct (String.eqb symbol "+"); [apply Hch|].
  destruct (String.eqb symbol "-"); [apply Hch|].
  destruct (String.eqb symbol "*"); [apply Hch|].
  destruct (String.eqb symbol "/"); [apply Hch|].
  destruct (String.prefix "x" symbol); [|reflexivity].
  apply store_bind_frame; [reflexivity|]. intros i. reflexivity.
Qed.

Lemma store_sum_squared_errors_frame (fuel : nat) (individual : Store.addr) :
  forall (cases : list (Store.addr * float)) (fitness : float) (s : Store.store),
    snd (Store.sum_squared_errors fuel individual cases fitness s) = s.
Proof.
  induction cases as [|[case target] rest IH]; intros fitness s; [reflexivity|].
  cbn [Store.sum_squared_errors].
  apply store_bind_frame; [reflexivity|]. intros genome.
  apply store_bind_frame; [apply store_evaluate_frame|]. intros output.
  apply IH.
Qed.

Lemma represents_Node (s : Store.store) (a : Store.addr) (symbol : string)
  (cs : list tree) :
  represents s a (Node symbol cs) <->
  Store.node_symbol (Store.node_at s a) = symbol /\
  represents_all s (Store.node_children (Store.node_at s a)) cs.
Proof.
  cbn [represents].
  generalize (Store.node_children (Store.node_at s a)). intros refs.
  assert (E : forall cs refs,
             (fix all (refs : list Store.addr) (cs : list tree) {struct cs} : Prop :=
                match cs with
                | [] => match refs with [] => True | _ :: _ => False end
                | c :: cs' =>
                    match refs with
                    | [] => False
                    | r :: refs' => represents s r c /\ all refs' cs'
                    end
                end) refs cs <-> represents_all s refs cs).
  { clear. induction cs as [|c cs IH]; intros [|r refs]; cbn [represents_all];
      try tauto. rewrite IH. tauto. }
  rewrite E. tauto.
Qed.

Lemma represents_frame (s s' : Store.store) :
  Store.node_at s' = Store.node_at s ->
  forall t a, represents s a t -> represents s' a t.
Proof.
  intros E. induction t as [symbol cs IH] using tree_forall_ind. intros a H.
  apply represents_Node in H. destruct H as [Hs Hall].
  apply represents_Node. rewrite E. split; [exact Hs|].
  revert Hall. generalize (Store.node_children (Store.node_at s a)).
  induction IH as [|c cs Hc _ IHcs]; intros [|r refs]; cbn [represents_all];
    try tauto.
  intros [H1 H2]. split; [now apply Hc|now apply IHcs].
Qed.

(** C10: on a store that holds genomes and fitness cases as objects,
    [evaluate_individual] changes nothing but the fitness of the individual
    it is given, whatever the store, the cases and the targets, and whether
    it returns or raises: every node list and every fitness case is as it
    was, every individual refers to the genome it referred to, every other
    individual is as it was, and every tree that the store held at the
    genome of an individual is held there afterwards. *)
Theorem evaluate_individual_frame (fuel : nat) (individual : Store.addr)
  (fitness_cases : list Store.addr) (targets : list float) (s : Store.store) :
  Store.node_at (after_evaluation fuel individual fitness_cases targets s)
  = Store.node_at s /\
  Store.case_at (after_evaluation fuel individual fitness_cases targets s)
  = Store.case_at s /\
  (forall j,
      Store.genome_ref
        (Store.individual_at
           (after_evaluation fuel individual fitness_cases targets s) j)
      = Store.genome_ref (Store.individual_at s j)) /\
  (forall j,
      j <> individual ->
      Store.individual_at
        (after_evaluation fuel individual fitness_cases targets s) j
      = Store.individual_at s j) /\
  (forall j t,
      represents s (Store.genome_ref (Store.individual_at s j)) t ->
      represents (after_evaluation fuel individual fitness_cases targets s)
        (Store.genome_ref
           (Store.individual_at
              (after_evaluation fuel individual fitness_cases targets s) j))
        t).
Proof.
  assert (H : Store.node_at (after_evaluation fuel individual fitness_cases targets s)
              = Store.node_at s /\
              Store.case_at (after_evaluation fuel individual fitness_cases targets s)
              = Store.case_at s /\
              (forall j,
                  Store.genome_ref
                    (Store.individual_at
                       (after_evaluation fuel individual fitness_cases targets s) j)
                  = Store.genome_ref (Store.individual_at s j)) /\
              (forall j,
                  j <> individual ->
                  Store.individual_at
                    (after_evaluation fuel individual fitness_cases targets s) j
                  = Store.individual_at s j)).
  { unfold after_evaluation, Store.evaluate_individual, Store.bind, Store.lift.
    pose proof (store_sum_squared_errors_frame fuel individual
                  (combine fitness_cases targets) 0%float s) as F.
    destruct (Store.sum_squared_errors fuel individual
                (combine fitness_cases targets) 0%float s) as [[fitness|e] s1];
      cbn [snd] in F; subst s1; [|cbn [snd]; auto].
    destruct (py_div (PrimFloat.opp fitness)
                (float_of_Z (Z.of_nat (List.length targets)))) as [f|e];
      [|cbn [snd]; auto].
    unfold Store.set_fitness.
    cbn [snd Store.node_at Store.case_at Store.individual_at].
    split; [reflexivity|]. split; [reflexivity|]. split.
    - intros j. destruct (Nat.eqb j individual); reflexivity.
    - intros j Hj. apply Nat.eqb_neq in Hj. now rewrite Hj. }
  destruct H as (Hn & Hc & Hg & Hi). repeat split; auto.
  intros j t R. rewrite Hg. now apply (represents_frame s _ Hn).
Qed.

(** On a store that holds the tree [t] at [node], evaluation on the store
    returns what evaluation of [t] returns, given a recursion budget above
    the height of the tree. *)
Lemma store_evaluate_refines (s : Store.store) (case : Store.addr) (t : tree) :
  forall (fuel : nat) (node : Store.addr),
    represents s node t ->
    (height t < fuel)%nat ->
    fst (Store.evaluate fuel node case s) = evaluate t (Store.case_at s case).
Proof.
  induction t as [symbol cs IH] using tree_forall_ind. intros fuel node R Hf.
  destruct fuel as [|fuel]; [lia|].
  apply represents_Node in R. destruct R as [Hs Hall].
  pose proof (proj1 (height_le symbol cs (height (Node symbol cs))) (le_n _)) as Hh.
  assert (Hch : forall k,
             fst (Store.eval_children (fun c => Store.evaluate fuel c case)
                    node k s)
             = eval_children (fun c => evaluate c (Store.case_at s case)) cs k).
  { intros k. unfold Store.eval_children, eval_children, Store.get_child.
    unfold Store.bind at 1.
    destruct cs as [|c1 cs'];
      destruct (Store.node_children (Store.node_at s node)) as [|r1 refs'] eqn:Er;
      cbn [represents_all] in Hall; try (exfalso; exact Hall);
      cbn [nth_error]; [reflexivity|].
    destruct Hall as [R1 Hall].
    apply Forall_cons_iff in IH. destruct IH as [IH1 IH].
    apply Forall_cons_iff in Hh. destruct Hh as [Hh1 Hh].
    pose proof (IH1 fuel r1 R1 ltac:(lia)) as E1.
    pose proof (store_evaluate_frame fuel r1 case s) as F1.
    unfold Store.bind at 1.
    destruct (Store.evaluate fuel r1 case s) as [o1 s1].
    cbn [fst snd] in E1, F1. subst s1. rewrite <- E1.
    destruct o1 as [a|e]; [|reflexivity]. cbn [rbind].
    unfold Store.bind at 1. rewrite Er.
    destruct cs' as [|c2 cs'']; destruct refs' as [|r2 refs''];
      cbn [represents_all] in Hall; try (exfalso; exact Hall);
      cbn [nth_error]; [reflexivity|].
    destruct Hall as [R2 _].
    apply Forall_cons_iff in IH. destruct IH as [IH2 _].
    apply Forall_cons_iff in Hh. destruct Hh as [Hh2 _].
    pose proof (IH2 fuel r2 R2 ltac:(lia)) as E2.
    pose proof (store_evaluate_frame fuel r2 case s) as F2.
    unfold Store.bind at 1.
    destruct (Store.evaluate fuel r2 case s) as [o2 s2].
    cbn [fst snd] in E2, F2. subst s2. rewrite <- E2.
    destruct o2 as [b|e]; reflexivity. }
  cbn [Store.evaluate evaluate]. unfold Store.bind at 1, Store.get_symbol.
  rewrite Hs.
  destruct (String.eqb symbol "+"); [apply Hch|].
  destruct (String.eqb symbol "-"); [apply Hch|].
  destruct (String.eqb symbol "*"); [apply Hch|].
  destruct (String.eqb symbol "/"); [apply Hch|].
  destruct (String.prefix "x" symbol); [|reflexivity].
  unfold Store.bind, Store.lift.
  destruct (py_int (String.substring 1 (String.length symbol - 1) symbol));
    reflexivity.
Qed.

(** ** Ranking and elitism *)

Lemma SFltb_key (s1 s2 : spec_float) :
  s1 <> S754_nan -> s2 <> S754_nan ->
  (SFltb s1 s2 = true <-> key_lt (key s1) (key s2)).
Proof.
  intros H1 H2. unfold SFltb, SFcompare, key_lt.
  destruct s1 as [b1|b1| |b1 m1 e1]; try congruence;
  destruct s2 as [b2|b2| |b2 m2 e2]; try congruence;
  try destruct b1; try destruct b2; cbn [key fst snd];
  try (split; [discriminate|lia]); try (split; [lia|reflexivity]).
  - change (Pos.compare_cont Eq m1 m2) with (Pos.compare m1 m2).
    destruct (Z.compare_spec e1 e2); [destruct (Pos.compare_spec m1 m2)| |];
      cbn [CompOpp]; split; intros; try discriminate; try reflexivity; lia.
  - change (Pos.compare_cont Eq m1 m2) with (Pos.compare m1 m2).
    destruct (Z.compare_spec e1 e2); [destruct (Pos.compare_spec m1 m2)| |];
      split; intros; try discriminate; try reflexivity; lia.
Qed.

Lemma Prim2SF_not_nan (x : float) :
  PrimFloat.is_nan x = false -> Prim2SF x <> S754_nan.
Proof.
  intros H. unfold Prim2SF. rewrite H.
  destruct (PrimFloat.is_zero x); [discriminate|].
  destruct (PrimFloat.is_infinity x); [discriminate|].
  destruct (Z.frexp x) as [r e].
  destruct (shr_fexp _ _ _ _ _) as [sh e'].
  destruct (shr_m sh); discriminate.
Qed.

Lemma ltb_key (x y : float) :
  PrimFloat.is_nan x = false -> PrimFloat.is_nan y = false ->
  (PrimFloat.ltb x y = true <-> key_lt (key (Prim2SF x)) (key (Prim2SF y))).
Proof.
  intros Hx Hy. rewrite FloatAxioms.ltb_spec.
  apply SFltb_key; now apply Prim2SF_not_nan.
Qed.

Lemma nan_free_weak_order (l : list Individual) :
  nan_free l -> weak_order_on l.
Proof.
  intros N. split.
  - intros a b Ia Ib Hab. unfold below in *.
    destruct (PrimFloat.ltb (fitness b) (fitness a)) eqn:E; [|reflexivity].
    apply ltb_key in Hab; [|now apply N|now apply N].
    apply ltb_key in E; [|now apply N|now apply N].
    unfold key_lt in *. lia.
  - intros a b c Ia Ib Ic Hab Hbc. unfold below in *.
    destruct (PrimFloat.ltb (fitness a) (fitness c)) eqn:E; [|reflexivity].
    apply ltb_key in E; [|now apply N|now apply N].
    assert (Nab : ~ key_lt (key (Prim2SF (fitness a))) (key (Prim2SF (fitness b)))).
    { intros K. apply ltb_key in K; [congruence|now apply N|now apply N]. }
    assert (Nbc : ~ key_lt (key (Prim2SF (fitness b))) (key (Prim2SF (fitness c)))).
    { intros K. apply ltb_key in K; [congruence|now apply N|now apply N]. }
    unfold key_lt in *. lia.
Qed.

Lemma weak_order_on_incl (l l' : list Individual) :
  incl l' l -> weak_order_on l -> weak_order_on l'.
Proof.
  intros Hi [Ha Ht]. split.
  - intros a b Ia Ib. apply Ha; auto.
  - intros a b c Ia Ib Ic. apply Ht; auto.
Qed.

Lemma insert_by_fitness_perm (x : Individual) (l : list Individual) :
  Permutation (insert_by_fitness x l) (x :: l).
Proof.
  induction l as [|y l IH]; simpl; [reflexivity|].
  destruct (PrimFloat.ltb (fitness y) (fitness x)); [|reflexivity].
  rewrite IH. apply perm_swap.
Qed.

Lemma sorted_by_fitness_perm (l : list Individual) :
  Permutation (sorted_by_fitness l) l.
Proof.
  induction l as [|x l IH]; simpl; [reflexivity|].
  rewrite insert_by_fitness_perm. now constructor.
Qed.

Lemma sort_population_perm (l : list Individual) :
  Permutation (sort_population l) l.
Proof.
  unfold sort_population. rewrite <- Permutation_rev.
  apply sorted_by_fitness_perm.
Qed.

Lemma insert_by_fitness_ascending (x : Individual) (l : list Individual) :
  weak_order_on (x :: l) -> ascending l -> ascending (insert_by_fitness x l).
Proof.
  intros W. induction 1 as [|y l Hl IH Hy]; simpl.
  - repeat constructor.
  - fold (below y x). destruct (below y x) eqn:E.
    + constructor.
      * apply IH. eapply weak_order_on_incl; [|exact W].
        intros z [->|Hz]; [now left|right; now right].
      * rewrite Forall_forall. intros z Hz.
        apply (Permutation_in _ (insert_by_fitness_perm x l)) in Hz.
        destruct Hz as [<-|Hz].
        -- apply (below_asym _ W); [right; now left|now left|exact E].
        -- rewrite Forall_forall in Hy. now apply Hy.
    + constructor; [now constructor|].
      constructor; [exact E|].
      rewrite Forall_forall in *. intros z Hz.
      apply (below_ntrans _ W z y x);
        [right; now right|right; now left|now left|now apply Hy|exact E].
Qed.

Lemma sorted_by_fitness_ascending (l : list Individual) :
  weak_order_on l -> ascending (sorted_by_fitness l).
Proof.
  induction l as [|x l IH]; intros W; simpl; [constructor|].
  apply insert_by_fitness_ascending.
  - eapply weak_order_on_incl; [|exact W].
    intros z [->|Hz]; [now left|right].
    now apply (Permutation_in _ (sorted_by_fitness_perm l)).
  - apply IH. eapply weak_order_on_incl; [|exact W]. intros z Hz. now right.
Qed.

Lemma ascending_last (l : list Individual) (h : Individual) :
  ascending (l ++ [h]) -> forall x, In x l -> below h x = false.
Proof.
  induction l as [|y l IH]; intros H x Hx; [destruct Hx|].
  simpl in H. apply StronglySorted_inv in H. destruct H as [Hs Hy].
  destruct Hx as [<-|Hx].
  - rewrite Forall_forall in Hy. apply Hy. apply in_or_app. right. now left.
  - now apply IH.
Qed.

(** The ranked population starts with a best individual. *)
Lemma sort_population_head (l : list Individual) :
  weak_order_on l -> l <> [] ->
  exists h t,
    sort_population l = h :: t /\ In h l /\
    forall x, In x l -> below h x = false.
Proof.
  intros W Hne. unfold sort_population.
  pose proof (sorted_by_fitness_perm l) as P.
  pose proof (sorted_by_fitness_ascending l W) as A.
  destruct (rev (sorted_by_fitness l)) as [|y s] eqn:E.
  - apply (f_equal (@rev Individual)) in E. rewrite rev_involutive in E.
    rewrite E in P. apply Permutation_nil in P. congruence.
  - apply (f_equal (@rev Individual)) in E. rewrite rev_involutive in E.
    simpl in E. rewrite E in P, A. exists y, s.
    split; [reflexivity|].
    assert (Iy : In y l).
    { apply (Permutation_in _ P). apply in_or_app. right. now left. }
    split; [exact Iy|].
    intros x Hx. apply (Permutation_in _ (Permutation_sym P)) in Hx.
    apply in_app_or in Hx. destruct Hx as [Hx|[<-|[]]].
    + now apply (ascending_last (rev s) y A).
    + destruct (below y y) eqn:Eyy; [|reflexivity].
      now rewrite (below_asym _ W y y Iy Iy Eyy) in Eyy.
Qed.

Lemma slice_to_head {A : Type} (h : A) (t : list A) (k : Z) :
  1 <= k -> exists t', slice_to (h :: t) k = h :: t'.
Proof.
  intros H. unfold slice_to. destruct (Z.ltb_spec k 0); [lia|].
  replace (Z.to_nat k) with (S (Z.to_nat (k - 1))) by lia.
  simpl. eauto.
Qed.

Lemma firstn_incl {A : Type} (n : nat) (l : list A) : incl (firstn n l) l.
Proof.
  intros x Hx. rewrite <- (firstn_skipn n l). apply in_or_app. now left.
Qed.

Lemma slice_to_incl {A : Type} (l : list A) (k : Z) : incl (slice_to l k) l.
Proof.
  unfold slice_to. destruct (k <? 0); apply firstn_incl.
Qed.

(** A fitness that is a NaN is within reach of a well-formed genome on a
    finite case: where [x0 * x0] overflows, [x0 * x0 - x0 * x0] is
    [inf - inf]. *)
Lemma evaluate_individual_nan_fitness :
  arity_invariant get_arities nan_tree = true /\
  evaluate_individual (example_individual nan_tree)
    [[0x1p700%float; 0%float]] [0%float]
  = (Ok tt, {| genome := nan_tree; fitness := nan |}).
Proof. split; reflexivity. Qed.

(** C7, as stated, fails: a NaN among the fitness values of the old
    population hides its best individual from the elite.  With fitness
    values [-1, nan, -5] the sort leaves the old population as it is, since
    no comparison with the NaN holds; reversed, it starts with [-5], which
    is the elite of size one.  Next to a new population of fitness [-3]
    the replaced population has fitness values [-3, -5]: all are below
    [-1], the best of the old population. *)
Lemma elitism_loses_best_to_nan :
  1 <= elite_size example_param /\
  1 <= population_size example_param /\
  sorted_by_fitness nan_population = nan_population /\
  generational_replacement [with_fitness (-3)%float] nan_population
    example_param
  = [with_fitness (-3)%float; with_fitness (-5)%float] /\
  In (with_fitness (-1)%float) nan_population /\
  forallb (fun x => negb (below (with_fitness (-1)%float) x)) nan_population
  = true /\
  forallb (fun x => below x (with_fitness (-1)%float))
    (generational_replacement [with_fitness (-3)%float] nan_population
       example_param)
  = true.
Proof.
  split; [simpl; lia|]. split; [simpl; lia|].
  split; [reflexivity|]. split; [reflexivity|].
  split; [left; reflexivity|]. split; reflexivity.
Qed.

(** C7, amended: with [elite_size >= 1] and [population_size >= 1], and no
    NaN among the fitness values of the new and the old population, the
    best fitness of the population after replacement is at least the best
    fitness of the population before: whenever [best_old] is an individual
    of the old population that none of it exceeds, the replaced population
    holds an individual [best_new] that none of it exceeds and that is not
    below [best_old]. *)
Theorem elitism_keeps_best (new_population old_population : list Individual)
  (param : Params) (best_old : Individual) :
  1 <= elite_size param ->
  1 <= population_size param ->
  nan_free (new_population ++ old_population) ->
  In best_old old_population ->
  (forall x, In x old_population -> below best_old x = false) ->
  exists best_new,
    In best_new (generational_replacement new_population old_population param) /\
    (forall x,
        In x (generational_replacement new_population old_population param) ->
        below best_new x = false) /\
    below best_new best_old = false.
Proof.
  intros He Hp Hc Hin Hbest. apply nan_free_weak_order in Hc.
  unfold generational_replacement.
  destruct (sort_population_head old_population) as (ho & to & Eo & Iho & Hho).
  { eapply weak_order_on_incl; [|exact Hc]. apply incl_appr, incl_refl. }
  { intros E. rewrite E in Hin. destruct Hin. }
  rewrite Eo. destruct (slice_to_head ho to (elite_size param) He) as (el & Eel).
  assert (Hel : incl (slice_to (ho :: to) (elite_size param)) old_population).
  { intros x Hx. apply slice_to_incl in Hx. rewrite <- Eo in Hx.
    now apply (Permutation_in _ (sort_population_perm old_population)). }
  set (combined := new_population ++ slice_to (ho :: to) (elite_size param)) in *.
  assert (Hcomb : incl combined (new_population ++ old_population)).
  { intros x Hx. apply in_app_or in Hx. apply in_or_app.
    destruct Hx as [Hx|Hx]; [now left|right; now apply Hel]. }
  assert (Iho' : In ho combined).
  { apply in_or_app. right. rewrite Eel. now left. }
  destruct (sort_population_head combined) as (hc & tc & Ec & Ihc & Hhc).
  { eapply weak_order_on_incl; [exact Hcomb|exact Hc]. }
  { intros E. rewrite E in Iho'. destruct Iho'. }
  rewrite Ec.
  destruct (slice_to_head hc tc (population_size param) Hp) as (rest & Er).
  exists hc. split; [rewrite Er; now left|]. split.
  - intros x Hx. apply slice_to_incl in Hx. rewrite <- Ec in Hx.
    apply (Permutation_in _ (sort_population_perm combined)) in Hx.
    now apply Hhc.
  - apply (below_ntrans _ Hc hc ho best_old).
    + now apply Hcomb.
    + apply in_or_app. now right.
    + apply in_or_app. now right.
    + now apply Hhc.
    + now apply Hho.
Qed.

Lemma elitism_keeps_best_witness :
  exists best_new,
    In best_new
      (generational_replacement [with_fitness (-2)%float]
         [with_fitness (-3)%float; with_fitness (-1)%float] example_param) /\
    (forall x,
        In x (generational_replacement [with_fitness (-2)%float]
                [with_fitness (-3)%float; with_fitness (-1)%float] example_param) ->
        below best_new x = false) /\
    below best_new (with_fitness (-1)%float) = false.
Proof.
  apply (elitism_keeps_best [with_fitness (-2)%float]
           [with_fitness (-3)%float; with_fitness (-1)%float]
           example_param (with_fitness (-1)%float)).
  - simpl. lia.
  - simpl. lia.
  - intros x [<-|[<-|[<-|[]]]]; reflexivity.
  - right. now left.
  - intros x [<-|[<-|[]]]; reflexivity.
Defined.

(** Every round of the generation loop that completes ends in that
    replacement step, on the population it started from. *)
Lemma generation_replaces (fuel : nat) (population population' : list Individual)
  (param : Params) (g g' : rng) :
  generation fuel population param g = Ok (population', g') ->
  exists new_population,
    population' = generational_replacement new_population population param.
Proof.
  unfold generation. intros H.
  apply bind_Ok in H. destruct H as (parents & g1 & _ & H).
  apply bind_Ok in H. destruct H as (new1 & g2 & _ & H).
  apply bind_Ok in H. destruct H as (new2 & g3 & _ & H).
  apply bind_Ok in H. destruct H as (new3 & g4 & _ & H).
  unfold ret in H. injection H as <- _. eauto.
Qed.

(* ================================================================== *)
(** * Further properties of the code *)

(** ** Counting, depth and the index lookups *)

Lemma preorder_length (t : tree) (depth : Z) :
  List.length (preorder depth t) = size t.
Proof.
  rewrite <- (preorder_refs_length t []).
  rewrite <- (length_map fst (preorder depth t)).
  rewrite <- (preorder_refs_preorder t [] depth). now rewrite length_map.
Qed.

(** X1: [get_number_of_nodes] adds to the running count the number of nodes an
    independent pre-order traversal visits. *)
Theorem get_number_of_nodes_preorder (t : tree) (cnt : Z) :
  get_number_of_nodes t cnt = cnt + Z.of_nat (List.length (preorder 0 t)).
Proof.
  rewrite preorder_length. apply get_number_of_nodes_size.
Qed.

Lemma height_child (s : string) (cs : list tree) :
  cs <> [] -> exists c, In c cs /\ height (Node s cs) = S (height c).
Proof.
  cbn [height]. induction cs as [|c cs IH]; [congruence|]. intros _.
  cbn [fold_right]. destruct cs as [|c' cs].
  - exists c. split; [now left|]. cbn [fold_right]. lia.
  - destruct IH as (c0 & I0 & E0); [discriminate|].
    destruct (Nat.max_spec (S (height c))
                (fold_right (fun c h => Nat.max (S (height c)) h) 0%nat (c' :: cs)))
      as [[_ E]|[_ E]]; rewrite E.
    + exists c0. split; [now right|exact E0].
    + exists c. split; [now left|reflexivity].
Qed.

Lemma preorder_depths (t : tree) :
  forall depth,
    (forall n d, In (n, d) (preorder depth t) ->
                 depth <= d <= depth + Z.of_nat (height t)) /\
    exists n, In (n, depth + Z.of_nat (height t)) (preorder depth t).
Proof.
  induction t as [s cs IH] using tree_forall_ind. intros depth.
  rewrite Forall_forall in IH. split.
  - intros n d Hin. cbn [preorder] in Hin. destruct Hin as [E|Hin].
    + injection E as _ <-. lia.
    + apply in_flat_map in Hin. destruct Hin as (c & Ic & Hin).
      destruct (IH c Ic (depth + 1)) as [Hb _]. specialize (Hb n d Hin).
      assert (Hh : (S (height c) <= height (Node s cs))%nat).
      { pose proof (proj1 (height_le s cs _) (Nat.le_refl _)) as HF.
        rewrite Forall_forall in HF. now apply HF. }
      lia.
  - destruct cs as [|c0 cs0] eqn:Ecs.
    + exists (Node s []). left. cbn [height fold_right]. f_equal. lia.
    + destruct (height_child s (c0 :: cs0)) as (c & Ic & Eh); [discriminate|].
      destruct (IH c Ic (depth + 1)) as [_ (n & Hn)].
      exists n. cbn [preorder]. right. apply in_flat_map. exists c.
      split; [exact Ic|]. rewrite Eh.
      replace (depth + Z.of_nat (S (height c)))
        with (depth + 1 + Z.of_nat (height c)) by lia.
      exact Hn.
Qed.

(** X2: [get_max_depth(tree, 0, 0)] is the greatest depth at which the
    independent pre-order traversal meets a node: no node is deeper, and
    some node is that deep. *)
Theorem get_max_depth_preorder (t : tree) :
  (forall n d, In (n, d) (preorder 0 t) -> d <= get_max_depth t 0 0) /\
  (exists n, In (n, get_max_depth t 0 0) (preorder 0 t)).
Proof.
  rewrite get_max_depth_height.
  destruct (preorder_depths t 0) as [Hb (n & Hn)].
  replace (Z.max 0 (0 + Z.of_nat (height t))) with (0 + Z.of_nat (height t))
    by lia.
  split.
  - intros m d Hin. specialize (Hb m d Hin). lia.
  - exists n. exact Hn.
Qed.

(** X3: What [get_node_at_index] answers, index by index: the root for an
    index up to 0; for an index from 1 to the number of nodes, a reference
    to the node the pre-order traversal visits one position earlier; an
    [IndexError] beyond the number of nodes. *)
Theorem get_node_at_index_preorder (root : tree) (idx : Z) :
  (idx <= 0 -> get_node_at_index root idx = Ok ([], root)) /\
  (1 <= idx <= get_number_of_nodes root 0 ->
   exists r,
     get_node_at_index root idx = Ok r /\
     nth_error (map fst (preorder 0 root)) (Z.to_nat (idx - 1)) = Some (snd r) /\
     subtree_at root (fst r) = Some (snd r)) /\
  (get_number_of_nodes root 0 < idx ->
   get_node_at_index root idx = Err IndexError).
Proof.
  rewrite get_number_of_nodes_size, get_node_at_index_spec.
  split; [|split].
  - intros H. destruct (Z.leb_spec idx 0); [reflexivity|lia].
  - intros H. destruct (Z.leb_spec idx 0); [lia|].
    destruct (nth_error (preorder_refs [] root) (Z.to_nat (idx - 1)))
      as [r|] eqn:E.
    + exists r. split; [reflexivity|]. split.
      * rewrite <- (preorder_refs_preorder root [] 0).
        apply map_nth_error. exact E.
      * pose proof (preorder_refs_valid root root [] eq_refl) as V.
        rewrite Forall_forall in V. apply V. eapply nth_error_In. exact E.
    + apply nth_error_None in E. rewrite preorder_refs_length in E. lia.
  - intros H. destruct (Z.leb_spec idx 0); [lia|].
    destruct (nth_error (preorder_refs [] root) (Z.to_nat (idx - 1)))
      as [r|] eqn:E; [|reflexivity].
    assert (Hlt : (Z.to_nat (idx - 1) < List.length (preorder_refs [] root))%nat).
    { apply nth_error_Some. congruence. }
    rewrite preorder_refs_length in Hlt. lia.
Qed.

Lemma last_app_nonempty {A : Type} (l l' : list A) (d : A) :
  l' <> [] -> last (l ++ l') d = last l' d.
Proof.
  intros H. induction l as [|x l IH]; [reflexivity|].
  cbn [app]. destruct (l ++ l') eqn:E.
  - apply app_eq_nil in E. destruct E. congruence.
  - exact IH.
Qed.

Lemma preorder_nonempty (t : tree) (depth : Z) : preorder depth t <> [].
Proof. destruct t. discriminate. Qed.

Lemma last_depth_preorder (t : tree) :
  forall depth d0, snd (last (preorder depth t) d0) = last_depth depth t.
Proof.
  induction t as [s cs IH] using tree_forall_ind. intros depth d0.
  cbn [preorder last_depth].
  change ((Node s cs, depth) :: flat_map (preorder (depth + 1)) cs)
    with ([(Node s cs, depth)] ++ flat_map (preorder (depth + 1)) cs).
  assert (H : forall l, l <> [] ->
            snd (last (l ++ flat_map (preorder (depth + 1)) cs) d0)
            = fold_left (fun _ c => last_depth (depth + 1) c) cs
                (snd (last l d0))).
  { induction IH as [|c cs Hc _ IHcs]; intros l Hl.
    - cbn [flat_map fold_left]. now rewrite app_nil_r.
    - cbn [flat_map fold_left]. rewrite app_assoc.
      rewrite IHcs.
      + f_equal. rewrite last_app_nonempty by apply preorder_nonempty.
        apply Hc.
      + intros E. apply app_eq_nil in E. destruct E as [_ E].
        now apply preorder_nonempty in E. }
  rewrite H by discriminate. reflexivity.
Qed.

Lemma get_depth_from_index_same (t : tree) :
  forall idx depth idx_depth,
    get_depth_from_index t idx idx depth idx_depth = (last_depth depth t, idx).
Proof.
  induction t as [s cs IH] using tree_forall_ind. intros idx depth idx_depth.
  cbn [get_depth_from_index last_depth]. rewrite Z.eqb_refl.
  generalize depth at 2 4. 
  induction IH as [|c cs Hc _ IHcs]; intros d; cbn [fold_left].
  - reflexivity.
  - cbn [fst snd]. rewrite Hc. apply IHcs.
Qed.

(** X4: What [get_depth_from_index] answers when called as [subtree_mutation]
    calls it: the index counter comes back as it went in, 0; for index 0
    the answer is the depth of the node the pre-order traversal visits
    last, for every other index it is 0. *)
Theorem get_depth_from_index_returns (t : tree) (node_idx : Z) :
  get_depth_from_index t 0 node_idx 0 0
  = (if node_idx =? 0 then snd (last (preorder 0 t) (t, 0)) else 0, 0).
Proof.
  destruct (Z.eqb_spec node_idx 0) as [->|H].
  - rewrite last_depth_preorder. apply get_depth_from_index_same.
  - destruct (get_depth_from_index_spec t 0 node_idx 0 0) as (H1 & H2 & _).
    destruct (get_depth_from_index t 0 node_idx 0 0) as [a b].
    cbn [fst snd] in *. now rewrite H1, (H2 H).
Qed.

(** ** Nodes of an arity *)

Lemma size_Node (s : string) (cs : list tree) : size (Node s cs) = S (sizes cs).
Proof. reflexivity. Qed.

Lemma sizes_app (l l' : list tree) : sizes (l ++ l') = (sizes l + sizes l')%nat.
Proof.
  unfold sizes. induction l as [|c l IH]; [reflexivity|].
  cbn [app fold_right]. rewrite IH. lia.
Qed.

Lemma get_nodes_with_equal_arity_spec (ar : list (string * nat))
  (arity : nat) (t : tree) (p : path) (nodes : list ref) (idx : Z) :
  get_nodes_with_equal_arity p t arity nodes idx ar
  = if all_declared ar t
    then Ok (idx + Z.of_nat (size t),
             nodes ++ filter (has_arity ar arity) (preorder_refs p t))
    else Err KeyError.
Proof.
  revert p nodes idx.
  induction t as [s cs IH] using tree_forall_ind. intros p nodes idx.
  cbn [get_nodes_with_equal_arity all_declared symbol_of preorder_refs filter].
  unfold has_arity at 1. cbn [snd symbol_of].
  destruct (dict_get ar s) as [a|]; [|reflexivity].
  set (nodes1 := if Nat.eqb a arity then nodes ++ [(p, Node s cs)] else nodes).
  assert (Hloop : forall l i acc,
             Forall (fun c => forall p nodes idx,
                       get_nodes_with_equal_arity p c arity nodes idx ar
                       = if all_declared ar c
                         then Ok (idx + Z.of_nat (size c),
                                  nodes ++ filter (has_arity ar arity)
                                             (preorder_refs p c))
                         else Err KeyError) l ->
             (fix loop (i : nat) (cs : list tree) (acc : Z * list ref)
                : result (Z * list ref) :=
                match cs with
                | [] => Ok acc
                | child :: cs' =>
                    acc' <~ get_nodes_with_equal_arity (p ++ [i]) child arity
                              (snd acc) (fst acc) ar ;;
                    loop (S i) cs' acc'
                end) i l acc
             = if forallb (all_declared ar) l
               then Ok (fst acc + Z.of_nat (sizes l),
                        snd acc ++ filter (has_arity ar arity)
                          ((fix go (i : nat) (cs : list tree) : list ref :=
                              match cs with
                              | [] => []
                              | c :: cs' =>
                                  preorder_refs (p ++ [i]) c ++ go (S i) cs'
                              end) i l))
               else Err KeyError).
  { induction l as [|c l IHl]; intros i acc Hl.
    - destruct acc as [ai an]. cbn [forallb filter fst snd sizes fold_right].
      rewrite app_nil_r. f_equal. f_equal. lia.
    - apply Forall_cons_iff in Hl. destruct Hl as [Hc Hl].
      rewrite Hc. cbn [forallb].
      destruct (all_declared ar c); [|reflexivity].
      cbn [rbind andb]. rewrite (IHl _ _ Hl). cbn [fst snd].
      destruct (forallb (all_declared ar) l); [|reflexivity].
      rewrite filter_app, <- app_assoc. f_equal. f_equal.
      unfold sizes. cbn [fold_right]. lia. }
  rewrite (Hloop cs 0%nat (idx + 1, nodes1) IH). cbn [fst snd].
  destruct (forallb (all_declared ar) cs); [|reflexivity].
  rewrite size_Node. f_equal. f_equal; [lia|].
  unfold nodes1. destruct (Nat.eqb a arity).
  - rewrite <- app_assoc. reflexivity.
  - reflexivity.
Qed.

(** X5: [get_nodes_with_equal_arity], called as [subtree_crossover] calls it,
    visits the whole tree: it fails with [KeyError] exactly when some
    symbol of the tree is not declared, and otherwise returns the number
    of nodes less one together with the references, in pre-order, to the
    nodes whose symbol has the arity asked for. *)
Theorem get_nodes_with_equal_arity_returns (ar : list (string * nat))
  (arity : nat) (root : tree) :
  get_nodes_with_equal_arity [] root arity [] (-1) ar
  = if all_declared ar root
    then Ok (get_number_of_nodes root 0 - 1,
             filter (has_arity ar arity) (preorder_refs [] root))
    else Err KeyError.
Proof.
  rewrite get_nodes_with_equal_arity_spec, get_number_of_nodes_size.
  destruct (all_declared ar root); [|reflexivity].
  cbn [app]. f_equal. f_equal. lia.
Qed.

(** ** Replacing a subtree *)

Lemma nth_error_update_nth {A : Type} (f : A -> A) (l : list A) :
  forall i, nth_error (update_nth i f l) i = option_map f (nth_error l i).
Proof.
  induction l as [|x l IH]; intros [|i]; cbn; auto.
Qed.

Lemma sizes_update_nth (f : tree -> tree) (l : list tree) (c : tree) :
  forall i, nth_error l i = Some c ->
            (sizes (update_nth i f l) + size c = sizes l + size (f c))%nat.
Proof.
  unfold sizes. induction l as [|x l IH]; intros [|i] H; cbn in H; try discriminate.
  - injection H as ->. cbn [update_nth fold_right]. lia.
  - cbn [update_nth fold_right]. specialize (IH i H). lia.
Qed.

Lemma replace_at_spec (new old : tree) (p : path) :
  forall t,
    subtree_at t p = Some old ->
    subtree_at (replace_at t p new) p = Some new /\
    (size (replace_at t p new) + size old = size t + size new)%nat.
Proof.
  induction p as [|i p IH]; intros t H.
  - cbn in H. injection H as ->. cbn. split; [reflexivity|lia].
  - destruct t as [s cs]. cbn [subtree_at children_of] in H.
    destruct (nth_error cs i) as [c|] eqn:E; [|discriminate].
    destruct (IH c H) as [H1 H2].
    cbn [replace_at symbol_of children_of subtree_at]. split.
    + rewrite nth_error_update_nth, E. cbn [option_map]. exact H1.
    + rewrite !size_Node.
      pose proof (sizes_update_nth (fun c => replace_at c p new) cs c i E).
      cbn beta in H0. lia.
Qed.

(** X6: [replace_subtree] puts the new subtree where the old node was and
    touches nothing else: looking up the place afterwards gives the new
    subtree, and the number of nodes changes by the difference of the two
    subtrees. *)
Theorem replace_subtree_lookup (new_subtree old_subtree : tree) (p : path)
  (t : tree) :
  subtree_at t p = Some old_subtree ->
  subtree_at (replace_subtree new_subtree t p) p = Some new_subtree /\
  get_number_of_nodes (replace_subtree new_subtree t p) 0
  + get_number_of_nodes old_subtree 0
  = get_number_of_nodes t 0 + get_number_of_nodes new_subtree 0.
Proof.
  intros H. unfold replace_subtree.
  destruct (replace_at_spec new_subtree old_subtree p t H) as [H1 H2].
  split; [exact H1|]. rewrite !get_number_of_nodes_size. lia.
Qed.

Lemma replace_subtree_lookup_witness :
  subtree_at (replace_subtree sum_tree nested_tree [0%nat; 1%nat])
    [0%nat; 1%nat] = Some sum_tree /\
  get_number_of_nodes (replace_subtree sum_tree nested_tree [0%nat; 1%nat]) 0
  + get_number_of_nodes (Node "1" []) 0
  = get_number_of_nodes nested_tree 0 + get_number_of_nodes sum_tree 0.
Proof.
  apply (replace_subtree_lookup sum_tree (Node "1" []) [0%nat; 1%nat]
           nested_tree).
  reflexivity.
Defined.

(** ** Sizes under variation *)

Lemma lift_Ok {A : Type} (r : result A) (g g' : rng) (a : A) :
  lift r g = Ok (a, g') -> r = Ok a /\ g' = g.
Proof.
  unfold lift. destruct r; [|discriminate]. intros [= -> ->]. auto.
Qed.

Lemma choice_Ok_In {A : Type} (l : list A) (g g' : rng) (x : A) :
  choice l g = Ok (x, g') -> In x l.
Proof.
  intros H. destruct l as [|y l]; [discriminate|].
  destruct (choice_In (y :: l) g) as (x' & g'' & E & I); [discriminate|].
  rewrite E in H. injection H as <- _. exact I.
Qed.

Lemma get_node_at_index_Ok_valid (root : tree) (idx : Z) (r : ref) :
  get_node_at_index root idx = Ok r -> valid_ref root r.
Proof.
  rewrite get_node_at_index_spec. destruct (idx <=? 0).
  - intros [= <-]. reflexivity.
  - destruct (nth_error (preorder_refs [] root) (Z.to_nat (idx - 1)))
      as [r'|] eqn:E; [|discriminate].
    intros [= <-].
    pose proof (preorder_refs_valid root root [] eq_refl) as V.
    rewrite Forall_forall in V. apply V. eapply nth_error_In. exact E.
Qed.

(** X7: Whenever [subtree_crossover] returns, the two offspring together have
    as many nodes as the two parents together: subtrees change sides,
    nothing is added or lost. *)
Theorem subtree_crossover_keeps_node_total (parent1 parent2 child1 child2 : Individual)
  (param : Params) (g g' : rng) :
  subtree_crossover parent1 parent2 param g = Ok ((child1, child2), g') ->
  get_number_of_nodes (genome child1) 0 + get_number_of_nodes (genome child2) 0
  = get_number_of_nodes (genome parent1) 0
    + get_number_of_nodes (genome parent2) 0.
Proof.
  unfold subtree_crossover.
  set (t0 := genome parent1). set (t1 := genome parent2).
  intros H. rewrite !get_number_of_nodes_size.
  assert (Hcopy : forall g0 : rng,
             ret ({| genome := t0; fitness := DEFAULT_FITNESS |},
                  {| genome := t1; fitness := DEFAULT_FITNESS |}) g0
             = Ok ((child1, child2), g') ->
             0 + Z.of_nat (size (genome child1))
             + (0 + Z.of_nat (size (genome child2)))
             = 0 + Z.of_nat (size t0) + (0 + Z.of_nat (size t1))).
  { unfold ret. intros g0 [= <- <- _]. reflexivity. }
  apply bind_Ok in H. destruct H as (r & g1 & _ & H).
  destruct (PrimFloat.ltb r (crossover_probability param) && (1 <? len t0)
            && (0 <? len t0)); [|now apply (Hcopy g1)].
  apply bind_Ok in H. destruct H as (k & g2 & _ & H).
  apply bind_Ok in H. destruct H as (r0 & g3 & H0 & H).
  apply lift_Ok in H0. destruct H0 as [H0 ->].
  apply get_node_at_index_Ok_valid in H0.
  destruct (in_list (symbol_of (snd r0)) (functions (symbols param)));
    [|now apply (Hcopy g2)].
  apply bind_Ok in H. destruct H as (a & g4 & _ & H).
  apply bind_Ok in H. destruct H as (rn & g5 & Hn & H).
  apply lift_Ok in Hn. destruct Hn as [Hn ->].
  rewrite get_nodes_with_equal_arity_spec in Hn.
  destruct (all_declared (arities (symbols param)) t1); [|discriminate].
  injection Hn as <-. cbn [snd app] in H.
  destruct (filter (has_arity (arities (symbols param)) a) (preorder_refs [] t1))
    as [|n0 nodes] eqn:Ef; [now apply (Hcopy g4)|].
  apply bind_Ok in H. destruct H as (r1 & g6 & Hc & H).
  apply choice_Ok_In in Hc. rewrite <- Ef in Hc. apply filter_In in Hc.
  destruct Hc as [Hc _].
  assert (V1 : valid_ref t1 r1).
  { pose proof (preorder_refs_valid t1 t1 [] eq_refl) as V.
    rewrite Forall_forall in V. now apply V. }
  unfold ret in H. injection H as <- <- _. cbn [genome].
  unfold replace_subtree.
  destruct (replace_at_spec (snd r1) (snd r0) (fst r0) t0 H0) as [_ E0].
  destruct (replace_at_spec (snd r0) (snd r1) (fst r1) t1 V1) as [_ E1].
  lia.
Qed.

Lemma subtree_crossover_keeps_node_total_witness :
  get_number_of_nodes sum_tree 0 + get_number_of_nodes nested_tree 0
  = get_number_of_nodes nested_tree 0 + get_number_of_nodes sum_tree 0.
Proof.
  apply (subtree_crossover_keeps_node_total
           (example_individual nested_tree) (example_individual sum_tree)
           (example_individual sum_tree) (example_individual nested_tree)
           example_param (fun _ => 0) (fun _ => 0)).
  reflexivity.
Defined.

Lemma find_and_replace_size (subtree : tree) (root : tree) :
  forall node_idx idx,
    (size root
     <= size (snd (find_and_replace_subtree root subtree node_idx idx)))%nat.
Proof.
  induction root as [s cs IH] using tree_forall_ind. intros node_idx idx.
  cbn [find_and_replace_subtree].
  destruct (node_idx =? idx + 1).
  - cbn [snd children_of]. rewrite !size_Node, sizes_app. lia.
  - cbn [snd]. rewrite !size_Node. apply le_n_S.
    set (F := fun (acc : Z * list tree) child =>
                let r := find_and_replace_subtree child subtree node_idx (fst acc) in
                (fst r, snd acc ++ [snd r])).
    assert (Hfold : forall l acc,
               Forall (fun c => forall node_idx idx,
                         (size c <= size (snd (find_and_replace_subtree c subtree
                                                 node_idx idx)))%nat) l ->
               (sizes (snd acc) + sizes l <= sizes (snd (fold_left F l acc)))%nat).
    { clear. induction l as [|c l IHl]; intros acc Hl; cbn [fold_left].
      - unfold sizes at 2. cbn [fold_right]. lia.
      - apply Forall_cons_iff in Hl. destruct Hl as [Hc Hl].
        specialize (IHl (F acc c) Hl). unfold F at 1 in IHl. cbn [snd fst] in IHl.
        rewrite sizes_app in IHl. unfold sizes at 2 in IHl.
        cbn [fold_right] in IHl.
        specialize (Hc node_idx (fst acc)).
        change (sizes (c :: l)) with (size c + sizes l)%nat.
        lia. }
    specialize (Hfold cs (idx + 1, []) IH). cbn [snd] in Hfold.
    unfold sizes at 1 in Hfold. cbn [fold_right] in Hfold. lia.
Qed.

(** X8: Whenever [subtree_mutation] returns, the mutated genome has at least as
    many nodes as the original: the children of the replaced node stay in
    the tree, behind those of the new subtree. *)
Theorem subtree_mutation_never_shrinks (fuel : nat) (individual individual' : Individual)
  (param : Params) (g g' : rng) :
  subtree_mutation fuel individual param g = Ok (individual', g') ->
  get_number_of_nodes (genome individual) 0
  <= get_number_of_nodes (genome individual') 0.
Proof.
  unfold subtree_mutation. intros H. rewrite !get_number_of_nodes_size.
  apply bind_Ok in H. destruct H as (r & g1 & _ & H).
  destruct (PrimFloat.ltb r (mutation_probability param)).
  - apply bind_Ok in H. destruct H as (k & g2 & _ & H).
    apply bind_Ok in H. destruct H as (s & g3 & _ & H).
    apply bind_Ok in H. destruct H as (new_subtree & g4 & _ & H).
    unfold ret in H. injection H as <- _. cbn [genome].
    pose proof (find_and_replace_size new_subtree (genome individual) k (-1)).
    lia.
  - unfold ret in H. injection H as <- _. cbn [genome]. lia.
Qed.

Lemma subtree_mutation_never_shrinks_witness :
  get_number_of_nodes nested_tree 0
  <= get_number_of_nodes mutated_nested_tree 0.
Proof.
  apply (subtree_mutation_never_shrinks 3 (example_individual nested_tree)
           (example_individual mutated_nested_tree)
           example_param (fun _ => 0) (fun _ => 0)).
  reflexivity.
Defined.

(** ** Replacement by index, position by position *)

Lemma preorder_refs_forest (p : path) (s : string) (cs : list tree) :
  preorder_refs p (Node s cs) = (p, Node s cs) :: forest_refs p 0 cs.
Proof.
  cbn [preorder_refs]. f_equal. generalize 0%nat.
  induction cs as [|c cs IH]; intros i; [reflexivity|].
  cbn [forest_refs]. now rewrite IH.
Qed.

Lemma update_nth_app {A : Type} (f : A -> A) (pre post : list A) (x : A) :
  update_nth (List.length pre) f (pre ++ x :: post) = pre ++ f x :: post.
Proof.
  induction pre as [|y pre IH]; [reflexivity|].
  cbn [List.length app update_nth]. now rewrite IH.
Qed.

Lemma find_and_replace_children (subtree : tree) (node_idx : Z) (p : path)
  (l : list tree) :
  Forall (replaces_at_position subtree node_idx) l ->
  forall i j done,
    (node_idx - (j + 1) < 0 \/ Z.of_nat (sizes l) <= node_idx - (j + 1) ->
     fold_left (replace_step subtree node_idx) l (j, done)
     = (j + Z.of_nat (sizes l), done ++ l)) /\
    (0 <= node_idx - (j + 1) < Z.of_nat (sizes l) ->
     exists pre c post q old,
       l = pre ++ c :: post /\
       nth_error (forest_refs p i l) (Z.to_nat (node_idx - (j + 1)))
       = Some (p ++ (i + List.length pre)%nat :: q, old) /\
       node_idx <= fst (fold_left (replace_step subtree node_idx) l (j, done)) /\
       snd (fold_left (replace_step subtree node_idx) l (j, done))
       = done ++ pre ++ replace_at c q (spliced subtree old) :: post).
Proof.
  induction 1 as [|c l Hc Hl IHl]; intros i j done.
  - split.
    + intros _. cbn. rewrite app_nil_r. f_equal. lia.
    + cbn. lia.
  - change (sizes (c :: l)) with (size c + sizes l)%nat.
    destruct (Hc (p ++ [i]) j) as [Ac Bc].
    cbn [fold_left]. unfold replace_step at 2 4 6. cbn [fst snd].
    split.
    + intros Hk. rewrite Ac by lia. cbn [fst snd].
      destruct (IHl (S i) (j + Z.of_nat (size c)) (done ++ [c])) as [Al _].
      rewrite Al by lia. rewrite <- app_assoc. cbn [app].
      f_equal. lia.
    + intros Hk.
      destruct (Z.lt_ge_cases (node_idx - (j + 1)) (Z.of_nat (size c)))
        as [Hin|Hout].
      * destruct Bc as (q & old & Hn & Hge & Hs); [lia|].
        destruct (IHl (S i)
                    (fst (find_and_replace_subtree c subtree node_idx j))
                    (done ++ [snd (find_and_replace_subtree c subtree node_idx j)]))
          as [Al _].
        rewrite Al by lia. cbn [fst snd].
        exists [], c, l, q, old. cbn [app List.length].
        split; [reflexivity|]. split; [|split].
        -- cbn [forest_refs]. rewrite nth_error_app1.
           ++ rewrite Hn, <- app_assoc, Nat.add_0_r. reflexivity.
           ++ rewrite preorder_refs_length. lia.
        -- lia.
        -- rewrite Hs, <- app_assoc. reflexivity.
      * rewrite Ac by lia. cbn [fst snd].
        destruct (IHl (S i) (j + Z.of_nat (size c)) (done ++ [c])) as [_ Bl].
        destruct Bl as (pre & c' & post & q & old & El & Hn & Hge & Hs); [lia|].
        exists (c :: pre), c', post, q, old.
        split; [now rewrite El|]. split; [|split].
        -- cbn [forest_refs]. rewrite nth_error_app2.
           ++ rewrite preorder_refs_length.
              replace (Z.to_nat (node_idx - (j + 1)) - size c)%nat
                with (Z.to_nat (node_idx - (j + Z.of_nat (size c) + 1))) by lia.
              rewrite Hn. cbn [List.length].
              replace (i + S (List.length pre))%nat
                with (S i + List.length pre)%nat by lia.
              reflexivity.
           ++ rewrite preorder_refs_length. lia.
        -- exact Hge.
        -- rewrite Hs, <- app_assoc. reflexivity.
Qed.

Lemma find_and_replace_unfold (s : string) (cs : list tree) (subtree : tree)
  (node_idx idx : Z) :
  find_and_replace_subtree (Node s cs) subtree node_idx idx
  = if node_idx =? idx + 1
    then (idx + 1, spliced subtree (Node s cs))
    else (fst (fold_left (replace_step subtree node_idx) cs (idx + 1, [])),
          Node s (snd (fold_left (replace_step subtree node_idx) cs (idx + 1, [])))).
Proof. reflexivity. Qed.

Lemma find_and_replace_position (subtree : tree) (node_idx : Z) (root : tree) :
  replaces_at_position subtree node_idx root.
Proof.
  induction root as [s cs IH] using tree_forall_ind. intros p idx.
  rewrite size_Node, find_and_replace_unfold.
  destruct (find_and_replace_children subtree node_idx p cs IH 0%nat (idx + 1) [])
    as [Al Bl].
  destruct (Z.eqb_spec node_idx (idx + 1)) as [E|E].
  - split; [lia|]. intros _. exists [], (Node s cs).
    replace (node_idx - (idx + 1)) with 0 by lia.
    rewrite preorder_refs_forest, app_nil_r. cbn [Z.to_nat nth_error fst snd].
    split; [reflexivity|]. split; [lia|reflexivity].
  - split.
    + intros Hk. rewrite Al by lia. cbn [fst snd app]. f_equal. lia.
    + intros Hk.
      destruct Bl as (pre & c & post & q & old & El & Hn & Hge & Hs); [lia|].
      exists (List.length pre :: q), old. cbn [fst snd]. split; [|split].
      * rewrite preorder_refs_forest.
        replace (Z.to_nat (node_idx - (idx + 1)))
          with (S (Z.to_nat (node_idx - (idx + 1 + 1)))) by lia.
        cbn [nth_error]. exact Hn.
      * exact Hge.
      * rewrite Hs. cbn [app replace_at symbol_of children_of].
        rewrite El, update_nth_app. reflexivity.
Qed.

(** X9: [find_and_replace_subtree], started at index -1 as [subtree_mutation]
    starts it, addresses nodes by their 0-based pre-order position: for an
    index within the tree the node at that position is the one that is
    spliced, for any other index the tree comes back as it was and the
    index returned is the number of nodes less one. *)
Theorem find_and_replace_subtree_preorder (root subtree : tree) (node_idx : Z) :
  (0 <= node_idx < get_number_of_nodes root 0 ->
   exists r,
     nth_error (preorder_refs [] root) (Z.to_nat node_idx) = Some r /\
     nth_error (map fst (preorder 0 root)) (Z.to_nat node_idx) = Some (snd r) /\
     snd (find_and_replace_subtree root subtree node_idx (-1))
     = replace_at root (fst r) (spliced subtree (snd r))) /\
  (node_idx < 0 \/ get_number_of_nodes root 0 <= node_idx ->
   find_and_replace_subtree root subtree node_idx (-1)
   = (get_number_of_nodes root 0 - 1, root)).
Proof.
  rewrite get_number_of_nodes_size.
  destruct (find_and_replace_position subtree node_idx root [] (-1)) as [A B].
  replace (node_idx - (-1 + 1)) with node_idx in * by lia.
  split.
  - intros H. destruct B as (q & old & Hn & _ & Hs); [lia|].
    exists (q, old). cbn [app] in Hn. split; [exact Hn|]. split; [|exact Hs].
    rewrite <- (preorder_refs_preorder root [] 0).
    apply (map_nth_error snd _ _ Hn).
  - intros H. rewrite A by lia. f_equal. lia.
Qed.

(** X10: Replacing by index a node that has children with a terminal without
    children leaves a terminal with children in the tree: the result
    violates the arity invariant, whatever the tree was. *)
Theorem find_and_replace_terminal_breaks_arity (sy : symbol_table) (root : tree)
  (s : string) (node_idx : Z) (r : ref) :
  dict_get (arities sy) s = Some 0%nat ->
  0 <= node_idx ->
  nth_error (preorder_refs [] root) (Z.to_nat node_idx) = Some r ->
  children_of (snd r) <> [] ->
  arity_invariant sy
    (snd (find_and_replace_subtree root (Node s []) node_idx (-1))) = false.
Proof.
  intros Hs H0 Hn Hc.
  destruct (find_and_replace_position (Node s []) node_idx root [] (-1))
    as [_ B].
  replace (node_idx - (-1 + 1)) with node_idx in B by lia.
  destruct B as (q & old & Hn' & _ & Hr).
  { split; [lia|].
    assert (Hlt : (Z.to_nat node_idx < List.length (preorder_refs [] root))%nat)
      by (apply nth_error_Some; congruence).
    rewrite preorder_refs_length in Hlt. lia. }
  cbn [app] in Hn'. rewrite Hn in Hn'. injection Hn' as ->. cbn [fst snd] in *.
  pose proof (preorder_refs_valid root root [] eq_refl) as V.
  rewrite Forall_forall in V. specialize (V _ (nth_error_In _ _ Hn)).
  unfold valid_ref in V. cbn [fst snd] in V.
  destruct (replace_at_spec (spliced (Node s []) old) old q root V) as [Hl _].
  rewrite Hr.
  destruct (arity_invariant sy (replace_at root q (spliced (Node s []) old)))
    eqn:E; [|reflexivity].
  pose proof (arity_invariant_subtree_at sy q _ _ E Hl) as A.
  unfold spliced in A. cbn [symbol_of children_of app] in A.
  apply arity_invariant_Node in A. destruct A as [A _].
  rewrite Hs in A. injection A as A.
  destruct (children_of old); [congruence|discriminate].
Qed.

Lemma find_and_replace_terminal_breaks_arity_witness :
  arity_invariant get_arities
    (snd (find_and_replace_subtree nested_tree (Node "x0" []) 1 (-1))) = false.
Proof.
  apply (find_and_replace_terminal_breaks_arity get_arities nested_tree "x0" 1
           ([0%nat], Node "*" [Node "x0" []; Node "1" []])).
  - reflexivity.
  - lia.
  - reflexivity.
  - discriminate.
Defined.

(** ** Ranking *)

Lemma StronglySorted_snoc {A : Type} (R : A -> A -> Prop) (l : list A) (a : A) :
  StronglySorted R l -> Forall (fun x => R x a) l -> StronglySorted R (l ++ [a]).
Proof.
  induction 1 as [|x l Hl IH Hx]; intros Ha; simpl.
  - repeat constructor.
  - apply Forall_cons_iff in Ha. destruct Ha as [Hxa Ha].
    constructor; [now apply IH|].
    apply Forall_app. split; [exact Hx|]. constructor; [exact Hxa|constructor].
Qed.

Lemma ascending_rev (l : list Individual) : ascending l -> descending (rev l).
Proof.
  induction 1 as [|x l Hl IH Hx]; simpl; [constructor|].
  apply StronglySorted_snoc; [exact IH|]. apply Forall_rev. exact Hx.
Qed.

Lemma sort_population_sorted (l : list Individual) :
  weak_order_on l -> descending (sort_population l).
Proof.
  intros W. unfold sort_population.
  apply ascending_rev, sorted_by_fitness_ascending, W.
Qed.

Lemma example_population_nan_free : nan_free example_population.
Proof. intros x [<-|[<-|[]]]; reflexivity. Qed.

(** X11: [sort_population] rearranges the individuals it is given, losing and
    adding none, into descending order of fitness: no individual of the
    result is below one that comes after it.  No fitness at hand is a
    NaN. *)
Theorem sort_population_descending (individuals : list Individual) :
  nan_free individuals ->
  Permutation (sort_population individuals) individuals /\
  descending (sort_population individuals).
Proof.
  intros N. split; [apply sort_population_perm|].
  apply sort_population_sorted, nan_free_weak_order, N.
Qed.

Lemma sort_population_descending_witness :
  Permutation (sort_population example_population) example_population /\
  descending (sort_population example_population).
Proof.
  apply (sort_population_descending example_population).
  exact example_population_nan_free.
Defined.

(** ** Sampling and tournaments *)

Lemma remove_nth_perm {A : Type} (d : A) :
  forall (l : list A) (j : nat),
    (j < List.length l)%nat -> Permutation (nth j l d :: remove_nth j l) l.
Proof.
  induction l as [|x l IH]; intros j Hj; simpl in Hj; [lia|].
  destruct j as [|j]; simpl; [reflexivity|].
  etransitivity; [apply perm_swap|]. constructor. apply IH. lia.
Qed.

Lemma remove_nth_length {A : Type} :
  forall (l : list A) (j : nat),
    (j < List.length l)%nat ->
    List.length (remove_nth j l) = Nat.pred (List.length l).
Proof.
  induction l as [|x l IH]; intros j Hj; simpl in Hj; [lia|].
  destruct j as [|j]; simpl; [reflexivity|].
  rewrite IH by lia. lia.
Qed.

Lemma sample_loop_spec {A : Type} :
  forall (k : nat) (pool : list A) (g : rng),
    (k <= List.length pool)%nat ->
    exists l g',
      sample_loop k pool g = Ok (l, g') /\
      List.length l = k /\
      exists rest, Permutation (l ++ rest) pool.
Proof.
  induction k as [|k IH]; intros pool g Hk.
  - exists [], g. repeat split. exists pool. reflexivity.
  - destruct pool as [|x pool']; [simpl in Hk; lia|].
    remember (x :: pool') as pool eqn:Ep.
    assert (Hlen : (0 < List.length pool)%nat) by (subst pool; simpl; lia).
    assert (E : sample_loop (S k) pool g
                = (let j := Z.to_nat (g 0%nat mod Z.of_nat (List.length pool)) in
                   rest <- sample_loop k (remove_nth j pool) ;;
                   ret (nth j pool x :: rest)) (fun n => g (S n))).
    { subst pool. reflexivity. }
    rewrite E. clear E. cbv zeta.
    set (j := Z.to_nat (g 0%nat mod Z.of_nat (List.length pool))).
    assert (Hj : (j < List.length pool)%nat).
    { subst j. pose proof (Z.mod_pos_bound (g 0%nat) (Z.of_nat (List.length pool))).
      lia. }
    destruct (IH (remove_nth j pool) (fun n => g (S n))) as (l & g' & El & Hl & rest & P).
    { rewrite remove_nth_length by exact Hj. lia. }
    rewrite (bind_step _ _ _ _ _ El).
    exists (nth j pool x :: l), g'. split; [reflexivity|]. split; [simpl; lia|].
    exists rest. simpl. etransitivity; [|apply (remove_nth_perm x pool j Hj)].
    now constructor.
Qed.

Lemma sample_spec {A : Type} (population : list A) (k : Z) (g : rng) :
  0 <= k <= Z.of_nat (List.length population) ->
  exists l g',
    sample population k g = Ok (l, g') /\
    Z.of_nat (List.length l) = k /\
    exists rest, Permutation (l ++ rest) population.
Proof.
  intros Hk. unfold sample.
  destruct (Z.ltb_spec k 0); [lia|].
  destruct (Z.ltb_spec (Z.of_nat (List.length population)) k); [lia|].
  cbn [orb].
  destruct (sample_loop_spec (Z.to_nat k) population g) as (l & g' & E & Hl & R);
    [lia|].
  exists l, g'. split; [exact E|]. split; [lia|exact R].
Qed.

Lemma sample_error {A : Type} (population : list A) (k : Z) (g : rng) :
  k < 0 \/ Z.of_nat (List.length population) < k ->
  sample population k g = Err ValueError.
Proof.
  intros Hk. unfold sample.
  destruct (Z.ltb_spec k 0); [reflexivity|].
  destruct (Z.ltb_spec (Z.of_nat (List.length population)) k); [reflexivity|lia].
Qed.

Lemma sample_zero {A : Type} (population : list A) (g : rng) :
  sample population 0 g = Ok ([], g).
Proof.
  unfold sample.
  destruct (Z.ltb_spec (Z.of_nat (List.length population)) 0); [lia|].
  reflexivity.
Qed.

Lemma tournament_loop_spec (population : list Individual) (param : Params) :
  1 <= tournament_size param <= Z.of_nat (List.length population) ->
  weak_order_on population ->
  forall n winners g,
    Forall (tournament_winner population (tournament_size param)) winners ->
    exists winners' g',
      tournament_loop n population param winners g = Ok (winners', g') /\
      List.length winners' = (List.length winners + n)%nat /\
      Forall (tournament_winner population (tournament_size param)) winners'.
Proof.
  intros Hts W. induction n as [|n IH]; intros winners g Hw.
  - exists winners, g. repeat split; [simpl; lia|exact Hw].
  - cbn [tournament_loop].
    destruct (sample_spec population (tournament_size param) g)
      as (competitors & g1 & Es & Hl & rest & P); [lia|].
    rewrite (bind_step _ _ _ _ _ Es).
    assert (Hin : incl competitors population).
    { intros x Hx. apply (Permutation_in _ P). apply in_or_app. now left. }
    destruct (sort_population_head competitors) as (h & t & Eh & Ih & Hh).
    { eapply weak_order_on_incl; [exact Hin|exact W]. }
    { intros E. rewrite E in Hl. simpl in Hl. lia. }
    rewrite Eh. unfold lift at 1.
    change (index (h :: t) 0) with (Ok h) at 1.
    rewrite (bind_step _ _ g1 g1 h) by reflexivity.
    destruct (IH (winners ++ [h]) g1) as (ws & g' & E & Hlen & Hall).
    { apply Forall_app. split; [exact Hw|]. constructor; [|constructor].
      exists competitors, rest. auto. }
    exists ws, g'. split; [exact E|]. split; [|exact Hall].
    rewrite Hlen, length_app. simpl. lia.
Qed.

(** X12: With a tournament size between one and the size of the population,
    [tournament_selection] returns [population_size] winners, and each of
    them is the best of [tournament_size] competitors drawn at distinct
    positions of the population.  No fitness at hand is a NaN. *)
Theorem tournament_selection_winners (population : list Individual)
  (param : Params) (g : rng) :
  1 <= tournament_size param <= Z.of_nat (List.length population) ->
  nan_free population ->
  exists winners g',
    tournament_selection population param g = Ok (winners, g') /\
    List.length winners = Z.to_nat (population_size param) /\
    Forall (tournament_winner population (tournament_size param)) winners.
Proof.
  intros Hts N. unfold tournament_selection.
  destruct (tournament_loop_spec population param Hts (nan_free_weak_order _ N)
              (Z.to_nat (population_size param)) [] g)
    as (ws & g' & E & Hl & Hall); [constructor|].
  exists ws, g'. auto.
Qed.

Lemma tournament_selection_winners_witness :
  exists winners g',
    tournament_selection example_population example_param (fun _ => 0)
    = Ok (winners, g') /\
    List.length winners = Z.to_nat (population_size example_param) /\
    Forall (tournament_winner example_population (tournament_size example_param))
      winners.
Proof.
  apply (tournament_selection_winners example_population example_param
           (fun _ => 0)).
  - simpl. lia.
  - exact example_population_nan_free.
Defined.

(** X13: The edges of [tournament_selection]: when winners are asked for, a
    tournament size of zero fails with the [IndexError] of the first
    element of an empty ranking, and a tournament size that is negative or
    above the size of the population fails with the [ValueError] of the
    sample; when no winner is asked for, nothing is drawn. *)
Theorem tournament_selection_edges (population : list Individual)
  (param : Params) (g : rng) :
  (1 <= population_size param -> tournament_size param = 0 ->
   tournament_selection population param g = Err IndexError) /\
  (1 <= population_size param ->
   tournament_size param < 0 \/
   Z.of_nat (List.length population) < tournament_size param ->
   tournament_selection population param g = Err ValueError) /\
  (population_size param <= 0 ->
   tournament_selection population param g = Ok ([], g)).
Proof.
  unfold tournament_selection. repeat split.
  - intros Hp Ht.
    replace (Z.to_nat (population_size param))
      with (S (Z.to_nat (population_size param - 1))) by lia.
    cbn [tournament_loop]. rewrite Ht. unfold bind at 1.
    rewrite sample_zero. reflexivity.
  - intros Hp Ht.
    replace (Z.to_nat (population_size param))
      with (S (Z.to_nat (population_size param - 1))) by lia.
    cbn [tournament_loop]. unfold bind at 1.
    now rewrite (sample_error population _ g Ht).
  - intros Hp.
    replace (Z.to_nat (population_size param)) with 0%nat by lia.
    reflexivity.
Qed.

(** ** Replacement *)

Lemma slice_to_length {A : Type} (l : list A) (k : Z) :
  0 <= k -> List.length (slice_to l k) = Nat.min (Z.to_nat k) (List.length l).
Proof.
  intros Hk. unfold slice_to. destruct (Z.ltb_spec k 0); [lia|].
  apply length_firstn.
Qed.

Lemma StronglySorted_app_inv {A : Type} (R : A -> A -> Prop) (l1 l2 : list A) :
  StronglySorted R (l1 ++ l2) ->
  StronglySorted R l1 /\ forall x y, In x l1 -> In y l2 -> R x y.
Proof.
  induction l1 as [|a l1 IH]; simpl; intros H.
  - split; [constructor|]. intros x y [].
  - apply StronglySorted_inv in H. destruct H as [Hs Ha].
    destruct (IH Hs) as [H1 H2]. apply Forall_app in Ha. destruct Ha as [Ha1 Ha2].
    split; [now constructor|].
    intros x y [<-|Hx] Hy; [|now apply H2].
    rewrite Forall_forall in Ha2. now apply Ha2.
Qed.

(** X14: [generational_replacement] truncates the ranking of the new population
    and the elite: with sizes that are not negative, it keeps
    [population_size] individuals, or all of them if there are fewer, in
    descending order of fitness, and none of those it drops is above one
    it keeps.  No fitness at hand is a NaN. *)
Theorem generational_replacement_truncates
  (new_population old_population : list Individual) (param : Params) :
  0 <= elite_size param ->
  0 <= population_size param ->
  nan_free (new_population ++ old_population) ->
  List.length (generational_replacement new_population old_population param)
  = Nat.min (Z.to_nat (population_size param))
      (List.length new_population
       + Nat.min (Z.to_nat (elite_size param)) (List.length old_population)) /\
  descending (generational_replacement new_population old_population param) /\
  exists dropped,
    Permutation
      (generational_replacement new_population old_population param ++ dropped)
      (new_population
       ++ slice_to (sort_population old_population) (elite_size param)) /\
    forall x y,
      In x (generational_replacement new_population old_population param) ->
      In y dropped -> below x y = false.
Proof.
  intros He Hp N. apply nan_free_weak_order in N.
  unfold generational_replacement.
  set (elite := slice_to (sort_population old_population) (elite_size param)).
  set (combined := new_population ++ elite).
  assert (Hel : List.length elite
                = Nat.min (Z.to_nat (elite_size param)) (List.length old_population)).
  { unfold elite. rewrite slice_to_length by exact He.
    now rewrite (Permutation_length (sort_population_perm old_population)). }
  assert (Hinc : incl combined (new_population ++ old_population)).
  { intros x Hx. apply in_app_or in Hx. apply in_or_app.
    destruct Hx as [Hx|Hx]; [now left|right].
    apply slice_to_incl in Hx.
    now apply (Permutation_in _ (sort_population_perm old_population)). }
  assert (D : descending (sort_population combined)).
  { apply sort_population_sorted. eapply weak_order_on_incl; [exact Hinc|exact N]. }
  assert (Es : slice_to (sort_population combined) (population_size param)
               = firstn (Z.to_nat (population_size param)) (sort_population combined)).
  { unfold slice_to. destruct (Z.ltb_spec (population_size param) 0); [lia|].
    reflexivity. }
  rewrite <- (firstn_skipn (Z.to_nat (population_size param))
                (sort_population combined)) in D.
  apply StronglySorted_app_inv in D. destruct D as [D1 D2].
  split; [|split].
  - rewrite slice_to_length by exact Hp.
    rewrite (Permutation_length (sort_population_perm combined)).
    unfold combined. now rewrite length_app, Hel.
  - rewrite Es. exact D1.
  - exists (skipn (Z.to_nat (population_size param)) (sort_population combined)).
    rewrite Es. split; [|exact D2].
    rewrite firstn_skipn. apply sort_population_perm.
Qed.

Lemma generational_replacement_truncates_witness :
  List.length
    (generational_replacement example_population example_population example_param)
  = Nat.min (Z.to_nat (population_size example_param))
      (List.length example_population
       + Nat.min (Z.to_nat (elite_size example_param))
           (List.length example_population)) /\
  descending
    (generational_replacement example_population example_population example_param) /\
  exists dropped,
    Permutation
      (generational_replacement example_population example_population
         example_param ++ dropped)
      (example_population
       ++ slice_to (sort_population example_population)
            (elite_size example_param)) /\
    forall x y,
      In x (generational_replacement example_population example_population
              example_param) ->
      In y dropped -> below x y = false.
Proof.
  apply (generational_replacement_truncates example_population
           example_population example_param).
  - simpl. lia.
  - simpl. lia.
  - intros x Hx. apply in_app_or in Hx.
    destruct Hx as [Hx|Hx]; now apply example_population_nan_free.
Defined.

(** ** One generation *)

Lemma crossover_loop_length :
  forall (n : nat) (parents : list Individual) (param : Params)
         (new_population l : list Individual) (g g' : rng),
    crossover_loop n parents param new_population g = Ok (l, g') ->
    population_size param <= Z.of_nat (List.length l).
Proof.
  induction n as [|n IH]; intros parents param acc l g g' H.
  - cbn [crossover_loop] in H.
    destruct (Z.ltb_spec (Z.of_nat (List.length acc)) (population_size param)).
    + discriminate.
    + unfold ret in H. injection H as <- _. exact H0.
  - cbn [crossover_loop] in H.
    destruct (Z.ltb_spec (Z.of_nat (List.length acc)) (population_size param)).
    + apply bind_Ok in H. destruct H as (ps & g1 & _ & H).
      apply bind_Ok in H. destruct H as (p0 & g2 & _ & H).
      apply bind_Ok in H. destruct H as (p1 & g3 & _ & H).
      apply bind_Ok in H. destruct H as (ch & g4 & _ & H).
      now apply IH in H.
    + unfold ret in H. injection H as <- _. exact H0.
Qed.

Lemma mutation_loop_length (fuel : nat) (param : Params) :
  forall (new_population l : list Individual) (g g' : rng),
    mutation_loop fuel new_population param g = Ok (l, g') ->
    List.length l = List.length new_population.
Proof.
  induction new_population as [|ind rest IH]; intros l g g' H.
  - unfold mutation_loop, ret in H. injection H as <- _. reflexivity.
  - cbn [mutation_loop] in H.
    apply bind_Ok in H. destruct H as (ind' & g1 & _ & H).
    apply bind_Ok in H. destruct H as (rest' & g2 & Hr & H).
    unfold ret in H. injection H as <- _. simpl. f_equal. now apply IH in Hr.
Qed.

Lemma evaluate_fitness_genomes (param : Params) :
  forall (individuals l : list Individual),
    evaluate_fitness individuals param = Ok l ->
    map genome l = map genome individuals.
Proof.
  induction individuals as [|ind rest IH]; intros l H.
  - simpl in H. injection H as <-. reflexivity.
  - cbn [evaluate_fitness] in H.
    unfold evaluate_individual in H.
    destruct (rbind (sum_squared_errors _ _ _) _) as [f|e]; [|discriminate].
    destruct (evaluate_fitness rest param) as [rest'|e]; [|discriminate].
    cbn [rbind] in H. injection H as <-. cbn [map genome].
    f_equal. now apply IH.
Qed.

(** X15: A generation that completes returns exactly [population_size]
    individuals, however many it started from and whatever the elite
    size. *)
Theorem generation_keeps_population_size (fuel : nat)
  (population population' : list Individual) (param : Params) (g g' : rng) :
  0 <= population_size param ->
  generation fuel population param g = Ok (population', g') ->
  Z.of_nat (List.length population') = population_size param.
Proof.
  intros Hp H. unfold generation in H.
  apply bind_Ok in H. destruct H as (parents & g1 & _ & H).
  apply bind_Ok in H. destruct H as (new1 & g2 & Hc & H).
  apply bind_Ok in H. destruct H as (new2 & g3 & Hm & H).
  apply bind_Ok in H. destruct H as (new3 & g4 & He & H).
  unfold ret in H. injection H as <- _.
  apply crossover_loop_length in Hc. apply mutation_loop_length in Hm.
  unfold lift in He.
  destruct (evaluate_fitness new2 param) as [l|e] eqn:Ef; [|discriminate].
  injection He as -> _. apply evaluate_fitness_genomes in Ef.
  apply (f_equal (@List.length tree)) in Ef. rewrite !length_map in Ef.
  rewrite slice_to_length in Hm by exact Hp.
  unfold generational_replacement.
  rewrite slice_to_length by exact Hp.
  rewrite (Permutation_length (sort_population_perm _)), length_app.
  lia.
Qed.

Lemma generation_single_fails (fuel : nat) (population : list Individual)
  (param : Params) (g : rng) :
  population_size param = 1 ->
  exists e, generation fuel population param g = Err e.
Proof.
  intros Hp. unfold generation, tournament_selection. rewrite Hp.
  change (Z.to_nat 1) with 1%nat. cbn [tournament_loop].
  unfold bind at 1. unfold bind at 1.
  destruct (sample population (tournament_size param) g) as [[competitors g1]|e];
    [|eauto].
  unfold bind at 1.
  destruct (lift (index (sort_population competitors) 0) g1) as [[best g2]|e];
    [|eauto].
  unfold ret at 1. cbn [crossover_loop]. rewrite Hp.
  exists ValueError. reflexivity.
Qed.

(** X16: With a population size of one the search never returns: a generation
    selects one parent and then asks for a sample of two, so every search
    of at least one generation ends in an exception, whatever the
    population and the random numbers. *)
Theorem search_loop_single_individual_fails (fuel : nat)
  (population : list Individual) (param : Params) (g : rng) :
  population_size param = 1 ->
  1 <= generations param ->
  exists e, search_loop fuel population param g = Err e.
Proof.
  intros Hp Hg. unfold search_loop. unfold bind at 1.
  destruct (lift (evaluate_fitness population param) g) as [[pop g1]|e];
    [|eauto].
  replace (Z.to_nat (generations param))
    with (S (Z.to_nat (generations param - 1))) by lia.
  cbn [generation_loop]. unfold bind at 1.
  destruct (generation_single_fails fuel pop param g1 Hp) as [e E].
  rewrite E. eauto.
Qed.

Lemma search_loop_single_individual_fails_witness :
  exists e, search_loop 3 example_population single_param (fun _ => 0) = Err e.
Proof.
  apply (search_loop_single_individual_fails 3 example_population single_param
           (fun _ => 0)).
  - reflexivity.
  - simpl. lia.
Defined.

(** ** Evaluation of well-formed trees *)

Lemma get_arities_symbol (s : string) (a : nat) :
  dict_get (arities get_arities) s = Some a ->
  (a = 0%nat /\ (s = "1" \/ s = "x0" \/ s = "x1")) \/
  (a = 2%nat /\ (s = "+" \/ s = "-" \/ s = "*" \/ s = "/")).
Proof.
  intros H. apply dict_get_In in H. cbn in H.
  repeat (destruct H as [H|H]; [injection H as <- <-; tauto|]).
  destruct H.
Qed.

Lemma index_in_range {A : Type} (l : list A) (i : Z) :
  0 <= i < Z.of_nat (List.length l) -> exists x, index l i = Ok x.
Proof.
  intros H. unfold index.
  destruct (Z.ltb_spec i 0); [lia|].
  destruct (Z.ltb_spec i 0); [lia|].
  destruct (Z.leb_spec (Z.of_nat (List.length l)) i); [lia|]. cbn [orb].
  destruct (nth_error l (Z.to_nat i)) as [x|] eqn:E; [eauto|].
  apply nth_error_None in E. lia.
Qed.

Lemma index_out_of_range {A : Type} (l : list A) (i : Z) :
  Z.of_nat (List.length l) <= i -> index l i = Err IndexError.
Proof.
  intros H. unfold index.
  destruct (Z.ltb_spec i 0); [lia|].
  destruct (Z.ltb_spec i 0); [lia|].
  destruct (Z.leb_spec (Z.of_nat (List.length l)) i); [|lia]. reflexivity.
Qed.

Lemma eval_children_two (ev : tree -> result float) (c1 c2 : tree)
  (k : float -> float -> result float) :
  (forall a b, exists v, k a b = Ok v) ->
  (exists v, ev c1 = Ok v) \/ ev c1 = Err IndexError ->
  (exists v, ev c2 = Ok v) \/ ev c2 = Err IndexError ->
  (exists v, eval_children ev [c1; c2] k = Ok v) \/
  eval_children ev [c1; c2] k = Err IndexError.
Proof.
  intros Hk [[a H1]|H1] H2; unfold eval_children; rewrite H1; cbn [rbind];
    [|now right].
  destruct H2 as [[b H2]|H2]; rewrite H2; cbn [rbind]; [|now right].
  left. apply Hk.
Qed.

Lemma evaluate_cases (case : list float) (t : tree) :
  arity_invariant get_arities t = true ->
  (exists v, evaluate t case = Ok v) \/
  (evaluate t case = Err IndexError /\ (List.length case < 2)%nat).
Proof.
  induction t as [s cs IH] using tree_forall_ind. intros H.
  apply arity_invariant_Node in H. destruct H as [Hs Hcs].
  assert (Hweak : forall c, In c cs ->
            (exists v, evaluate c case = Ok v) \/ evaluate c case = Err IndexError).
  { intros c Hc. rewrite Forall_forall in IH, Hcs.
    destruct (IH c Hc (Hcs c Hc)) as [K|[K _]]; auto. }
  assert (Hshort : forall c, In c cs -> evaluate c case = Err IndexError ->
            (List.length case < 2)%nat).
  { intros c Hc E. rewrite Forall_forall in IH, Hcs.
    destruct (IH c Hc (Hcs c Hc)) as [[v K]|[_ K]]; [congruence|exact K]. }
  destruct (get_arities_symbol s _ Hs) as [[Ha Hsym]|[Ha Hsym]].
  - destruct cs; [|discriminate].
    destruct Hsym as [->|[->| ->]].
    + left. exists 1%float. reflexivity.
    + change (evaluate (Node "x0" []) case) with (index case 0).
      destruct case as [|a case'].
      * right. split; [reflexivity|simpl; lia].
      * left. exists a. reflexivity.
    + change (evaluate (Node "x1" []) case) with (index case 1).
      destruct (Z.leb_spec (Z.of_nat (List.length case)) 1) as [Hl|Hl].
      * right. split; [now apply index_out_of_range|lia].
      * left. apply index_in_range. lia.
  - destruct cs as [|c1 [|c2 [|c3 cs]]]; try discriminate.
    assert (H1 := Hweak c1 (or_introl eq_refl)).
    assert (H2 := Hweak c2 (or_intror (or_introl eq_refl))).
    assert (K : (exists v, evaluate (Node s [c1; c2]) case = Ok v) \/
                evaluate (Node s [c1; c2]) case = Err IndexError).
    { destruct Hsym as [->|[->|[->| ->]]];
        cbn [evaluate]; cbn [String.eqb Ascii.eqb Bool.eqb];
        apply eval_children_two; auto; intros x y;
        (apply protected_divide_total || (eexists; reflexivity)). }
    destruct K as [K|K]; [now left|right]. split; [exact K|].
    destruct H1 as [[x E1]|E1]; [|now apply (Hshort c1 (or_introl eq_refl))].
    destruct H2 as [[y E2]|E2];
      [|now apply (Hshort c2 (or_intror (or_introl eq_refl)))].
    exfalso.
    destruct Hsym as [->|[->|[->| ->]]];
      cbn [evaluate] in K; cbn [String.eqb Ascii.eqb Bool.eqb] in K;
      unfold eval_children in K; rewrite E1, E2 in K; cbn [rbind] in K;
      try discriminate.
    destruct (protected_divide_total x y) as [v Ev]. congruence.
Qed.

(** X17: A tree over the symbols of [get_arities] in which every node has as
    many children as its symbol's arity evaluates without error on every
    case of at least two values; on a shorter case it either evaluates or
    fails with the [IndexError] of a variable the case does not hold, and
    with no other exception.  In particular no division fails. *)
Theorem evaluate_well_formed (t : tree) (case : list float) :
  arity_invariant get_arities t = true ->
  ((2 <= List.length case)%nat -> exists v, evaluate t case = Ok v) /\
  ((exists v, evaluate t case = Ok v) \/ evaluate t case = Err IndexError).
Proof.
  intros H. destruct (evaluate_cases case t H) as [K|[K L]].
  - split; [intros _; exact K|now left].
  - split; [lia|now right].
Qed.

Lemma evaluate_well_formed_witness :
  ((2 <= List.length [1%float; 2%float])%nat ->
   exists v, evaluate nested_tree [1%float; 2%float] = Ok v) /\
  ((exists v, evaluate nested_tree [1%float; 2%float] = Ok v) \/
   evaluate nested_tree [1%float; 2%float] = Err IndexError).
Proof.
  apply (evaluate_well_formed nested_tree [1%float; 2%float]).
  reflexivity.
Defined.

(** X18: The children that [find_and_replace_subtree] leaves behind the new ones
    are never read: a node spliced from a well-formed subtree evaluates as
    the subtree itself does. *)
Theorem evaluate_ignores_stale_children (subtree old : tree)
  (case : list float) :
  arity_invariant get_arities subtree = true ->
  evaluate (spliced subtree old) case = evaluate subtree case.
Proof.
  intros H. destruct subtree as [s cs].
  apply arity_invariant_Node in H. destruct H as [Hs _].
  destruct (get_arities_symbol s _ Hs) as [[Ha Hsym]|[Ha Hsym]].
  - destruct cs; [|discriminate].
    destruct Hsym as [->|[->| ->]]; reflexivity.
  - destruct cs as [|c1 [|c2 [|c3 cs]]]; try discriminate.
    destruct Hsym as [->|[->|[->| ->]]]; reflexivity.
Qed.

Lemma evaluate_ignores_stale_children_witness :
  evaluate (spliced sum_tree nested_tree) [1%float; 2%float]
  = evaluate sum_tree [1%float; 2%float].
Proof.
  apply (evaluate_ignores_stale_children sum_tree nested_tree
           [1%float; 2%float]).
  reflexivity.
Defined.

Lemma generation_keeps_population_size_witness :
  exists population' g',
    generation 3 example_population example_param (fun _ => 0)
    = Ok (population', g') /\
    Z.of_nat (List.length population') = population_size example_param.
Proof.
  eexists. exists (fun _ => 0). split; [vm_compute; reflexivity|].
  apply (generation_keeps_population_size 3 example_population _ example_param
           (fun _ => 0) (fun _ => 0)); [simpl; lia|vm_compute; reflexivity].
Defined.

(** ** The full method *)






(** ** Ramped initialisation *)

Lemma initialize_loop_ramped (fuel : nat) (param : Params) :
  wf_symbols (symbols param) ->
  functions (symbols param) <> [] ->
  1 <= max_depth param ->
  (Z.to_nat (max_depth param) + 1 <= fuel)%nat ->
  forall n individuals g,
    (forall k ind, nth_error individuals k = Some ind -> ramped_ok param k ind) ->
    exists population g',
      initialize_loop fuel n (Z.of_nat (List.length individuals)) param
        individuals g = Ok (population, g') /\
      List.length population = (List.length individuals + n)%nat /\
      forall k ind, nth_error population k = Some ind -> ramped_ok param k ind.
Proof.
  intros W HF Hm Hfuel. induction n as [|n IH]; intros individuals g Hall.
  - exists individuals, g. split; [reflexivity|]. split; [lia|exact Hall].
  - cbn [initialize_loop].
    destruct (getrandbits1_Ok g) as (full & Ef).
    rewrite (bind_step _ _ _ _ _ Ef).
    destruct (Z.eqb_spec (max_depth param) 0) as [E0|_]; [lia|].
    set (i := List.length individuals) in *.
    pose proof (Z.mod_pos_bound (Z.of_nat i) (max_depth param) ltac:(lia)) as Hmod.
    set (md := Z.of_nat i mod max_depth param + 1) in *.
    destruct (get_rnd_symbol_spec (symbols param) 1 md false (fun k => g (S k)))
      as (s & g2 & Es & Hs); [apply W|now left|].
    rewrite (bind_step _ _ _ _ _ Es).
    assert (Htree : exists tree g3,
               (if (0 <? md) && in_list s (functions (symbols param))
                then grow fuel (Node s []) 1 md full (symbols param)
                else ret (Node s [])) g2 = Ok (tree, g3) /\
               ramped_ok param i {| genome := tree; fitness := DEFAULT_FITNESS |}).
    { destruct Hs as [T|[Hd F]].
      - rewrite (terminal_not_function _ _ W T), andb_false_r.
        exists (Node s []), g2. split; [reflexivity|].
        split; [reflexivity|]. split; [|split].
        + cbn [genome]. apply arity_invariant_Node. split; [|constructor].
          now apply (wf_terminals _ W).
        + cbn [genome]. rewrite get_max_depth_height. simpl. lia.
        + reflexivity.
      - rewrite (proj2 (in_list_In _ _) F).
        destruct (Z.ltb_spec 0 md); [|lia]. cbn [andb].
        apply (wf_functions _ W) in F. destruct F as (a & Ha & _).
        destruct (grow_spec (symbols param) md full W fuel (Node s []) 1 a g2 Ha)
          as (new & g3 & Eg & Hl & HQ).
        { right.
          assert (Z.to_nat (md - 1) < Z.to_nat (max_depth param))%nat
            by (apply Z2Nat.inj_lt; lia).
          lia. }
        simpl in Eg. exists (Node s new), g3. split; [exact Eg|].
        split; [reflexivity|]. split; [|split].
        + cbn [genome]. apply arity_invariant_Node. rewrite Hl.
          split; [exact Ha|].
          eapply Forall_impl; [|exact HQ]. intros c [Hc _]. exact Hc.
        + cbn [genome]. rewrite get_max_depth_height.
          assert (Hh : (height (Node s new) <= Z.to_nat md)%nat).
          { apply height_le. eapply Forall_impl; [|exact HQ].
            intros c [_ Hc]. simpl in Hc. lia. }
          fold md. lia.
        + intros Hz. unfold md in Hd. lia. }
    destruct Htree as (tree & g3 & Et & Hok).
    rewrite (bind_step _ _ _ _ _ Et).
    set (x := {| genome := tree; fitness := DEFAULT_FITNESS |}) in *.
    replace (Z.of_nat i + 1) with (Z.of_nat (List.length (individuals ++ [x])))
      by (rewrite length_app; simpl; lia).
    destruct (IH (individuals ++ [x]) g3) as (population & g' & E & Hl & HP).
    { intros k ind Hk.
      destruct (Nat.lt_ge_cases k i) as [Hlt|Hge].
      - rewrite nth_error_app1 in Hk by exact Hlt. now apply Hall.
      - rewrite nth_error_app2 in Hk by exact Hge. fold i in Hk.
        destruct (k - i)%nat as [|d] eqn:Ed.
        + cbn in Hk. injection Hk as <-.
          replace k with i by lia. exact Hok.
        + cbn in Hk. destruct d; discriminate. }
    exists population, g'. split; [exact E|]. split; [|exact HP].
    rewrite Hl, length_app. simpl. lia.
Qed.

(** X20: Ramped initialisation: with symbols that are well formed, a function
    to pick, [max_depth >= 1] and a recursion budget above it,
    [initialize_population] returns [population_size] individuals; the
    individual at position [i] has the default fitness, as many children
    at every node as its symbol's arity, and a depth of at most
    [i % max_depth + 1]; where [i % max_depth] is zero it is a single
    node. *)
Theorem initialize_population_ramped (fuel : nat) (param : Params) (g : rng) :
  wf_symbols (symbols param) ->
  functions (symbols param) <> [] ->
  1 <= max_depth param ->
  (Z.to_nat (max_depth param) + 1 <= fuel)%nat ->
  exists population g',
    initialize_population fuel param g = Ok (population, g') /\
    List.length population = Z.to_nat (population_size param) /\
    forall i ind, nth_error population i = Some ind -> ramped_ok param i ind.
Proof.
  intros W HF Hm Hfuel. unfold initialize_population.
  apply (initialize_loop_ramped fuel param W HF Hm Hfuel
           (Z.to_nat (population_size param)) [] g).
  intros k ind Hk. destruct k; discriminate.
Qed.

Lemma initialize_population_ramped_witness :
  exists population g',
    initialize_population 3 example_param (fun _ => 0) = Ok (population, g') /\
    List.length population = Z.to_nat (population_size example_param) /\
    forall i ind,
      nth_error population i = Some ind -> ramped_ok example_param i ind.
Proof.
  apply (initialize_population_ramped 3 example_param (fun _ => 0)).
  - exact get_arities_wf.
  - discriminate.
  - simpl. lia.
  - simpl. lia.
Defined.

(** X21: The edges of [initialize_population]: a [max_depth] of zero fails with
    the [ZeroDivisionError] of the ramp as soon as one individual is asked
    for, and a population size that is not positive gives the empty
    population without drawing a number. *)
Theorem initialize_population_edges (fuel : nat) (param : Params) (g : rng) :
  (1 <= population_size param -> max_depth param = 0 ->
   initialize_population fuel param g = Err ZeroDivisionError) /\
  (population_size param <= 0 ->
   initialize_population fuel param g = Ok ([], g)).
Proof.
  unfold initialize_population. split.
  - intros Hp Hm.
    replace (Z.to_nat (population_size param))
      with (S (Z.to_nat (population_size param - 1))) by lia.
    cbn [initialize_loop]. unfold bind at 1.
    destruct (getrandbits1_Ok g) as (full & ->). now rewrite Hm.
  - intros Hp.
    replace (Z.to_nat (population_size param)) with 0%nat by lia.
    reflexivity.
Qed.

(** ** What a mutation can do to the tree *)

(** X22: Because the depth lookup answers 0 for every node but the root, a
    mutation away from the root only ever draws a terminal: whenever
    [subtree_mutation] returns, the genome is either as it was, or the
    root spliced with a new subtree, or the old tree with the symbol of
    one node replaced by a terminal and that node's children kept. *)
Theorem subtree_mutation_relabels_below_root (fuel : nat)
  (individual individual' : Individual) (param : Params) (g g' : rng) :
  wf_symbols (symbols param) ->
  subtree_mutation fuel individual param g = Ok (individual', g') ->
  genome individual' = genome individual \/
  (exists new_subtree,
      genome individual' = spliced new_subtree (genome individual)) \/
  (exists q old s,
      subtree_at (genome individual) q = Some old /\
      In s (terminals (symbols param)) /\
      genome individual'
      = replace_at (genome individual) q (Node s (children_of old))).
Proof.
  intros W H. unfold subtree_mutation in H.
  apply bind_Ok in H. destruct H as (r & g1 & _ & H).
  destruct (PrimFloat.ltb r (mutation_probability param)).
  - apply bind_Ok in H. destruct H as (k & g2 & Hk & H).
    apply bind_Ok in H. destruct H as (s & g3 & Hs & H).
    apply bind_Ok in H. destruct H as (new_subtree & g4 & Hn & H).
    unfold ret in H. injection H as <- _. cbn [genome].
    set (root := genome individual) in *.
    apply randint_range in Hk. rewrite get_number_of_nodes_size in Hk.
    destruct (find_and_replace_position new_subtree k root [] (-1)) as [_ B].
    replace (k - (-1 + 1)) with k in B by lia.
    destruct B as (q & old & Hnth & _ & Hr); [lia|]. cbn [app] in Hnth.
    destruct (Z.eq_dec k 0) as [->|Hk0].
    + right. left. exists new_subtree. rewrite Hr.
      destruct root as [s0 cs0]. cbn in Hnth. injection Hnth as <- <-.
      reflexivity.
    + right. right.
      rewrite get_depth_from_index_nonzero in Hs by exact Hk0.
      unfold get_rnd_symbol in Hs.
      destruct (Z.leb_spec (max_depth param) (max_depth param - 0)); [|lia].
      apply choice_Ok_In in Hs.
      rewrite (terminal_not_function _ _ W Hs) in Hn.
      unfold ret in Hn. injection Hn as <- _.
      exists q, old, s. split; [|split; [exact Hs|exact Hr]].
      pose proof (preorder_refs_valid root root [] eq_refl) as V.
      rewrite Forall_forall in V.
      apply (V _ (nth_error_In _ _ Hnth)).
  - unfold ret in H. injection H as <- _. now left.
Qed.

Lemma subtree_mutation_relabels_below_root_witness :
  genome (example_individual mutated_nested_tree)
  = genome (example_individual nested_tree) \/
  (exists new_subtree,
      genome (example_individual mutated_nested_tree)
      = spliced new_subtree (genome (example_individual nested_tree))) \/
  (exists q old s,
      subtree_at (genome (example_individual nested_tree)) q = Some old /\
      In s (terminals (symbols example_param)) /\
      genome (example_individual mutated_nested_tree)
      = replace_at (genome (example_individual nested_tree)) q
          (Node s (children_of old))).
Proof.
  apply (subtree_mutation_relabels_below_root 3
           (example_individual nested_tree)
           (example_individual mutated_nested_tree)
           example_param (fun _ => 0) (fun _ => 0)).
  - exact get_arities_wf.
  - reflexivity.
Defined.

(** ** Test and training data *)

Lemma slice_to_from {A : Type} (l : list A) (k : Z) :
  slice_to l k ++ slice_from l k = l.
Proof.
  unfold slice_to, slice_from. destruct (k <? 0); apply firstn_skipn.
Qed.

Lemma slice_to_length_eq {A B : Type} (l : list A) (l' : list B) (k : Z) :
  List.length l = List.length l' ->
  List.length (slice_to l k) = List.length (slice_to l' k).
Proof.
  intros H. unfold slice_to. rewrite H.
  destruct (k <? 0); rewrite !length_firstn; lia.
Qed.

(** X23: The split into test and training data loses and repeats nothing:
    whenever [get_test_and_train_data] returns, the training cases followed
    by the test cases are the exemplars' cases in their order, likewise for
    the targets, and with as many targets as cases every training case and
    every test case has its target. *)
Theorem get_test_and_train_data_partitions
  (fitness_cases : list (list float)) (targets : list float)
  (test_train_split : float)
  (test train : list (list float) * list float) :
  get_test_and_train_data (fitness_cases, targets) test_train_split
  = inl (test, train) ->
  fst train ++ fst test = fitness_cases /\
  snd train ++ snd test = targets /\
  (List.length fitness_cases = List.length targets ->
   List.length (fst train) = List.length (snd train) /\
   List.length (fst test) = List.length (snd test)).
Proof.
  unfold get_test_and_train_data.
  destruct (py_floor _) as [split_idx|e]; [|discriminate].
  intros [= <- <-]. cbn [fst snd].
  split; [apply slice_to_from|]. split; [apply slice_to_from|].
  intros Hl.
  pose proof (slice_to_length_eq fitness_cases targets split_idx Hl) as H1.
  split; [exact H1|].
  pose proof (f_equal (@List.length _) (slice_to_from fitness_cases split_idx)) as H2.
  pose proof (f_equal (@List.length _) (slice_to_from targets split_idx)) as H3.
  rewrite length_app in H2, H3. lia.
Qed.

Lemma get_test_and_train_data_partitions_witness :
  fst example_training ++ fst example_test = fst example_exemplars /\
  snd example_training ++ snd example_test = snd example_exemplars /\
  (List.length (fst example_exemplars) = List.length (snd example_exemplars) ->
   List.length (fst example_training) = List.length (snd example_training) /\
   List.length (fst example_test) = List.length (snd example_test)).
Proof.
  apply (get_test_and_train_data_partitions (fst example_exemplars)
           (snd example_exemplars) 0x1.6666666666666p-1%float
           example_test example_training).
  vm_compute. reflexivity.
Defined.

(** ** The invariant of variation *)

Lemma enough_children_Node (sy : symbol_table) (s : string) (cs : list tree) :
  enough_children sy (Node s cs) = true <->
  exists a,
    dict_get (arities sy) s = Some a /\ (a <= List.length cs)%nat /\
    Forall (fun c => enough_children sy c = true) cs.
Proof.
  cbn [enough_children]. destruct (dict_get (arities sy) s) as [a|].
  - rewrite andb_true_iff, Nat.leb_le, forallb_forall. split.
    + intros [H1 H2]. exists a. rewrite Forall_forall. auto.
    + intros (a' & [= <-] & H1 & H2). rewrite Forall_forall in H2. auto.
  - split; [discriminate|]. intros (a & H & _). discriminate.
Qed.

Lemma arity_invariant_enough (sy : symbol_table) (t : tree) :
  arity_invariant sy t = true -> enough_children sy t = true.
Proof.
  induction t as [s cs IH] using tree_forall_ind. intros H.
  apply arity_invariant_Node in H. destruct H as [Ha Hcs].
  apply enough_children_Node. exists (List.length cs).
  split; [exact Ha|]. split; [lia|].
  rewrite Forall_forall in *. auto.
Qed.

Lemma enough_children_replace_at (sy : symbol_table) (new : tree) (p : path) :
  enough_children sy new = true ->
  forall t, enough_children sy t = true ->
            enough_children sy (replace_at t p new) = true.
Proof.
  intros Hnew. induction p as [|i p IH]; intros t Ht; [exact Hnew|].
  destruct t as [s cs]. cbn [replace_at symbol_of children_of].
  apply enough_children_Node in Ht. destruct Ht as (a & Ha & Hle & Hcs).
  apply enough_children_Node. exists a. rewrite update_nth_length.
  split; [exact Ha|]. split; [exact Hle|].
  apply update_nth_Forall; auto.
Qed.

Lemma enough_children_subtree_at (sy : symbol_table) (p : path) :
  forall t n, enough_children sy t = true ->
              subtree_at t p = Some n ->
              enough_children sy n = true.
Proof.
  induction p as [|i p IH]; intros t n Ht Hn.
  - injection Hn as <-. exact Ht.
  - cbn [subtree_at] in Hn. destruct t as [s cs]. cbn [children_of] in Hn.
    destruct (nth_error cs i) as [c|] eqn:E; [|discriminate].
    apply enough_children_Node in Ht. destruct Ht as (a & _ & _ & Hcs).
    rewrite Forall_forall in Hcs. apply (IH c n); [|exact Hn].
    apply Hcs. eapply nth_error_In. exact E.
Qed.

Lemma enough_children_spliced (sy : symbol_table) (subtree old : tree) :
  enough_children sy subtree = true ->
  enough_children sy old = true ->
  enough_children sy (spliced subtree old) = true.
Proof.
  intros Hs Ho. destruct subtree as [s cs]. destruct old as [so cso].
  apply enough_children_Node in Hs. destruct Hs as (a & Ha & Hle & Hcs).
  apply enough_children_Node in Ho. destruct Ho as (ao & _ & _ & Hcso).
  unfold spliced. cbn [symbol_of children_of].
  apply enough_children_Node. exists a. split; [exact Ha|].
  split; [rewrite length_app; lia|]. apply Forall_app. auto.
Qed.

Lemma enough_children_declared (sy : symbol_table) (t : tree) :
  enough_children sy t = true -> all_declared (arities sy) t = true.
Proof.
  induction t as [s cs IH] using tree_forall_ind. intros H.
  apply enough_children_Node in H. destruct H as (a & Ha & _ & Hcs).
  cbn [all_declared]. rewrite Ha. apply forallb_forall.
  rewrite Forall_forall in *. auto.
Qed.

Lemma find_and_replace_enough (sy : symbol_table) (root subtree : tree)
  (node_idx : Z) :
  enough_children sy root = true ->
  enough_children sy subtree = true ->
  enough_children sy (snd (find_and_replace_subtree root subtree node_idx (-1)))
  = true.
Proof.
  intros Hr Hs.
  destruct (find_and_replace_position subtree node_idx root [] (-1)) as [A B].
  replace (node_idx - (-1 + 1)) with node_idx in A, B by lia.
  destruct (Z.lt_ge_cases node_idx 0) as [Hn|Hn]; [rewrite A by lia; exact Hr|].
  destruct (Z.lt_ge_cases node_idx (Z.of_nat (size root))) as [Hl|Hl];
    [|rewrite A by lia; exact Hr].
  destruct B as (q & old & Hnth & _ & E); [lia|]. rewrite E. cbn [app] in Hnth.
  pose proof (preorder_refs_valid root root [] eq_refl) as V.
  rewrite Forall_forall in V. specialize (V _ (nth_error_In _ _ Hnth)).
  unfold valid_ref in V. cbn [fst snd] in V.
  apply enough_children_replace_at; [|exact Hr].
  apply enough_children_spliced; [exact Hs|].
  exact (enough_children_subtree_at sy q root old Hr V).
Qed.

Lemma subtree_mutation_enough (fuel : nat) (individual : Individual)
  (param : Params) (g : rng) :
  wf_symbols (symbols param) ->
  functions (symbols param) <> [] ->
  1 <= max_depth param ->
  (Z.to_nat (max_depth param) + 1 <= fuel)%nat ->
  evaluable param individual ->
  exists individual' g',
    subtree_mutation fuel individual param g = Ok (individual', g') /\
    evaluable param individual'.
Proof.
  intros W HF Hm Hfuel A. unfold evaluable in *. unfold subtree_mutation.
  destruct (random_random_Ok g) as (r & Er).
  rewrite (bind_step _ _ _ _ _ Er).
  destruct (PrimFloat.ltb r (mutation_probability param)).
  2:{ unfold ret. eexists. eexists. split; [reflexivity|exact A]. }
  set (t := genome individual) in *.
  destruct (randint_Ok 0 (get_number_of_nodes t 0 - 1) (fun n => g (S n)))
    as (k & g2 & Ek).
  { rewrite get_number_of_nodes_size. pose proof (size_pos t). lia. }
  rewrite (bind_step _ _ _ _ _ Ek).
  set (D := fst (get_depth_from_index t 0 k 0 0)) in *.
  destruct (get_rnd_symbol_spec (symbols param) (max_depth param - D)
              (max_depth param) false g2) as (s & g3 & Es & Hs);
    [apply W|now left|].
  rewrite (bind_step _ _ _ _ _ Es).
  destruct Hs as [T|[Hlt F]].
  - rewrite (terminal_not_function _ _ W T).
    unfold bind, ret. eexists. eexists. split; [reflexivity|].
    cbn [genome]. apply find_and_replace_enough; [exact A|].
    apply enough_children_Node. exists 0%nat.
    split; [now apply (wf_terminals _ W)|]. split; [simpl; lia|constructor].
  - rewrite (proj2 (in_list_In _ _) F).
    destruct (getrandbits1_Ok g3) as (full & Ef).
    apply (wf_functions _ W) in F. destruct F as (a & Ha & _).
    destruct (grow_spec (symbols param) (max_depth param) full W fuel
                (Node s []) D a (fun n => g3 (S n)) Ha)
      as (new & g5 & Eg & Hl & HQ).
    { right. lia. }
    simpl in Eg.
    assert (Ebind : bind getrandbits1
                      (fun full => grow fuel (Node s []) D (max_depth param)
                                     full (symbols param)) g3
                    = Ok (Node s new, g5)).
    { rewrite (bind_step _ _ _ _ _ Ef). exact Eg. }
    rewrite (bind_step _ _ _ _ _ Ebind).
    unfold ret. eexists. eexists. split; [reflexivity|].
    cbn [genome]. apply find_and_replace_enough; [exact A|].
    apply arity_invariant_enough, arity_invariant_Node. rewrite Hl.
    split; [exact Ha|].
    eapply Forall_impl; [|exact HQ]. intros c [Hc _]. exact Hc.
Qed.

Lemma subtree_crossover_enough (parent1 parent2 : Individual) (param : Params)
  (g : rng) :
  evaluable param parent1 ->
  evaluable param parent2 ->
  exists child1 child2 g',
    subtree_crossover parent1 parent2 param g = Ok ((child1, child2), g') /\
    evaluable param child1 /\ evaluable param child2.
Proof.
  unfold evaluable. intros A1 A2. unfold subtree_crossover.
  set (t0 := genome parent1) in *. set (t1 := genome parent2) in *.
  destruct (random_random_Ok g) as (r & Er).
  rewrite (bind_step _ _ _ _ _ Er).
  assert (Hcopy : forall g0 : rng,
             exists child1 child2 g',
               ret ({| genome := t0; fitness := DEFAULT_FITNESS |},
                    {| genome := t1; fitness := DEFAULT_FITNESS |}) g0
               = Ok ((child1, child2), g') /\
               enough_children (symbols param) (genome child1) = true /\
               enough_children (symbols param) (genome child2) = true).
  { intros g0. unfold ret. eexists. eexists. eexists.
    split; [reflexivity|]. split; assumption. }
  destruct (PrimFloat.ltb r (crossover_probability param) && (1 <? len t0)
            && (0 <? len t0)); [|apply Hcopy].
  destruct (randint_Ok 0 (get_number_of_nodes t0 0 - 1) (fun n => g (S n)))
    as (k & g2 & Ek).
  { rewrite get_number_of_nodes_size. pose proof (size_pos t0). lia. }
  rewrite (bind_step _ _ _ _ _ Ek). apply randint_range in Ek.
  destruct (get_node_at_index_valid t0 k) as (r0 & E0 & V0); [lia|].
  assert (E0' : lift (get_node_at_index t0 k) g2 = Ok (r0, g2))
    by (unfold lift; now rewrite E0).
  rewrite (bind_step _ _ _ _ _ E0').
  destruct (in_list (symbol_of (snd r0)) (functions (symbols param)));
    [|apply Hcopy].
  pose proof (enough_children_subtree_at _ _ _ _ A1 V0) as An0.
  destruct (snd r0) as [s0 cs0] eqn:Er0. cbn [symbol_of].
  pose proof An0 as An0'. apply enough_children_Node in An0'.
  destruct An0' as (a0 & Ha0 & _ & _). rewrite Ha0.
  match goal with
  | |- context [bind (lift (Ok ?a)) _ g2] =>
      rewrite (bind_step (lift (Ok a)) _ g2 g2 a eq_refl)
  end.
  assert (En' : lift (get_nodes_with_equal_arity [] t1 a0 []
                        (-1) (arities (symbols param))) g2
                = Ok ((-1 + Z.of_nat (size t1),
                       filter (has_arity (arities (symbols param)) a0)
                         (preorder_refs [] t1)), g2)).
  { unfold lift. rewrite get_nodes_with_equal_arity_spec.
    now rewrite (enough_children_declared _ _ A2). }
  rewrite (bind_step _ _ _ _ _ En'). cbn [snd].
  destruct (filter (has_arity (arities (symbols param)) a0) (preorder_refs [] t1))
    as [|n0 nodes'] eqn:Ef; [apply Hcopy|].
  destruct (choice_In (n0 :: nodes') g2) as (r1 & g3 & Ec & Ic); [discriminate|].
  rewrite (bind_step _ _ _ _ _ Ec).
  rewrite <- Ef in Ic. apply filter_In in Ic. destruct Ic as [Ic _].
  pose proof (preorder_refs_valid t1 t1 [] eq_refl) as V.
  rewrite Forall_forall in V. specialize (V _ Ic).
  pose proof (enough_children_subtree_at _ _ _ _ A2 V) as An1.
  unfold ret. eexists. eexists. eexists. split; [reflexivity|].
  cbn [genome]. unfold replace_subtree. split.
  - apply enough_children_replace_at; assumption.
  - apply enough_children_replace_at; assumption.
Qed.

Lemma evaluate_enough (case : list float) (t : tree) :
  (2 <= List.length case)%nat ->
  enough_children get_arities t = true ->
  exists v, evaluate t case = Ok v.
Proof.
  intros Hc. induction t as [s cs IH] using tree_forall_ind. intros H.
  apply enough_children_Node in H. destruct H as (a & Ha & Hle & Hcs).
  destruct (get_arities_symbol s a Ha) as [[_ Hsym]|[-> Hsym]].
  - destruct Hsym as [->|[->| ->]].
    + exists 1%float. reflexivity.
    + change (evaluate (Node "x0" cs) case) with (index case 0).
      apply index_in_range. lia.
    + change (evaluate (Node "x1" cs) case) with (index case 1).
      apply index_in_range. lia.
  - destruct cs as [|c1 [|c2 rest]]; simpl in Hle; try lia.
    apply Forall_cons_iff in IH. destruct IH as [IH1 IH].
    apply Forall_cons_iff in IH. destruct IH as [IH2 _].
    apply Forall_cons_iff in Hcs. destruct Hcs as [H1 Hcs].
    apply Forall_cons_iff in Hcs. destruct Hcs as [H2 _].
    destruct (IH1 H1) as [x E1]. destruct (IH2 H2) as [y E2].
    destruct Hsym as [->|[->|[->| ->]]];
      cbn [evaluate]; cbn [String.eqb Ascii.eqb Bool.eqb];
      unfold eval_children; rewrite E1, E2; cbn [rbind];
      (apply protected_divide_total || (eexists; reflexivity)).
Qed.

(** X24: Mutation keeps genomes evaluable although it breaks the arity
    invariant: from a genome over the symbols of [get_arities] in which
    every node has at least as many children as its symbol's arity,
    [subtree_mutation] (with [max_depth >= 1] and a recursion budget above
    it) returns a genome of the same kind, and that genome evaluates
    without error on every case of at least two values. *)
Theorem subtree_mutation_keeps_evaluable (fuel : nat) (individual : Individual)
  (param : Params) (g : rng) :
  symbols param = get_arities ->
  1 <= max_depth param ->
  (Z.to_nat (max_depth param) + 1 <= fuel)%nat ->
  enough_children get_arities (genome individual) = true ->
  exists individual' g',
    subtree_mutation fuel individual param g = Ok (individual', g') /\
    enough_children get_arities (genome individual') = true /\
    forall case, (2 <= List.length case)%nat ->
                 exists v, evaluate (genome individual') case = Ok v.
Proof.
  intros Hsy Hm Hfuel A.
  destruct (subtree_mutation_enough fuel individual param g)
    as (ind' & g' & E & A'); try assumption.
  - rewrite Hsy. exact get_arities_wf.
  - rewrite Hsy. discriminate.
  - unfold evaluable. now rewrite Hsy.
  - unfold evaluable in A'. rewrite Hsy in A'.
    exists ind', g'. split; [exact E|]. split; [exact A'|].
    intros case Hc. now apply evaluate_enough.
Qed.

Lemma subtree_mutation_keeps_evaluable_witness :
  exists individual' g',
    subtree_mutation 3 (example_individual mutated_nested_tree) example_param
      (fun _ => 0) = Ok (individual', g') /\
    enough_children get_arities (genome individual') = true /\
    forall case, (2 <= List.length case)%nat ->
                 exists v, evaluate (genome individual') case = Ok v.
Proof.
  apply (subtree_mutation_keeps_evaluable 3
           (example_individual mutated_nested_tree) example_param (fun _ => 0)).
  - reflexivity.
  - simpl. lia.
  - simpl. lia.
  - reflexivity.
Defined.

(** X25: Crossover keeps genomes evaluable: from two parents in whose
    genomes every node has at least as many children as its symbol's
    arity, [subtree_crossover] returns, and both offspring are of the same
    kind.  The parents need not satisfy the arity invariant, as genomes
    that went through mutation do not. *)
Theorem subtree_crossover_keeps_evaluable (parent1 parent2 : Individual)
  (param : Params) (g : rng) :
  enough_children (symbols param) (genome parent1) = true ->
  enough_children (symbols param) (genome parent2) = true ->
  exists child1 child2 g',
    subtree_crossover parent1 parent2 param g = Ok ((child1, child2), g') /\
    enough_children (symbols param) (genome child1) = true /\
    enough_children (symbols param) (genome child2) = true.
Proof.
  intros A1 A2.
  exact (subtree_crossover_enough parent1 parent2 param g A1 A2).
Qed.

Lemma subtree_crossover_keeps_evaluable_witness :
  exists child1 child2 g',
    subtree_crossover (example_individual mutated_nested_tree)
      (example_individual sum_tree) example_param (fun _ => 0)
    = Ok ((child1, child2), g') /\
    enough_children (symbols example_param) (genome child1) = true /\
    enough_children (symbols example_param) (genome child2) = true.
Proof.
  apply (subtree_crossover_keeps_evaluable
           (example_individual mutated_nested_tree)
           (example_individual sum_tree) example_param (fun _ => 0)).
  - reflexivity.
  - reflexivity.
Defined.

(** ** A generation on evaluable genomes *)

Lemma sort_population_nonempty (l : list Individual) :
  l <> [] -> exists h t, sort_population l = h :: t /\ In h l.
Proof.
  intros Hne. pose proof (sort_population_perm l) as P.
  destruct (sort_population l) as [|h t] eqn:E.
  - apply Permutation_nil in P. congruence.
  - exists h, t. split; [reflexivity|]. apply (Permutation_in _ P). now left.
Qed.

Lemma tournament_loop_total (P : Individual -> Prop)
  (population : list Individual) (param : Params) :
  1 <= tournament_size param <= Z.of_nat (List.length population) ->
  Forall P population ->
  forall n winners g,
    Forall P winners ->
    exists winners' g',
      tournament_loop n population param winners g = Ok (winners', g') /\
      List.length winners' = (List.length winners + n)%nat /\
      Forall P winners'.
Proof.
  intros Hts HP. induction n as [|n IH]; intros winners g Hw.
  - exists winners, g. split; [reflexivity|]. split; [lia|exact Hw].
  - cbn [tournament_loop].
    destruct (sample_spec population (tournament_size param) g)
      as (competitors & g1 & Es & Hl & rest & Perm); [lia|].
    rewrite (bind_step _ _ _ _ _ Es).
    destruct (sort_population_nonempty competitors) as (h & t & Eh & Ih).
    { intros E. rewrite E in Hl. simpl in Hl. lia. }
    rewrite Eh. unfold lift at 1.
    change (index (h :: t) 0) with (Ok h) at 1.
    rewrite (bind_step _ _ g1 g1 h) by reflexivity.
    destruct (IH (winners ++ [h]) g1) as (ws & g' & E & Hlen & Hall).
    { apply Forall_app. split; [exact Hw|]. constructor; [|constructor].
      rewrite Forall_forall in HP. apply HP. apply (Permutation_in _ Perm).
      apply in_or_app. now left. }
    exists ws, g'. split; [exact E|]. split; [|exact Hall].
    rewrite Hlen, length_app. simpl. lia.
Qed.

Lemma crossover_loop_total (parents : list Individual) (param : Params) :
  (2 <= List.length parents)%nat ->
  Forall (evaluable param) parents ->
  forall n new_population g,
    Forall (evaluable param) new_population ->
    population_size param - Z.of_nat (List.length new_population) <= Z.of_nat n ->
    exists l g',
      crossover_loop n parents param new_population g = Ok (l, g') /\
      Forall (evaluable param) l /\
      population_size param <= Z.of_nat (List.length l).
Proof.
  intros Hp HP. induction n as [|n IH]; intros acc g Hacc Hn.
  - cbn [crossover_loop].
    destruct (Z.ltb_spec (Z.of_nat (List.length acc)) (population_size param));
      [lia|].
    exists acc, g. split; [reflexivity|]. split; [exact Hacc|lia].
  - cbn [crossover_loop].
    destruct (Z.ltb_spec (Z.of_nat (List.length acc)) (population_size param)).
    2:{ exists acc, g. split; [reflexivity|]. split; [exact Hacc|lia]. }
    destruct (sample_spec parents 2 g) as (l & g1 & Es & Hl & rest & Perm);
      [lia|].
    rewrite (bind_step _ _ _ _ _ Es).
    destruct l as [|a [|b [|c l]]]; simpl in Hl; try lia.
    rewrite (bind_step (lift (index [a; b] 0)) _ g1 g1 a eq_refl).
    rewrite (bind_step (lift (index [a; b] 1)) _ g1 g1 b eq_refl).
    rewrite Forall_forall in HP.
    destruct (subtree_crossover_enough a b param g1)
      as (c1 & c2 & g2 & Ec & Q1 & Q2).
    { apply HP, (Permutation_in _ Perm). simpl. auto. }
    { apply HP, (Permutation_in _ Perm). simpl. auto. }
    rewrite (bind_step _ _ _ _ _ Ec). cbn [fst snd].
    apply IH.
    + apply Forall_app. split; [exact Hacc|]. repeat constructor; assumption.
    + rewrite length_app. simpl. lia.
Qed.

Lemma mutation_loop_total (fuel : nat) (param : Params) :
  wf_symbols (symbols param) ->
  functions (symbols param) <> [] ->
  1 <= max_depth param ->
  (Z.to_nat (max_depth param) + 1 <= fuel)%nat ->
  forall l g,
    Forall (evaluable param) l ->
    exists l' g',
      mutation_loop fuel l param g = Ok (l', g') /\
      Forall (evaluable param) l' /\
      List.length l' = List.length l.
Proof.
  intros W HF Hm Hfuel. induction l as [|ind rest IH]; intros g H.
  - exists [], g. split; [reflexivity|]. split; [constructor|reflexivity].
  - apply Forall_cons_iff in H. destruct H as [Hi Hr].
    cbn [mutation_loop].
    destruct (subtree_mutation_enough fuel ind param g W HF Hm Hfuel Hi)
      as (ind' & g1 & Em & Hi').
    rewrite (bind_step _ _ _ _ _ Em).
    destruct (IH g1 Hr) as (rest' & g2 & Er & Hr' & Hl).
    rewrite (bind_step _ _ _ _ _ Er).
    exists (ind' :: rest'), g2. split; [reflexivity|].
    split; [now constructor|]. simpl. now rewrite Hl.
Qed.

Lemma sum_squared_errors_total (genome : tree) :
  enough_children get_arities genome = true ->
  forall cases fitness,
    Forall (fun ct : list float * float => (2 <= List.length (fst ct))%nat) cases ->
    exists f, sum_squared_errors genome cases fitness = Ok f.
Proof.
  intros Hg. induction cases as [|[case target] rest IH]; intros fitness H.
  - exists fitness. reflexivity.
  - apply Forall_cons_iff in H. destruct H as [Hc Hr]. cbn [fst] in Hc.
    cbn [sum_squared_errors].
    destruct (evaluate_enough case genome Hc Hg) as [v E]. rewrite E.
    cbn [rbind]. apply IH. exact Hr.
Qed.

Lemma evaluate_fitness_total (param : Params) :
  symbols param = get_arities ->
  Forall (fun case => (2 <= List.length case)%nat) (fitness_cases param) ->
  PrimFloat.eqb (float_of_Z (Z.of_nat (List.length (targets param)))) 0 = false ->
  forall l,
    Forall (evaluable param) l ->
    exists l',
      evaluate_fitness l param = Ok l' /\
      Forall (evaluable param) l' /\
      List.length l' = List.length l.
Proof.
  intros Hsy Hc Hd. induction l as [|ind rest IH]; intros H.
  - exists []. split; [reflexivity|]. split; [constructor|reflexivity].
  - apply Forall_cons_iff in H. destruct H as [Hi Hr].
    cbn [evaluate_fitness]. unfold evaluate_individual.
    destruct (sum_squared_errors_total (genome ind)) with
      (cases := combine (fitness_cases param) (targets param))
      (fitness := 0%float) as [f Ef].
    { unfold evaluable in Hi. now rewrite Hsy in Hi. }
    { rewrite Forall_forall in *. intros [case target] Hin.
      apply in_combine_l in Hin. cbn [fst]. now apply Hc. }
    rewrite Ef. cbn [rbind]. unfold py_div. rewrite Hd.
    destruct (IH Hr) as (rest' & Er & Hr' & Hl). rewrite Er. cbn [rbind].
    eexists. split; [reflexivity|]. split.
    + constructor; [exact Hi|exact Hr'].
    + simpl. now rewrite Hl.
Qed.

Lemma generational_replacement_incl
  (new_population old_population : list Individual) (param : Params) :
  incl (generational_replacement new_population old_population param)
       (new_population ++ old_population).
Proof.
  unfold generational_replacement. intros x Hx.
  apply slice_to_incl in Hx.
  apply (Permutation_in _ (sort_population_perm _)) in Hx.
  apply in_app_or in Hx. apply in_or_app.
  destruct Hx as [Hx|Hx]; [now left|right].
  apply slice_to_incl in Hx.
  now apply (Permutation_in _ (sort_population_perm old_population)).
Qed.

(** X26: One round of the generation loop, from selection to replacement,
    never fails on evaluable genomes, and leaves a population it can run
    on again: over the symbols of [get_arities], with a population size of
    at least two, a tournament size between one and both the size of the
    population and [population_size], fitness cases of at least two values
    each, a number of targets that is not zero as a float,
    [max_depth >= 1] and a recursion budget above it, a population in whose
    genomes every node has at least as many children as its symbol's arity
    yields [population_size] individuals of the same kind, so that the
    tournament size is again between one and the size of the
    population. *)
Theorem generation_never_fails (fuel : nat) (population : list Individual)
  (param : Params) (g : rng) :
  symbols param = get_arities ->
  1 <= max_depth param ->
  (Z.to_nat (max_depth param) + 1 <= fuel)%nat ->
  2 <= population_size param ->
  1 <= tournament_size param <= Z.of_nat (List.length population) ->
  tournament_size param <= population_size param ->
  Forall (fun case => (2 <= List.length case)%nat) (fitness_cases param) ->
  PrimFloat.eqb (float_of_Z (Z.of_nat (List.length (targets param)))) 0 = false ->
  Forall (evaluable param) population ->
  exists population' g',
    generation fuel population param g = Ok (population', g') /\
    Forall (evaluable param) population' /\
    Z.of_nat (List.length population') = population_size param /\
    1 <= tournament_size param <= Z.of_nat (List.length population').
Proof.
  intros Hsy Hm Hfuel Hp Hts Htp Hc Hd HP.
  assert (W : wf_symbols (symbols param)) by (rewrite Hsy; exact get_arities_wf).
  assert (HF : functions (symbols param) <> []) by (rewrite Hsy; discriminate).
  unfold generation.
  destruct (tournament_loop_total (evaluable param) population param Hts HP
              (Z.to_nat (population_size param)) [] g (Forall_nil _))
    as (parents & g1 & Et & Hlp & HPp).
  fold (tournament_selection population param) in Et.
  rewrite (bind_step _ _ _ _ _ Et).
  destruct (crossover_loop_total parents param) with
    (n := Z.to_nat (population_size param)) (new_population := @nil Individual)
    (g := g1) as (new1 & g2 & Ec & HP1 & Hl1);
    [simpl in Hlp; lia|exact HPp|constructor|simpl; lia|].
  rewrite (bind_step _ _ _ _ _ Ec).
  destruct (mutation_loop_total fuel param W HF Hm Hfuel
              (slice_to new1 (population_size param)) g2)
    as (new2 & g3 & Em & HP2 & Hl2).
  { rewrite Forall_forall in *. intros x Hx. apply HP1.
    now apply slice_to_incl in Hx. }
  rewrite (bind_step _ _ _ _ _ Em).
  destruct (evaluate_fitness_total param Hsy Hc Hd new2 HP2)
    as (new3 & Ee & HP3 & Hl3).
  assert (Ee' : lift (evaluate_fitness new2 param) g3 = Ok (new3, g3))
    by (unfold lift; now rewrite Ee).
  rewrite (bind_step _ _ _ _ _ Ee').
  unfold ret. eexists. eexists. split; [reflexivity|].
  assert (Hlen : Z.of_nat
                   (List.length (generational_replacement new3 population param))
                 = population_size param).
  { rewrite slice_to_length in Hl2 by lia.
    unfold generational_replacement. rewrite slice_to_length by lia.
    rewrite (Permutation_length (sort_population_perm _)), length_app.
    lia. }
  split; [|split; [exact Hlen|lia]].
  rewrite Forall_forall in *. intros x Hx.
  apply generational_replacement_incl in Hx. apply in_app_or in Hx.
  destruct Hx as [Hx|Hx]; auto.
Qed.

Lemma generation_never_fails_witness :
  exists population' g',
    generation 3 example_population example_param (fun _ => 0)
    = Ok (population', g') /\
    Forall (evaluable example_param) population' /\
    Z.of_nat (List.length population') = population_size example_param /\
    1 <= tournament_size example_param <= Z.of_nat (List.length population').
Proof.
  apply (generation_never_fails 3 example_population example_param
           (fun _ => 0)).
  - reflexivity.
  - simpl. lia.
  - simpl. lia.
  - simpl. lia.
  - simpl. lia.
  - simpl. lia.
  - repeat constructor.
  - reflexivity.
  - repeat constructor.
Defined.
